(** * A dice-rerolling game and its policy-iteration agent

    Shallow embedding of [src/game/dice_game.py] (class [DiceGame]),
    [src/agent/dice_game_agent.py] (class [DiceGameAgent]) and the
    function [play] of [src/main.py].

    Conventions of the embedding:
    - a Python [int] is a [Z]; a NumPy fixed-width integer is a [Z] with
      the wrap-around of its width written out ([intc] for [np.intc],
      [int64] for the default integer of [np.unique] and [np.sum]);
    - a Python [float] / NumPy [float64] is an exact rational [Qc]:
      rounding, infinities and NaN are not modelled;
    - a tuple of dice values (a state) is a [list Z], a tuple of held
      indices (an action) is a [list nat];
    - a Python [dict] is a [gmap]; a failed lookup ([KeyError],
      [IndexError]), a raised [ValueError] and the [OverflowError] of an
      integer that does not fit the type it is converted to are explicit
      results. *)

From Stdlib Require Import ZArith QArith Qcanon Lia List Permutation Sorted.
From stdpp Require Import base option list sorting numbers countable gmap.

Local Open Scope Z_scope.

(** ** Machine integers *)

Module MachineInt.

(** Two's-complement wrap-around of a signed [w]-bit integer. *)
Definition wrap (w : Z) (z : Z) : Z :=
  (z + 2 ^ (w - 1)) mod 2 ^ w - 2 ^ (w - 1).

Definition in_range (w : Z) (z : Z) : Prop :=
  - 2 ^ (w - 1) <= z < 2 ^ (w - 1).

(** [np.intc]: the C [int], 32 bits. *)
Definition intc : Z -> Z := wrap 32.
(** The default NumPy integer ([np.int64]). *)
Definition int64 : Z -> Z := wrap 64.

#[export] Instance in_range_dec w z : Decision (in_range w z).
Proof. unfold in_range. apply _. Defined.

End MachineInt.
Export MachineInt.

(** ** The pieces of [itertools] and NumPy the game uses *)

Module PyLib.

(** [itertools.combinations_with_replacement(iterable, r)]: the
    [r]-length tuples of elements of the iterable, repetition allowed,
    in lexicographic order of positions. *)
Fixpoint combinations_with_replacement {A} (pool : list A) : nat -> list (list A) :=
  match pool with
  | [] => fun r => match r with O => [[]] | S _ => [] end
  | x :: rest =>
      fix from_x (r : nat) : list (list A) :=
        match r with
        | O => [[]]
        | S r' => map (cons x) (from_x r')
                    ++ combinations_with_replacement rest (S r')
        end
  end.

(** [itertools.combinations(iterable, r)]: the [r]-length subsequences,
    in lexicographic order of positions. *)
Fixpoint combinations {A} (pool : list A) (r : nat) : list (list A) :=
  match r, pool with
  | O, _ => [[]]
  | S _, [] => []
  | S r', x :: rest => map (cons x) (combinations rest r') ++ combinations rest r
  end.

(** Run lengths of a list: what [np.unique(..., return_counts=True)]
    reads off the sorted array. *)
Fixpoint run_lengths (xs : list Z) : list (Z * nat) :=
  match xs with
  | [] => []
  | x :: rest =>
      match run_lengths rest with
      | (y, c) :: runs =>
          if decide (x = y) then (y, S c) :: runs else (x, 1%nat) :: (y, c) :: runs
      | [] => [(x, 1%nat)]
      end
  end.

(** [np.sort] on a one-dimensional integer array. *)
Definition np_sort (xs : list Z) : list Z := merge_sort Z.le xs.

(** [np.unique(xs, return_counts=True)], as the list of
    (unique value, count) pairs, unique values ascending. *)
Definition np_unique (xs : list Z) : list (Z * nat) := run_lengths (np_sort xs).

(** [np.sum] over a 64-bit integer array: the accumulator wraps. *)
Definition np_sum (xs : list Z) : Z := foldl (fun acc x => int64 (acc + x)) 0 xs.

(** [np.bincount(idx, minlength=n)]: entry [j] counts the occurrences
    of [j]; the result has [max(n, max(idx) + 1)] entries. *)
Definition np_bincount (minlength : nat) (idx : list nat) : list nat :=
  let len := match idx with
             | [] => minlength
             | _ => Nat.max minlength (S (list_max idx))
             end in
  map (fun j => count_occ Nat.eq_dec idx j) (seq 0 len).

(** Boolean-mask selection [arr[mask]]. *)
Fixpoint np_select {A} (mask : list bool) (arr : list A) : list A :=
  match mask, arr with
  | b :: mask', x :: arr' =>
      if b then x :: np_select mask' arr' else np_select mask' arr'
  | _, _ => []
  end.

(** Boolean-mask assignment [arr[mask] = new] into an [np.intc] array:
    the masked positions take the elements of [new] in order, cast to
    [intc]. *)
Fixpoint np_assign (mask : list bool) (arr new : list Z) : list Z :=
  match mask, arr with
  | b :: mask', x :: arr' =>
      if b then
        match new with
        | y :: new' => intc y :: np_assign mask' arr' new'
        | [] => x :: np_assign mask' arr' []
        end
      else x :: np_assign mask' arr' new
  | _, _ => arr
  end.

(** A dict comprehension [{k: v for k, v in pairs}] added to [d]: a
    later pair overwrites an earlier one with the same key. *)
Definition dict_of_pairs (d : gmap Z Z) (pairs : list (Z * Z)) : gmap Z Z :=
  foldl (fun d kv => <[kv.1 := kv.2]> d) d pairs.

(** Rationals standing for floats. *)
Fixpoint Qc_of_nat (n : nat) : Qc :=
  match n with O => 0%Qc | S n' => (1 + Qc_of_nat n')%Qc end.

Fixpoint Qc_fact (n : nat) : Qc :=
  match n with O => 1%Qc | S n' => (Qc_of_nat n * Qc_fact n')%Qc end.

Definition Qc_sum (xs : list Qc) : Qc := foldr Qcplus 0%Qc xs.
Definition Qc_prod (xs : list Qc) : Qc := foldr Qcmult 1%Qc xs.

Definition Qc_abs (x : Qc) : Qc := if decide (x < 0)%Qc then (- x)%Qc else x.
Definition Qc_max (x y : Qc) : Qc := if decide (x < y)%Qc then y else x.

(** The multinomial probability mass
    [n! / (x_1! ... x_m!) * p_1^x_1 ... p_m^x_m] of the counts [x] when
    they add up to [n], and [0] otherwise. *)
Definition multinomial_formula (x : list nat) (n : nat) (p : list Qc) : Qc :=
  if decide (list_sum x = n) then
    (Qc_fact n / Qc_prod (map Qc_fact x)
     * Qc_prod (zip_with (fun pj xj => pj ^ xj) p x))%Qc
  else 0%Qc.

(** How [scipy.stats.multinomial] reads its parameter [p]: the last
    entry is replaced by one minus the sum of the others, so a list
    that adds up to 1 is read as it is. *)
Definition scipy_p (p : list Qc) : list Qc :=
  match p with
  | [] => []
  | _ => removelast p ++ [(1 - Qc_sum (removelast p))%Qc]
  end.

(** [scipy.stats.multinomial.pmf(x, n, p)]: the multinomial formula on
    [p] as scipy reads it. Where scipy answers NaN (an entry of that
    vector below 0 or above 1) the embedding has no counterpart and
    keeps the formula; what is proved about the probabilities assumes
    biases that are a probability vector. *)
Definition multinomial_pmf (x : list nat) (n : nat) (p : list Qc) : Qc :=
  multinomial_formula x n (scipy_p p).

(** A bias list as the data model has it: non-negative weights that add
    up to 1. *)
Definition probability_vector (p : list Qc) : Prop :=
  Forall (fun pj => (0 <= pj)%Qc) p /\ Qc_sum p = 1%Qc.

#[export] Instance probability_vector_dec p : Decision (probability_vector p).
Proof. unfold probability_vector. apply _. Defined.

(** What [np.random.choice(a, p=p)] accepts as [p]: no negative entry,
    and a sum no further from 1 than [sqrt(eps)], which is [2 ^ -26]
    for [float64]. *)
Definition choice_tolerance : Qc := Q2Qc (1 # 67108864).

Definition choice_accepts (p : list Qc) : Prop :=
  Forall (fun pj => (0 <= pj)%Qc) p
  /\ (Qc_abs (Qc_sum p - 1) <= choice_tolerance)%Qc.

#[export] Instance choice_accepts_dec p : Decision (choice_accepts p).
Proof. unfold choice_accepts. apply _. Defined.

End PyLib.
Export PyLib.

(** ** Exceptions *)

Module Exn.

Inductive exn := ValueError | KeyError | IndexError | OverflowError.

Inductive result (A : Type) :=
| Ok (a : A)
| Raise (e : exn).
Arguments Ok {A} a.
Arguments Raise {A} e.

Definition bind {A B} (m : result A) (k : A -> result B) : result B :=
  match m with
  | Ok a => k a
  | Raise e => Raise e
  end.

(** A dictionary or list lookup that raises [e] when the key is missing. *)
Definition lookup_or {A} (e : exn) (o : option A) : result A :=
  match o with
  | Some a => Ok a
  | None => Raise e
  end.

Fixpoint map_result {A B} (f : A -> result B) (xs : list A) : result (list B) :=
  match xs with
  | [] => Ok []
  | x :: rest =>
      bind (f x) (fun y => bind (map_result f rest) (fun ys => Ok (y :: ys)))
  end.

Definition is_ok {A} (m : result A) : Prop :=
  match m with Ok _ => True | Raise _ => False end.


End Exn.
Export Exn.

Notation "'let*' x ':=' m 'in' k" := (Exn.bind m (fun x => k))
  (at level 10, x pattern, m at level 100, k at level 200).

(** ** The game: [src/game/dice_game.py] *)

Module Game.

(** The private configuration attributes of a constructed [DiceGame]. *)
Record DiceGame := {
  dice : nat;
  sides : nat;
  values : list Z;
  biases : list Qc;
  penalty : Z
}.

(** [DiceGame.__init__], up to its final [self.reset()]: the defaults
    and the two length checks. The dice and side counts are naturals: a
    negative one makes [itertools] or NumPy raise before the game
    exists. *)
Definition new_game (dice sides : option nat) (values : option (list Z))
    (biases : option (list Qc)) (penalty : option Z) : result DiceGame :=
  let dice := default 3%nat dice in
  let sides := default 6%nat sides in
  let values :=
    default (map (fun i => Z.of_nat i) (seq 1 sides)) values in
  let biases :=
    default (replicate sides (1 / Qc_of_nat sides)%Qc) biases in
  let penalty := default 1 penalty in
  if negb (bool_decide (length values = sides)) then Raise ValueError
  else if negb (bool_decide (length values = length biases)) then Raise ValueError
  else Ok {| dice := dice; sides := sides; values := values;
             biases := biases; penalty := penalty |}.

(** [self.__opposite_sides]: the dict comprehension over
    [zip(values, values[::-1])]. *)
Definition opposite_sides (g : DiceGame) : gmap Z Z :=
  dict_of_pairs ∅ (zip (values g) (reverse (values g))).

(** [self.states]. *)
Definition states (g : DiceGame) : list (list Z) :=
  combinations_with_replacement (values g) (dice g).

(** [self.actions]. *)
Definition actions (g : DiceGame) : list (list nat) :=
  [[]] ++ concat (map (fun i => combinations (seq 0 (dice g)) i) (seq 1 (dice g))).

(** [DiceGame.__final_score]. *)
Definition final_score (g : DiceGame) (dice_values : list Z) : result Z :=
  let unique := np_unique dice_values in
  let once := filter (fun uc => uc.2 = 1%nat) unique in
  let more := filter (fun uc => (1 < uc.2)%nat) unique in
  let* flipped :=
    map_result (fun uc => lookup_or KeyError (opposite_sides g !! uc.1)) more in
  Ok (int64 (np_sum (map fst once)
             + np_sum (zip_with (fun o uc => int64 (o * Z.of_nat uc.2)) flipped more))).

(** *** The mutable part of a game *)

(** [self.score] starts as the Python [int] [penalty] and becomes an
    [np.int64] once a NumPy sum has been added to it. *)
Inductive number :=
| py_int (z : Z)
| np_int64 (z : Z).

Definition number_value (n : number) : Z :=
  match n with py_int z | np_int64 z => z end.

(** [score += s] for an [np.int64] [s]: the Python [int] operand is
    converted to [np.int64], which raises [OverflowError] when it does
    not fit; the [np.int64] sum wraps. *)
Definition add_int64 (n : number) (s : Z) : result number :=
  match n with
  | py_int z =>
      if bool_decide (in_range 64 z) then Ok (np_int64 (int64 (z + s)))
      else Raise OverflowError
  | np_int64 z => Ok (np_int64 (int64 (z + s)))
  end.

(** [score -= p] for a Python [int] [p]: exact between Python [int]s;
    with an [np.int64] score [p] is converted to [np.int64], which
    raises [OverflowError] when it does not fit, and the difference
    wraps. *)
Definition sub_py_int (n : number) (p : Z) : result number :=
  match n with
  | py_int z => Ok (py_int (z - p))
  | np_int64 z =>
      if bool_decide (in_range 64 p) then Ok (np_int64 (int64 (z - p)))
      else Raise OverflowError
  end.

Record GameState := {
  game_over : bool;
  score : number;
  current_dice : list Z
}.

(** What [roll] hands back: the bare [0] of its guard, or the pair
    [(state, game_over)]. *)
Inductive roll_result :=
| bare_zero
| state_and_flag (state : list Z) (over : bool).

(** [DiceGame.__flip_duplicates]: the new [self.__current_dice]. *)
Definition flip_duplicates (g : DiceGame) (current : list Z) : result (list Z) :=
  let unique := np_unique current in
  let more := map fst (filter (fun uc => (1 < uc.2)%nat) unique) in
  let* flipped :=
    if bool_decide (more <> []) then
      let mask := map (fun x => bool_decide (x ∈ more)) current in
      let* opposite :=
        map_result (fun x => lookup_or KeyError (opposite_sides g !! x))
          (np_select mask current) in
      Ok (np_assign mask current opposite)
    else Ok current in
  Ok (np_sort flipped).

(** [DiceGame.get_dice_state]. *)
Definition get_dice_state (st : GameState) : list Z := current_dice st.

(** [np.random.choice(a, size=size, replace=True, p=p)]: it rejects an
    empty [a] unless no sample is taken, a [p] of another length and a
    [p] with a negative entry or a sum too far from 1; [rng j] is the
    position drawn for the [j]-th sample. *)
Definition np_random_choice (a : list Z) (size : nat) (p : list Qc)
    (rng : nat -> nat) : result (list Z) :=
  if bool_decide (a = [] /\ size <> 0%nat) then Raise ValueError
  else if negb (bool_decide (length p = length a)) then Raise ValueError
  else if negb (bool_decide (choice_accepts p)) then Raise ValueError
  else Ok (map (fun j => nth (rng j mod length a) a 0) (seq 0 size)).

(** [DiceGame.roll]: the attributes after the call and what the call
    returns or raises. The dice are assigned before the score is
    updated, so a call whose score update raises leaves the new dice
    behind. *)
Definition roll_step (g : DiceGame) (rng : nat -> nat) (st : GameState)
    (action : list nat) : GameState * result roll_result :=
  if negb (bool_decide (action ∈ actions g)) then (st, Raise ValueError)
  else if game_over st then (st, Ok bare_zero)
  else
    let hold_count := length action in
    if bool_decide (hold_count = dice g) then
      match flip_duplicates g (current_dice st) with
      | Raise e => (st, Raise e)
      | Ok flipped =>
          let st1 := {| game_over := game_over st;
                        score := score st;
                        current_dice := flipped |} in
          match add_int64 (score st) (np_sum flipped) with
          | Raise e => (st1, Raise e)
          | Ok new_score =>
              let st' := {| game_over := game_over st;
                            score := new_score;
                            current_dice := flipped |} in
              (st', Ok (state_and_flag (get_dice_state st') true))
          end
      end
    else
      let mask := map (fun i => negb (bool_decide (i ∈ action))) (seq 0 (dice g)) in
      let not_held := (dice g - hold_count)%nat in
      match np_random_choice (values g) not_held (biases g) rng with
      | Raise e => (st, Raise e)
      | Ok drawn =>
          let rolled := np_sort (np_assign mask (current_dice st) drawn) in
          let st1 := {| game_over := game_over st;
                        score := score st;
                        current_dice := rolled |} in
          match sub_py_int (score st) (penalty g) with
          | Raise e => (st1, Raise e)
          | Ok new_score =>
              let st' := {| game_over := game_over st;
                            score := new_score;
                            current_dice := rolled |} in
              (st', Ok (state_and_flag (get_dice_state st') false))
          end
      end.

(** A call of [roll] that returns: the attributes after it and what it
    returns. *)
Definition roll (g : DiceGame) (rng : nat -> nat) (st : GameState)
    (action : list nat) : result (GameState * roll_result) :=
  match roll_step g rng st action with
  | (st', Ok r) => Ok (st', r)
  | (_, Raise e) => Raise e
  end.

(** [DiceGame.reset]; the [dice, _ = self.roll()] unpacking fails on a
    bare [0]. *)
Definition reset (g : DiceGame) (rng : nat -> nat) : result (GameState * list Z) :=
  let st := {| game_over := false;
               score := py_int (penalty g);
               current_dice := replicate (dice g) 0 |} in
  let* (st', r) := roll g rng st [] in
  match r with
  | state_and_flag d _ => Ok (st', d)
  | bare_zero => Raise ValueError
  end.

(** A game object exists once [__init__] has run to its end: the
    length checks passed and the closing [self.reset()] returned. *)
Definition constructed (g : DiceGame) : Prop :=
  exists dice sides values biases penalty rng,
    new_game dice sides values biases penalty = Ok g /\ is_ok (reset g rng).

(** The game states a caller can bring about: the constructor ends with
    [reset()], and from there on [reset()] and [roll(action)] are the
    only operations that change the game, whether [roll] returns or
    raises. *)
Inductive reachable (g : DiceGame) : GameState -> Prop :=
| reachable_reset rng st d :
    reset g rng = Ok (st, d) -> reachable g st
| reachable_roll rng st action st' r :
    reachable g st -> roll g rng st action = Ok (st', r) -> reachable g st'
| reachable_raise rng st action st' e :
    reachable g st -> roll_step g rng st action = (st', Raise e) ->
    reachable g st'.

(** *** The transition model *)

Record next_states := {
  possible_states : list (option (list Z));
  is_over : bool;
  reward : Z;
  probabilities : list Qc
}.

(** [np.array(xs, dtype=np.intc)] on integers: a value that does not
    fit a C [int] raises [OverflowError]. *)
Definition intc_cast (z : Z) : result Z :=
  if bool_decide (in_range 32 z) then Ok z else Raise OverflowError.

(** [DiceGame.get_next_states]. *)
Definition get_next_states (g : DiceGame) (state : list Z) (action : list nat)
    : result next_states :=
  if negb (bool_decide (state ∈ states g)) then Raise ValueError
  else if negb (bool_decide (action ∈ actions g)) then Raise ValueError
  else
    let hold_count := length action in
    if bool_decide (hold_count = dice g) then
      let* final := final_score g state in
      Ok {| possible_states := [None]; is_over := true;
            reward := final; probabilities := [1%Qc] |}
    else
      let mask := map (fun i => bool_decide (i ∈ action)) (seq 0 (dice g)) in
      let rerolled := (dice g - hold_count)%nat in
      let* possible :=
        map_result (map_result intc_cast)
          (combinations_with_replacement (values g) rerolled) in
      let possible_index := combinations_with_replacement (seq 0 (sides g)) rerolled in
      let queries := map (np_bincount (sides g)) possible_index in
      let probs := map (fun x => multinomial_pmf x rerolled (biases g)) queries in
      let* state_as_array := map_result intc_cast state in
      let held := np_select mask state_as_array in
      let inserted := map (fun row => held ++ row) possible in
      let sorted := map np_sort inserted in
      Ok {| possible_states := map Some sorted; is_over := false;
            reward := -1 * penalty g; probabilities := probs |}.

End Game.
Export Game.

(** ** The agent: [src/agent/dice_game_agent.py] *)

Module Agent.

(** How far a loop got: it returned, it raised, or it was still running
    when the fuel ran out (with the loop variables of that moment). *)
Inductive run (A : Type) :=
| Finished (a : A)
| Failed (e : exn)
| Running (a : A).
Arguments Finished {A} a.
Arguments Failed {A} e.
Arguments Running {A} a.

(** [self.__theta] and [self.__gamma]. *)
Definition theta : Qc := Q2Qc (1 # 1000).
Definition gamma : Qc := Q2Qc (94 # 100).

(** Python list indexing [l[i]]: a negative index counts from the end. *)
Definition py_index {A} (l : list A) (i : Z) : result A :=
  let n := Z.of_nat (length l) in
  if bool_decide (0 <= i < n) then lookup_or IndexError (l !! Z.to_nat i)
  else if bool_decide (- n <= i < 0) then lookup_or IndexError (l !! Z.to_nat (n + i))
  else Raise IndexError.

(** The value function [v] and the policy are dicts keyed by states. *)
Abbreviation value_function := (gmap (list Z) Qc).
Abbreviation policy_map := (gmap (list Z) (list nat)).

Section WithGame.

Variable g : DiceGame.

(** A Python [int] added to a [float] is converted to [float] first;
    an [int] that rounds to [2 ^ 1024] or beyond raises
    [OverflowError]. *)
Definition float_of_int (z : Z) : result Qc :=
  if bool_decide (Z.abs z < 2 ^ 1024 - 2 ^ 970) then Ok (Qc_of_Z z)
  else Raise OverflowError.

(** The Bellman loop [for i in range(len(new_states))], shared by
    evaluation and improvement. The reward of a re-roll is the Python
    [int] [-1 * penalty], that of the terminal action an [np.int64]. *)
Definition bellman_term (v : value_function) (state : list Z) (ns : next_states)
    (acc : Qc) (i : nat) : result Qc :=
  if negb (is_over ns) then
    let* p := lookup_or IndexError (probabilities ns !! i) in
    let* next := lookup_or IndexError (possible_states ns !! i) in
    let* vn := lookup_or KeyError (next ≫= (v !!.)) in
    let* r := float_of_int (reward ns) in
    Ok (acc + p * (r + gamma * vn))%Qc
  else
    let* vs := lookup_or KeyError (v !! state) in
    Ok (acc + (Qc_of_Z (reward ns) + gamma * vs))%Qc.

Fixpoint fold_result {A B} (f : A -> B -> result A) (acc : A) (xs : list B) : result A :=
  match xs with
  | [] => Ok acc
  | x :: rest => let* acc' := f acc x in fold_result f acc' rest
  end.

Definition bellman (v : value_function) (state : list Z) (ns : next_states) : result Qc :=
  fold_result (bellman_term v state ns) 0%Qc (seq 0 (length (possible_states ns))).

(** The loop variables of one evaluation sweep. *)
Record sweep_state := {
  sw_v : value_function;
  sw_delta : Qc;
  sw_converged : bool
}.

(** The body of [for state in self.game.states] in
    [__policy_evaluation]. *)
Definition evaluate_state (policy : policy_map) (sw : sweep_state) (state : list Z)
    : result sweep_state :=
  let v := sw_v sw in
  let* old_v := lookup_or KeyError (v !! state) in
  let* action := lookup_or KeyError (policy !! state) in
  let* ns := get_next_states g state action in
  let* new_v := bellman v state ns in
  let* cur := lookup_or KeyError (v !! state) in
  let v' := if decide (cur < new_v)%Qc then <[state := new_v]> v else v in
  let* cur' := lookup_or KeyError (v' !! state) in
  let delta := Qc_max (sw_delta sw) (Qc_abs (old_v - cur')) in
  let converged := if decide (delta < theta)%Qc then true else sw_converged sw in
  Ok {| sw_v := v'; sw_delta := delta; sw_converged := converged |}.

(** One pass of the [while not converged] body: [delta = 0], then the
    [for] loop. The loop is only entered with [converged] false. *)
Definition sweep (policy : policy_map) (v : value_function) : result sweep_state :=
  fold_result (evaluate_state policy)
    {| sw_v := v; sw_delta := 0%Qc; sw_converged := false |} (states g).

(** [DiceGameAgent.__policy_evaluation]. *)
Fixpoint policy_evaluation (fuel : nat) (v : value_function) (policy : policy_map)
    : run value_function :=
  match fuel with
  | O => Running v
  | S fuel' =>
      match sweep policy v with
      | Raise e => Failed e
      | Ok sw =>
          if sw_converged sw then Finished (sw_v sw)
          else policy_evaluation fuel' (sw_v sw) policy
      end
  end.

(** The body of [for state in self.game.states] in
    [__policy_improvement]; [policy] and [new_policy] are the same dict. *)
Definition improve_state (action_index : Z) (v : value_function)
    (acc : bool * policy_map) (state : list Z) : result (bool * policy_map) :=
  let '(stable, policy) := acc in
  let* old_action := lookup_or KeyError (policy !! state) in
  let* new_action := py_index (actions g) action_index in
  let* ns := get_next_states g state new_action in
  let* value := bellman v state ns in
  let* vs := lookup_or KeyError (v !! state) in
  let policy' := if decide (vs < value)%Qc then <[state := new_action]> policy else policy in
  let* now := lookup_or KeyError (policy' !! state) in
  let stable' := if decide (old_action <> now) then false else stable in
  Ok (stable', policy').

(** [DiceGameAgent.__policy_improvement]. *)
Definition policy_improvement (action_index : Z) (v : value_function)
    (policy : policy_map) : result (Z * bool * policy_map) :=
  let action_index := action_index - 1 in
  let* (stable, new_policy) :=
    fold_result (improve_state action_index v) (true, policy) (states g) in
  Ok (action_index, stable, new_policy).

(** The loop variables of [__policy_iteration]. *)
Record solver_state := {
  so_i : Z;
  so_v : value_function;
  so_policy : policy_map
}.

(** The [while not policy_stable] loop. *)
Fixpoint policy_iteration_loop (fuel : nat) (so : solver_state) : run solver_state :=
  match fuel with
  | O => Running so
  | S fuel' =>
      match policy_evaluation (S fuel') (so_v so) (so_policy so) with
      | Failed e => Failed e
      | Running v => Running {| so_i := so_i so; so_v := v; so_policy := so_policy so |}
      | Finished v =>
          match policy_improvement (so_i so) v (so_policy so) with
          | Raise e => Failed e
          | Ok (i, stable, policy) =>
              let so' := {| so_i := i; so_v := v; so_policy := policy |} in
              if stable then Finished so' else policy_iteration_loop fuel' so'
          end
      end
  end.

(** A dict comprehension [{k: f(k) for k in keys}]. *)
Definition dict_of {V} (f : list Z -> result V) (keys : list (list Z))
    : result (gmap (list Z) V) :=
  fold_result (fun d k => let* x := f k in Ok (<[k := x]> d)) ∅ keys.

(** The initialisation of [__policy_iteration]. *)
Definition initial_solver_state : result solver_state :=
  let i := Z.of_nat (length (actions g)) - 1 in
  let* v := dict_of (fun _ => Ok 0%Qc) (states g) in
  let* policy := dict_of (fun _ => py_index (actions g) i) (states g) in
  Ok {| so_i := i; so_v := v; so_policy := policy |}.

(** [DiceGameAgent.__policy_iteration]. *)
Definition policy_iteration (fuel : nat) : run policy_map :=
  match initial_solver_state with
  | Raise e => Failed e
  | Ok so =>
      match policy_iteration_loop fuel so with
      | Finished so' => Finished (so_policy so')
      | Failed e => Failed e
      | Running so' => Running (so_policy so')
      end
  end.

End WithGame.

End Agent.
Export Agent.

(** ** The specification's vocabulary *)

Module Spec.

Definition Zsum (xs : list Z) : Z := foldr Z.add 0 xs.

(** How often [v] occurs in [s]. *)
Definition occurrences (s : list Z) (v : Z) : nat := count_occ Z.eq_dec s v.
Arguments occurrences : simpl never.

(** The face across the die from [v]: at position [sides - 1 - i] when
    [v] is at position [i] of the value domain. *)
Definition opposite (g : DiceGame) (v : Z) : Z :=
  match list_find (fun x => x = v) (values g) with
  | Some (i, _) => default 0 (values g !! (sides g - 1 - i)%nat)
  | None => 0
  end.

(** The score as the specification words it: the distinct values seen
    once count as they are, those seen more often count as their
    opposite face, once per occurrence. *)
Definition final_score_spec (g : DiceGame) (s : list Z) : Z :=
  Zsum (filter (fun v => occurrences s v = 1%nat) (remove_dups s))
  + Zsum (map (fun v => opposite g v * Z.of_nat (occurrences s v))
            (filter (fun v => (1 < occurrences s v)%nat) (remove_dups s))).

(** What one distinct value contributes to the score. *)
Definition score_term (g : DiceGame) (s : list Z) (v : Z) : Z :=
  if decide (occurrences s v = 1%nat) then v
  else if decide (1 < occurrences s v)%nat
       then opposite g v * Z.of_nat (occurrences s v)
       else 0.

(** The values of [s] at the held positions. *)
Definition held_values (s : list Z) (a : list nat) : list Z :=
  map (fun i => nth i s 0) a.

(** The probability of rolling the multiset [r]:
    [k! / prod (count_v!) * prod (bias_v ^ count_v)], [v] ranging over
    the value domain and [count_v] counting [v] in [r]. *)
Definition multinomial_probability (g : DiceGame) (r : list Z) : Qc :=
  (Qc_fact (length r)
   / Qc_prod (map (fun v => Qc_fact (occurrences r v)) (values g))
   * Qc_prod (zip_with (fun b v => b ^ occurrences r v) (biases g) (values g)))%Qc.

(** The game with its biases as [scipy.stats.multinomial] reads them. *)
Definition scipy_biases (g : DiceGame) : DiceGame :=
  {| dice := dice g; sides := sides g; values := values g;
     biases := scipy_p (biases g); penalty := penalty g |}.

(** All dice show values of the domain. *)
Definition within (g : DiceGame) (xs : list Z) : Prop :=
  Forall (fun x => x ∈ values g) xs.

(** [v'] is pointwise at least [v]. *)
Definition value_le (v v' : gmap (list Z) Qc) : Prop :=
  forall s x, v !! s = Some x -> exists y, v' !! s = Some y /\ (x <= y)%Qc.

(** The terms [a ^ k / k!] of the exponential series. *)
Definition exp_term (a : Qc) (k : nat) : Qc := (a ^ k / Qc_fact k)%Qc.

(** The Cauchy product of two sequences. *)
Definition convolution (F G : nat -> Qc) (k : nat) : Qc :=
  Qc_sum (map (fun i => F i * G (k - i)%nat)%Qc (seq 0 (S k))).

(** The weight of a tuple of positions [t] under the (position, bias)
    pairs [jp]: the product of [p ^ c / c!], [c] counting the position
    in [t]. *)
Definition weight (jp : list (nat * Qc)) (t : list nat) : Qc :=
  Qc_prod (map (fun e => exp_term e.2 (count_occ Nat.eq_dec t e.1)) jp).

End Spec.
Export Spec.

(** ** Concrete games *)

Module Examples.

Definition half : Qc := Q2Qc (1 # 2).

(** [DiceGame()]: three fair six-sided dice, faces 1 to 6, penalty 1. *)
Definition default_game : DiceGame :=
  {| dice := 3; sides := 6; values := [1; 2; 3; 4; 5; 6];
     biases := replicate 6 (1 / Qc_of_nat 6)%Qc; penalty := 1 |}.

(** [DiceGame(dice=1, sides=2, values=[1, 2], biases=[0.5, 0.5], penalty=1)]. *)
Definition game_1_2 : DiceGame :=
  {| dice := 1; sides := 2; values := [1; 2]; biases := [half; half]; penalty := 1 |}.

(** [DiceGame(dice=1, sides=2, values=[0, 2], biases=[0.5, 0.5])]. *)
Definition game_0_2 : DiceGame :=
  {| dice := 1; sides := 2; values := [0; 2]; biases := [half; half]; penalty := 1 |}.

(** [DiceGame(dice=1, sides=2, values=[0, 1], biases=[0.5, 0.5], penalty=-1)]. *)
Definition game_0_1 : DiceGame :=
  {| dice := 1; sides := 2; values := [0; 1]; biases := [half; half]; penalty := -1 |}.

(** [DiceGame(dice=0)]. *)
Definition game_no_dice : DiceGame :=
  {| dice := 0; sides := 6; values := [1; 2; 3; 4; 5; 6];
     biases := replicate 6 (1 / Qc_of_nat 6)%Qc; penalty := 1 |}.


(** [DiceGame(dice=1, sides=2, values=[1, 2], biases=[0.5, 0.5],
    penalty=2 ** 70)]: the penalty does not fit an [np.int64]. *)
Definition game_dear : DiceGame :=
  {| dice := 1; sides := 2; values := [1; 2]; biases := [half; half];
     penalty := 2 ^ 70 |}.

(** [DiceGame(dice=1, sides=2, values=[0, 2], biases=[0.5, 0.5],
    penalty=2 ** 1024)]: the penalty is beyond the range of a [float]. *)
Definition game_huge : DiceGame :=
  {| dice := 1; sides := 2; values := [0; 2]; biases := [half; half];
     penalty := 2 ^ 1024 |}.

(** A random source that always draws position 0. *)
Definition first_face (j : nat) : nat := 0.

End Examples.
Export Examples.

(** ** Playing a game: [get_action] and [play] of [src/main.py] *)

Module Play.

(** [DiceGameAgent.get_action]. *)
Definition get_action (optimal_policy : policy_map) (state : list Z)
    : result (list nat) :=
  lookup_or KeyError (optimal_policy !! state).

(** How a call of [play] can end: it returns, an exception of the game
    or of the agent comes through, the unpacking
    [state, game_over = game.roll(action)] of a bare [0] fails with a
    [TypeError], or the loop is still running when the fuel is used
    up. *)
Inductive outcome (A : Type) :=
| Returned (a : A)
| Raised (e : exn)
| UnpackError
| StillPlaying (a : A).
Arguments Returned {A} a.
Arguments Raised {A} e.
Arguments UnpackError {A}.
Arguments StillPlaying {A} a.

(** The game object and the local variables [state] and [roll_count]
    of [play]. *)
Record play_state := {
  pl_game : GameState;
  pl_state : list Z;
  pl_roll_count : nat
}.

(** The [while not game_over] loop of [play]; [rngs k] is the random
    source of the [k]-th roll of the game. *)
Fixpoint play_loop (g : DiceGame) (policy : policy_map) (rngs : nat -> nat -> nat)
    (fuel : nat) (pl : play_state) : outcome play_state :=
  match fuel with
  | O => StillPlaying pl
  | S fuel' =>
      let roll_count := S (pl_roll_count pl) in
      match get_action policy (pl_state pl) with
      | Raise e => Raised e
      | Ok action =>
          match roll g (rngs roll_count) (pl_game pl) action with
          | Raise e => Raised e
          | Ok (_, bare_zero) => UnpackError
          | Ok (st', state_and_flag state over) =>
              let pl' := {| pl_game := st'; pl_state := state;
                            pl_roll_count := roll_count |} in
              if over then Returned pl' else play_loop g policy rngs fuel' pl'
          end
      end
  end.

(** [play], without its printing: [game.reset()], the loop, and
    [game.score] when the loop has ended. *)
Definition play (g : DiceGame) (policy : policy_map) (rngs : nat -> nat -> nat)
    (fuel : nat) : outcome number :=
  match reset g (rngs 0%nat) with
  | Raise e => Raised e
  | Ok (st, state) =>
      match play_loop g policy rngs fuel
              {| pl_game := st; pl_state := state; pl_roll_count := 0 |} with
      | Returned pl => Returned (score (pl_game pl))
      | Raised e => Raised e
      | UnpackError => UnpackError
      | StillPlaying pl => StillPlaying (score (pl_game pl))
      end
  end.

End Play.
Export Play.

(** ** The vocabulary of the invariants *)

Module Invariants.

(** The face a die shows after [__flip_duplicates]: the opposite face
    when its value occurs more than once among the dice [s]. *)
Definition flip_face (g : DiceGame) (s : list Z) (x : Z) : Z :=
  if bool_decide (1 < occurrences s x)%nat then opposite g x else x.

(** A dict with an entry for every state of the game. *)
Definition total_on {V} (g : DiceGame) (d : gmap (list Z) V) : Prop :=
  forall s, s ∈ states g -> is_Some (d !! s).

(** A policy that gives every state of the game one of its actions. *)
Definition policy_valid (g : DiceGame) (policy : policy_map) : Prop :=
  forall s, s ∈ states g -> exists a, policy !! s = Some a /\ a ∈ actions g.

(** What the Bellman loop reads of a transition: nothing but [v[state]]
    when the game is over, and otherwise one probability per next
    state, each next state being a state of the game. *)
Definition transition_closed (g : DiceGame) (ns : next_states) : Prop :=
  is_over ns = true
  \/ (length (possible_states ns) = length (probabilities ns)
      /\ forall o, o ∈ possible_states ns -> exists s', o = Some s' /\ s' ∈ states g).

(** The policy that holds the one die of the games [game_1_2] and
    [game_0_2] in every state. *)
Definition hold_policy (a b : Z) : policy_map :=
  <[ [a] := [0%nat] ]> (<[ [b] := [0%nat] ]> ∅).

End Invariants.
Export Invariants.

(** ** Wrap-around arithmetic *)

Lemma wrap_id w z : 0 < w -> in_range w z -> wrap w z = z.
Proof.
  intros Hw [Hlo Hhi]. unfold wrap.
  assert (E : 2 ^ w = 2 * 2 ^ (w - 1)).
  { replace w with (Z.succ (w - 1)) at 1 by lia.
    rewrite Z.pow_succ_r by lia. reflexivity. }
  rewrite Z.mod_small by lia. lia.
Qed.

Lemma wrap_in_range w z : 0 < w -> in_range w (wrap w z).
Proof.
  intros Hw. unfold wrap, in_range.
  assert (E : 2 ^ w = 2 * 2 ^ (w - 1)).
  { replace w with (Z.succ (w - 1)) at 1 by lia.
    rewrite Z.pow_succ_r by lia. reflexivity. }
  assert (P : 0 < 2 ^ (w - 1)) by (apply Z.pow_pos_nonneg; lia).
  pose proof (Z.mod_pos_bound (z + 2 ^ (w - 1)) (2 ^ w) ltac:(lia)). lia.
Qed.

(** Wrapping is a congruence modulo [2 ^ w]: an inner wrap is absorbed
    by an outer one. *)
Lemma wrap_add_l w a b : 0 < w -> wrap w (wrap w a + b) = wrap w (a + b).
Proof.
  intros Hw. unfold wrap. f_equal.
  replace ((a + 2 ^ (w - 1)) mod 2 ^ w - 2 ^ (w - 1) + b + 2 ^ (w - 1))
    with ((a + 2 ^ (w - 1)) mod 2 ^ w + b) by lia.
  rewrite Zplus_mod_idemp_l. f_equal. lia.
Qed.

Lemma wrap_add_r w a b : 0 < w -> wrap w (a + wrap w b) = wrap w (a + b).
Proof.
  intros Hw. rewrite (Z.add_comm a), wrap_add_l by done.
  f_equal. lia.
Qed.

Lemma wrap_idem w a : 0 < w -> wrap w (wrap w a) = wrap w a.
Proof.
  intros Hw. replace (wrap w a) with (wrap w a + 0) at 1 by lia.
  rewrite wrap_add_l by done. f_equal. lia.
Qed.

(** ** Exceptions *)

Lemma bind_ok {A B} (m : result A) (k : A -> result B) b :
  Exn.bind m k = Ok b <-> exists a, m = Ok a /\ k a = Ok b.
Proof.
  destruct m as [a | e]; simpl; split.
  - intros H. by exists a.
  - by intros (a' & [= ->] & H).
  - done.
  - by intros (a' & [=] & _).
Qed.

Lemma map_result_ok {A B} (f : A -> result B) (xs : list A) :
  Forall (fun x => is_ok (f x)) xs ->
  exists ys, map_result f xs = Ok ys /\ Forall2 (fun x y => f x = Ok y) xs ys.
Proof.
  induction 1 as [|x xs Hx _ (ys & E & F)].
  - exists []. split; [done | constructor].
  - destruct (f x) as [y | e] eqn:Ey; [| done].
    exists (y :: ys). simpl. rewrite Ey. simpl. rewrite E. simpl.
    split; [done |]. by constructor.
Qed.

Lemma map_result_map {A B} (f : A -> result B) (h : A -> B) xs :
  Forall (fun x => f x = Ok (h x)) xs -> map_result f xs = Ok (map h xs).
Proof.
  induction 1 as [|x xs Hx _ IH]; [done |]. simpl. by rewrite Hx, IH.
Qed.

Lemma map_result_raise {A B} (f : A -> result B) (e0 : exn) xs e :
  (forall x e', f x = Raise e' -> e' = e0) ->
  map_result f xs = Raise e -> e = e0.
Proof.
  intros Hf. induction xs as [|x xs IH]; simpl; [done |].
  destruct (f x) as [y | e'] eqn:Ex; simpl.
  - destruct (map_result f xs) as [ys | e'']; simpl; [done |].
    intros [= <-]. by apply IH.
  - intros [= <-]. by eapply Hf.
Qed.

(** ** Enumerations *)

Section Combinatorics.
Context {A : Type}.

Lemma cwr_zero (pool : list A) : combinations_with_replacement pool 0 = [[]].
Proof. destruct pool; reflexivity. Qed.

Lemma cwr_nil_succ (r : nat) : combinations_with_replacement (@nil A) (S r) = [].
Proof. reflexivity. Qed.

Lemma cwr_cons_succ (x : A) rest r :
  combinations_with_replacement (x :: rest) (S r)
  = map (cons x) (combinations_with_replacement (x :: rest) r)
    ++ combinations_with_replacement rest (S r).
Proof. reflexivity. Qed.

Lemma cwr_elem (pool : list A) : forall r s,
  s ∈ combinations_with_replacement pool r -> length s = r /\ Forall (fun x => x ∈ pool) s.
Proof.
  induction pool as [|x rest IH]; intros r.
  - destruct r; intros s Hs.
    + apply list_elem_of_singleton in Hs as ->. split; [done | constructor].
    + rewrite cwr_nil_succ in Hs. by apply not_elem_of_nil in Hs.
  - induction r as [|r IHr]; intros s Hs.
    + rewrite cwr_zero in Hs. apply list_elem_of_singleton in Hs as ->.
      split; [done | constructor].
    + rewrite cwr_cons_succ in Hs. apply elem_of_app in Hs as [Hs | Hs].
      * apply list_elem_of_fmap in Hs as (t & -> & Ht).
        destruct (IHr _ Ht) as [Hl Hf]. split; [simpl; lia |].
        constructor; [left | done].
      * destruct (IH _ _ Hs) as [Hl Hf]. split; [done |].
        eapply Forall_impl; [exact Hf |]. intros y Hy. by right.
Qed.

End Combinatorics.

Lemma cwr_map {A B} (f : A -> B) (pool : list A) : forall k,
  combinations_with_replacement (map f pool) k
  = map (map f) (combinations_with_replacement pool k).
Proof.
  induction pool as [|x pool IH]; intros k.
  - by destruct k.
  - induction k as [|k IHk]; [done |].
    change (map f (x :: pool)) with (f x :: map f pool).
    rewrite !cwr_cons_succ, map_app, IH. f_equal.
    change (f x :: map f pool) with (map f (x :: pool)).
    rewrite IHk, !map_map. done.
Qed.

(** Over an ascending pool the enumeration lists the non-decreasing
    tuples, each once. *)
Lemma cwr_ascending (pool : list Z) :
  StronglySorted Z.lt pool ->
  forall k,
    NoDup (combinations_with_replacement pool k)
    /\ forall r, r ∈ combinations_with_replacement pool k
                 <-> length r = k /\ Forall (fun x => x ∈ pool) r /\ Sorted Z.le r.
Proof.
  induction 1 as [|x pool Hs IH Hx]; intros k.
  - destruct k; simpl.
    + split; [apply NoDup_singleton |]. intros r. rewrite list_elem_of_singleton.
      split.
      * intros ->. repeat split; constructor.
      * intros (Hl & _ & _). by destruct r.
    + split; [constructor |]. intros r. split.
      * intros H. by apply not_elem_of_nil in H.
      * intros (Hl & Hf & _). destruct r as [|y r]; [done |].
        inversion Hf as [|? ? Hy _]; subst. by apply not_elem_of_nil in Hy.
  - rewrite Forall_forall in Hx.
    induction k as [|k [IHnd IHk]].
    + rewrite cwr_zero. split; [apply NoDup_singleton |].
      intros r. rewrite list_elem_of_singleton. split.
      * intros ->. repeat split; constructor.
      * intros (Hl & _ & _). by destruct r.
    + rewrite cwr_cons_succ. destruct (IH (S k)) as [IHnd' IHr]. split.
      * apply NoDup_app. split; [| split; [| done]].
        -- apply (NoDup_fmap_2 _). done.
        -- intros r Hr1 Hr2. apply list_elem_of_fmap in Hr1 as (t & -> & _).
           apply IHr in Hr2 as (_ & Hf & _).
           inversion Hf as [|? ? Hxp _]; subst.
           specialize (Hx x Hxp). lia.
      * intros r. rewrite elem_of_app, list_elem_of_fmap. split.
        -- intros [(t & -> & Ht) | Hr].
           ++ apply IHk in Ht as (Hl & Hf & Hsorted).
              split; [simpl; lia |]. split; [constructor; [by left | done] |].
              constructor; [done |].
              destruct t as [|y t]; constructor.
              inversion Hf as [|? ? Hy _]; subst.
              apply elem_of_cons in Hy as [-> | Hy]; [lia |].
              specialize (Hx y Hy). lia.
           ++ apply IHr in Hr as (Hl & Hf & Hsorted).
              split; [done |]. split; [| done].
              eapply Forall_impl; [exact Hf |]. intros y Hy. by right.
        -- intros (Hl & Hf & Hsorted).
           destruct r as [|y r]; [done |].
           inversion Hf as [|? ? Hy Hf']; subst.
           apply Sorted_StronglySorted in Hsorted; [| intros ? ? ?; lia].
           inversion Hsorted as [|? ? Hsorted' Hle]; subst.
           rewrite Forall_forall in Hle.
           apply elem_of_cons in Hy as [-> | Hy].
           ++ left. exists r. split; [done |]. apply IHk.
              split; [simpl in Hl; lia |]. split; [done |].
              by apply StronglySorted_Sorted.
           ++ right. apply IHr. split; [done |]. split.
              ** constructor; [done |].
                 apply Forall_forall. intros z Hz.
                 rewrite Forall_forall in Hf'.
                 specialize (Hf' z Hz). apply elem_of_cons in Hf' as [-> | Hz']; [| done].
                 specialize (Hle x Hz). specialize (Hx y Hy). lia.
              ** apply StronglySorted_Sorted. by constructor; [| apply Forall_forall].
Qed.

Lemma combinations_all {A} (l : list A) : l ∈ combinations l (length l).
Proof.
  induction l as [|x l IH]; simpl.
  - by left.
  - apply elem_of_app. left. by apply list_elem_of_fmap_2.
Qed.

Lemma combinations_sublist {A} (pool : list A) : forall r a,
  a ∈ combinations pool r -> a `sublist_of` pool.
Proof.
  induction pool as [|x pool IH]; intros [|r] a; simpl; intros H.
  - apply list_elem_of_singleton in H as ->. constructor.
  - by apply not_elem_of_nil in H.
  - apply list_elem_of_singleton in H as ->. apply sublist_nil_l.
  - apply elem_of_app in H as [H | H].
    + apply list_elem_of_fmap in H as (t & -> & Ht). apply sublist_skip. by eapply IH.
    + apply sublist_cons. by eapply IH.
Qed.

(** ** The opposite-face dict and [np.unique] *)

Lemma dict_of_pairs_is_Some l : forall d x,
  is_Some (dict_of_pairs d l !! x) <-> x ∈ l.*1 \/ is_Some (d !! x).
Proof.
  induction l as [|[k v] l IH]; intros d x; simpl.
  - split; [by right | intros [H | H]; [by apply not_elem_of_nil in H | done]].
  - unfold dict_of_pairs in *. simpl. rewrite IH, elem_of_cons. simpl.
    destruct (decide (k = x)) as [-> | Hne].
    + rewrite lookup_insert_eq. split; [intros _; by left; left | intros _; right; eauto].
    + rewrite lookup_insert_ne by done. split; intros [H | H]; auto.
      destruct H as [-> | H]; [done | auto].
Qed.

Lemma opposite_sides_is_Some g x :
  x ∈ values g -> is_Some (opposite_sides g !! x).
Proof.
  intros Hx. apply (dict_of_pairs_is_Some _ ∅ x). left.
  rewrite fst_zip; [done |]. rewrite length_reverse. lia.
Qed.

Lemma run_lengths_elem xs : forall x c, (x, c) ∈ run_lengths xs -> x ∈ xs.
Proof.
  induction xs as [|y xs IH]; intros x c; simpl.
  - intros H. by apply not_elem_of_nil in H.
  - destruct (run_lengths xs) as [|[z k] runs] eqn:E.
    + intros H. apply list_elem_of_singleton in H as [= -> ->]. by left.
    + destruct (decide (y = z)) as [-> | Hne]; intros H.
      * apply elem_of_cons in H as [[= -> ->] | H].
        -- by left.
        -- right. apply (IH x c). by right.
      * apply elem_of_cons in H as [[= -> ->] | H]; [by left |].
        right. by apply (IH x c).
Qed.

Lemma np_unique_elem xs x c : (x, c) ∈ np_unique xs -> x ∈ xs.
Proof.
  intros H. apply run_lengths_elem in H. unfold np_sort in H.
  by rewrite merge_sort_Permutation in H.
Qed.

Lemma state_values g state x :
  state ∈ states g -> x ∈ state -> x ∈ values g.
Proof.
  intros Hs Hx. apply cwr_elem in Hs as [_ Hf].
  rewrite Forall_forall in Hf. by apply Hf.
Qed.

Lemma dict_of_pairs_lookup l : forall d x v,
  dict_of_pairs d l !! x = Some v -> (x, v) ∈ l \/ d !! x = Some v.
Proof.
  induction l as [|[k w] l IH]; intros d x v; simpl; [by right |].
  unfold dict_of_pairs in *. simpl. intros H. apply IH in H as [H | H].
  - left. by right.
  - destruct (decide (k = x)) as [-> | Hne].
    + rewrite lookup_insert_eq in H. injection H as ->. left. by left.
    + rewrite lookup_insert_ne in H by done. by right.
Qed.

Lemma opposite_sides_value g x v :
  opposite_sides g !! x = Some v -> v ∈ values g.
Proof.
  intros H. apply (dict_of_pairs_lookup _ ∅) in H as [H | H]; [| done].
  apply elem_of_zip_r in H. by rewrite elem_of_reverse in H.
Qed.

Lemma occurrences_cons_eq s x : occurrences (x :: s) x = S (occurrences s x).
Proof. unfold occurrences. by rewrite count_occ_cons_eq. Qed.

Lemma occurrences_cons_ne s x y : x <> y -> occurrences (x :: s) y = occurrences s y.
Proof. intros H. unfold occurrences. by rewrite count_occ_cons_neq. Qed.

Lemma occurrences_zero s x : x ∉ s -> occurrences s x = 0%nat.
Proof.
  intros H. apply count_occ_not_In. by rewrite <- list_elem_of_In.
Qed.

Lemma occurrences_pos s x : x ∈ s -> (0 < occurrences s x)%nat.
Proof. intros H. apply count_occ_In. by rewrite <- list_elem_of_In. Qed.

Lemma occurrences_Permutation s t x : s ≡ₚ t -> occurrences s x = occurrences t x.
Proof. intros H. unfold occurrences. by apply Permutation_count_occ. Qed.

Lemma elem_of_fst {A B} (l : list (A * B)) x c : (x, c) ∈ l -> x ∈ map fst l.
Proof. intros H. by apply (list_elem_of_fmap_2' fst _ (x, c)). Qed.

(** The runs of an ascending list: ascending distinct values, each with
    its number of occurrences. *)
Lemma run_lengths_sorted xs :
  StronglySorted Z.le xs ->
  StronglySorted Z.lt (map fst (run_lengths xs))
  /\ (forall x c, (x, c) ∈ run_lengths xs -> c = occurrences xs x)
  /\ (forall x, x ∈ xs -> x ∈ map fst (run_lengths xs))
  /\ (forall x, x ∈ map fst (run_lengths xs) -> x ∈ xs).
Proof.
  induction 1 as [|x xs Hs IH Hx]; simpl.
  - repeat split; [constructor | | done | done].
    intros x c H. by apply not_elem_of_nil in H.
  - destruct IH as (Hsorted & Hcount & Hin & Hout).
    rewrite Forall_forall in Hx.
    destruct (run_lengths xs) as [|[y c] runs] eqn:E; simpl in *.
    + assert (xs = []) as ->.
      { destruct xs as [|z xs]; [done |].
        specialize (Hin z ltac:(by left)). by apply not_elem_of_nil in Hin. }
      repeat split.
      * repeat constructor.
      * intros z c H. apply list_elem_of_singleton in H as [= -> ->].
        by rewrite occurrences_cons_eq.
      * intros z H. apply list_elem_of_singleton in H as ->. by left.
      * intros z H. apply list_elem_of_singleton in H as ->. by left.
    + assert (Hy : y ∈ xs) by (apply Hout; by left).
      inversion Hsorted as [|? ? Hruns Hlt]; subst.
      rewrite Forall_forall in Hlt.
      destruct (decide (x = y)) as [-> | Hne]; simpl.
      * repeat split.
        -- done.
        -- intros z k H. apply elem_of_cons in H as [[= -> ->] | H].
           ++ rewrite occurrences_cons_eq. f_equal. apply Hcount. by left.
           ++ rewrite occurrences_cons_ne; [apply Hcount; by right |].
              assert (y < z); [| lia].
              apply Hlt. by apply (elem_of_fst _ z k).
        -- intros z H. apply elem_of_cons in H as [-> | H]; [by left | by apply Hin].
        -- intros z H. right. by apply Hout.
      * assert (Hxy : x < y) by (specialize (Hx y Hy); lia).
        assert (Hfresh : x ∉ xs).
        { intros H. apply Hin in H. apply elem_of_cons in H as [-> | H]; [done |].
          specialize (Hlt x H). lia. }
        repeat split.
        -- constructor; [done |]. constructor; [done |].
           apply Forall_forall. intros z Hz. specialize (Hlt z Hz). lia.
        -- intros z k H. apply elem_of_cons in H as [[= -> ->] | H].
           ++ rewrite occurrences_cons_eq. by rewrite occurrences_zero.
           ++ rewrite occurrences_cons_ne; [by apply Hcount |].
              intros ->. apply Hfresh, Hout.
              exact (elem_of_fst _ z k H).
        -- intros z H. apply elem_of_cons in H as [-> | H]; [by left |].
           right. by apply Hin.
        -- intros z H. apply elem_of_cons in H as [-> | H]; [by left |].
           right. by apply Hout.
Qed.

Lemma StronglySorted_lt_NoDup (l : list Z) : StronglySorted Z.lt l -> NoDup l.
Proof.
  induction 1 as [|x l _ IH Hx]; constructor; [| done].
  intros H. rewrite Forall_forall in Hx. specialize (Hx x H). lia.
Qed.

(** [np.unique] lists the distinct values of the array, each with its
    number of occurrences. *)
Lemma np_unique_spec s :
  let u := map fst (np_unique s) in
  NoDup u
  /\ u ≡ₚ remove_dups s
  /\ np_unique s = map (fun x => (x, occurrences s x)) u.
Proof.
  intros u. unfold np_unique, np_sort in *.
  assert (Hperm : merge_sort Z.le s ≡ₚ s) by apply merge_sort_Permutation.
  destruct (run_lengths_sorted (merge_sort Z.le s))
    as (Hsorted & Hcount & Hin & Hout).
  { apply StronglySorted_merge_sort; apply _. }
  assert (Hnd : NoDup u) by by apply StronglySorted_lt_NoDup.
  split; [done |]. split.
  - apply NoDup_Permutation; [done | apply NoDup_remove_dups |].
    intros x. rewrite elem_of_remove_dups, <- Hperm. split; auto.
  - subst u. clear Hnd Hsorted Hin Hout.
    induction (run_lengths (merge_sort Z.le s)) as [|[x c] runs IH]; [done |].
    simpl. f_equal.
    + f_equal. rewrite (Hcount x c) by by left.
      by apply occurrences_Permutation.
    + apply IH. intros y k H. apply Hcount. by right.
Qed.

#[export] Instance Zsum_Permutation : Proper ((≡ₚ) ==> (=)) Zsum.
Proof. induction 1; simpl; lia. Qed.

Lemma np_sum_from acc xs :
  foldl (fun a x => int64 (a + x)) (int64 acc) xs = int64 (acc + Zsum xs).
Proof.
  revert acc. induction xs as [|x xs IH]; intros acc; simpl.
  - f_equal. lia.
  - unfold int64 at 2. rewrite wrap_add_l by lia. fold int64.
    rewrite IH. f_equal. lia.
Qed.

Lemma np_sum_exact xs : np_sum xs = int64 (Zsum xs).
Proof. unfold np_sum. change 0 with (int64 0) at 1. by rewrite np_sum_from. Qed.

Lemma int64_Zsum_map xs : int64 (Zsum (map int64 xs)) = int64 (Zsum xs).
Proof.
  induction xs as [|x xs IH]; [done |]. simpl.
  unfold int64 in *. rewrite wrap_add_l by lia.
  rewrite <- wrap_add_r, IH, wrap_add_r by lia. done.
Qed.

Lemma dict_of_pairs_lookup_NoDup l : forall d k v,
  NoDup l.*1 -> (k, v) ∈ l -> dict_of_pairs d l !! k = Some v.
Proof.
  induction l as [|[k' v'] l IH]; intros d k v Hnd H.
  - by apply not_elem_of_nil in H.
  - simpl in Hnd. apply NoDup_cons in Hnd as [Hk Hnd].
    apply elem_of_cons in H as [[= -> ->] | H].
    + change (dict_of_pairs (<[k' := v']> d) l !! k' = Some v').
      destruct (dict_of_pairs (<[k':=v']> d) l !! k') as [w |] eqn:E.
      * apply dict_of_pairs_lookup in E as [E | E].
        -- exfalso. apply Hk. by apply (elem_of_fst _ k' w).
        -- by rewrite lookup_insert_eq in E.
      * assert (is_Some (dict_of_pairs (<[k':=v']> d) l !! k')) as [w Hw].
        { apply dict_of_pairs_is_Some. right. rewrite lookup_insert_eq. eauto. }
        congruence.
    + by apply IH.
Qed.

Lemma opposite_sides_lookup g i v :
  length (values g) = sides g -> NoDup (values g) ->
  values g !! i = Some v ->
  exists o, values g !! (sides g - 1 - i)%nat = Some o
            /\ opposite g v = o /\ opposite_sides g !! v = Some o.
Proof.
  intros Hlen Hnd Hi.
  assert (Hlt : (i < length (values g))%nat) by by eapply lookup_lt_Some.
  destruct (lookup_lt_is_Some_2 (values g) (sides g - 1 - i)%nat) as [o Ho]; [lia |].
  exists o. split; [done |]. split.
  - unfold opposite.
    destruct (list_find (fun x => x = v) (values g)) as [[j w] |] eqn:E.
    + apply list_find_Some in E as (Hj & -> & _).
      assert (j = i) as -> by by eapply NoDup_lookup.
      by rewrite Ho.
    + apply list_find_None in E. rewrite Forall_forall in E.
      exfalso. apply (E v); [by eapply list_elem_of_lookup_2 | done].
  - apply dict_of_pairs_lookup_NoDup.
    + rewrite fst_zip; [done |]. rewrite length_reverse. lia.
    + apply elem_of_lookup_zip_with. exists i, v, o.
      split; [done |]. split; [done |].
      rewrite reverse_lookup by done.
      rewrite <- Ho. f_equal. lia.
Qed.

(** ** The final score *)

Lemma final_score_ok g state :
  state ∈ states g -> is_ok (final_score g state).
Proof.
  intros Hs. unfold final_score.
  set (more := filter _ (np_unique state)).
  destruct (map_result_ok
              (fun uc : Z * nat => lookup_or KeyError (opposite_sides g !! uc.1)) more)
    as (flipped & E & _).
  - apply Forall_forall. intros [x c] Hx.
    apply list_elem_of_filter in Hx as [_ Hx]. apply np_unique_elem in Hx.
    destruct (opposite_sides_is_Some g x) as [o Ho].
    + by eapply state_values.
    + simpl. by rewrite Ho.
  - rewrite E. done.
Qed.

Lemma filter_tagged {A B} (f : A -> B) (P : B -> Prop) `{!forall b, Decision (P b)}
    (u : list A) :
  filter (fun xc : A * B => P xc.2) (map (fun x => (x, f x)) u)
  = map (fun x => (x, f x)) (filter (fun x => P (f x)) u).
Proof.
  induction u as [|x u IH]; [done |]. simpl.
  rewrite !filter_cons. simpl. destruct (decide (P (f x))); simpl; by rewrite IH.
Qed.

Lemma zip_with_map_map {A B C D} (f : B -> C -> D) (a : A -> B) (b : A -> C) l :
  zip_with f (map a l) (map b l) = map (fun x => f (a x) (b x)) l.
Proof. induction l as [|x l IH]; [done |]. simpl. by rewrite IH. Qed.

Lemma score_terms g s u :
  Zsum (filter (fun v => occurrences s v = 1%nat) u)
  + Zsum (map (fun v => opposite g v * Z.of_nat (occurrences s v))
            (filter (fun v => (1 < occurrences s v)%nat) u))
  = Zsum (map (score_term g s) u).
Proof.
  induction u as [|x u IH]; [done |]. rewrite !filter_cons. simpl.
  unfold score_term at 1.
  destruct (decide (occurrences s x = 1%nat)) as [E | E].
  - rewrite decide_False by lia. simpl. lia.
  - destruct (decide (1 < occurrences s x)%nat); simpl; lia.
Qed.

Lemma indicator_sum (u : list Z) y :
  NoDup u -> 0 <= Zsum (map (fun x => if decide (y = x) then 1 else 0) u) <= 1.
Proof.
  induction 1 as [|x u Hx _ IH]; simpl; [lia |].
  destruct (decide (y = x)) as [-> | _]; [| lia].
  assert (Zsum (map (fun x0 => if decide (x = x0) then 1 else 0) u) = 0); [| lia].
  clear IH. induction u as [|z u IH]; [done |]. simpl.
  rewrite decide_False by (intros ->; apply Hx; by left).
  rewrite IH; [done |]. intros H. apply Hx. by right.
Qed.

Lemma occurrences_sum (u s : list Z) :
  NoDup u -> Zsum (map (fun x => Z.of_nat (occurrences s x)) u) <= Z.of_nat (length s).
Proof.
  intros Hnd. induction s as [|y s IH]; simpl.
  - assert (Zsum (map (fun x => Z.of_nat (occurrences [] x)) u) = 0); [| lia].
    induction u as [|x u IHu]; [done |]. simpl.
    apply NoDup_cons in Hnd as [_ Hnd]. rewrite IHu by done. done.
  - pose proof (indicator_sum u y Hnd) as Hy.
    assert (Zsum (map (fun x => Z.of_nat (occurrences (y :: s) x)) u)
            = Zsum (map (fun x => if decide (y = x) then 1 else 0) u)
              + Zsum (map (fun x => Z.of_nat (occurrences s x)) u)); [| lia].
    clear. induction u as [|x u IHu]; [done |]. simpl. rewrite IHu.
    destruct (decide (y = x)) as [-> | Hne].
    + rewrite occurrences_cons_eq. lia.
    + rewrite occurrences_cons_ne by done. lia.
Qed.

Lemma Zsum_bound (f b : Z -> Z) u :
  Forall (fun x => Z.abs (f x) <= b x) u ->
  Z.abs (Zsum (map f u)) <= Zsum (map b u).
Proof. induction 1; simpl; lia. Qed.

Lemma Zsum_scale c (f : Z -> Z) u :
  Zsum (map (fun x => c * f x) u) = c * Zsum (map f u).
Proof. induction u as [|x u IH]; simpl; [lia | rewrite IH; lia]. Qed.

Lemma opposite_in_values g v :
  length (values g) = sides g -> NoDup (values g) -> v ∈ values g ->
  opposite g v ∈ values g /\ opposite_sides g !! v = Some (opposite g v).
Proof.
  intros Hlen Hnd Hv. apply list_elem_of_lookup_1 in Hv as [i Hi].
  destruct (opposite_sides_lookup g i v Hlen Hnd Hi) as (o & Ho & -> & Hd).
  split; [by eapply list_elem_of_lookup_2 | done].
Qed.

Lemma score_term_bound g s v :
  length (values g) = sides g -> NoDup (values g) ->
  Forall (in_range 32) (values g) -> v ∈ values g ->
  Z.abs (score_term g s v) <= 2 ^ 31 * Z.of_nat (occurrences s v).
Proof.
  intros Hlen Hnd Hr Hv. rewrite Forall_forall in Hr.
  destruct (opposite_in_values g v Hlen Hnd Hv) as [Ho _].
  pose proof (Hr _ Hv) as [H1 H2]. pose proof (Hr _ Ho) as [H3 H4].
  simpl in *. unfold score_term.
  destruct (decide (occurrences s v = 1%nat)) as [-> | _]; [lia |].
  destruct (decide (1 < occurrences s v)%nat); [nia | lia].
Qed.

Lemma int64_sum_sum a l :
  int64 (int64 a + int64 (Zsum (map int64 l))) = int64 (a + Zsum l).
Proof.
  pose proof (int64_Zsum_map l) as H. unfold int64 in *.
  rewrite wrap_add_l, wrap_add_r by lia.
  rewrite <- wrap_add_r, H, wrap_add_r by lia. done.
Qed.

Lemma final_score_correct g s :
  length (values g) = sides g -> NoDup (values g) ->
  Forall (in_range 32) (values g) -> Z.of_nat (dice g) < 2 ^ 31 ->
  s ∈ states g ->
  final_score g s = Ok (final_score_spec g s).
Proof.
  intros Hlen Hnd Hr Hd Hs.
  destruct (np_unique_spec s) as (Hu & Hperm & Huniq).
  set (u := map fst (np_unique s)) in *.
  assert (Hsub : forall x, x ∈ u -> x ∈ values g).
  { intros x Hx. rewrite Hperm, elem_of_remove_dups in Hx.
    by eapply state_values. }
  unfold final_score. rewrite Huniq.
  pose proof (filter_tagged (occurrences s) (fun c => c = 1%nat) u) as HA.
  pose proof (filter_tagged (occurrences s) (fun c => (1 < c)%nat) u) as HB.
  cbv beta in HA, HB. rewrite HA, HB. clear HA HB.
  set (A := filter (fun x => occurrences s x = 1%nat) u).
  set (B := filter (fun x => (1 < occurrences s x)%nat) u).
  rewrite (map_result_map _ (fun uc => opposite g uc.1)).
  2:{ apply Forall_forall. intros [x c] Hx.
      apply list_elem_of_fmap in Hx as (y & [= -> ->] & Hy).
      apply list_elem_of_filter in Hy as [_ Hy]. simpl.
      destruct (opposite_in_values g y Hlen Hnd (Hsub _ Hy)) as [_ ->]. done. }
  simpl. f_equal.
  rewrite !map_map. simpl. rewrite map_id.
  rewrite (zip_with_map_map _ (fun x => opposite g x) (fun x => (x, occurrences s x))).
  simpl. rewrite !np_sum_exact.
  replace (map (fun x => int64 (opposite g x * Z.of_nat (occurrences s x))) B)
    with (map int64 (map (fun x => opposite g x * Z.of_nat (occurrences s x)) B))
    by by rewrite map_map.
  rewrite int64_sum_sum. unfold int64.
  subst A B. rewrite score_terms.
  unfold final_score_spec. rewrite score_terms, <- Hperm.
  apply wrap_id; [lia |].
  pose proof (Zsum_bound (score_term g s)
                (fun x => 2 ^ 31 * Z.of_nat (occurrences s x)) u) as Hb.
  rewrite Zsum_scale in Hb.
  pose proof (occurrences_sum u s Hu) as Ho.
  apply cwr_elem in Hs as [Hl _].
  unfold in_range. simpl.
  assert (Z.abs (Zsum (map (score_term g s) u))
          <= 2 ^ 31 * Zsum (map (fun x => Z.of_nat (occurrences s x)) u)).
  { apply Hb, Forall_forall. intros x Hx. apply score_term_bound; auto. }
  nia.
Qed.

(** ** The transition model *)

Lemma hold_all_in_actions g : seq 0 (dice g) ∈ actions g.
Proof.
  unfold actions. destruct (dice g) as [|d] eqn:E.
  - by left.
  - right. apply list_elem_of_In, in_concat.
    exists (combinations (seq 0 (S d)) (S d)). split.
    + apply list_elem_of_In, (list_elem_of_fmap_2' _ _ (S d)); [| done].
      apply elem_of_seq. lia.
    + apply list_elem_of_In.
      pose proof (combinations_all (seq 0 (S d))) as H.
      by rewrite length_seq in H.
Qed.

Lemma action_sublist g a : a ∈ actions g -> a `sublist_of` seq 0 (dice g).
Proof.
  unfold actions. intros H. apply elem_of_cons in H as [-> | H].
  - apply sublist_nil_l.
  - apply list_elem_of_In, in_concat in H as (l & Hl & H).
    apply in_map_iff in Hl as (r & <- & _).
    apply list_elem_of_In in H. by eapply combinations_sublist.
Qed.

Lemma np_select_held (s : list Z) : forall n (a : list nat),
  a `sublist_of` seq n (length s) ->
  np_select (map (fun i => bool_decide (i ∈ a)) (seq n (length s))) s
  = map (fun i => nth (i - n) s 0) a.
Proof.
  induction s as [|x s IH]; intros n a Ha; cbn [length seq map np_select] in *.
  - apply sublist_nil_r in Ha as ->. done.
  - assert (Hge : forall b, b `sublist_of` seq (S n) (length s) ->
                  Forall (fun i => (S n <= i)%nat) b).
    { intros b Hb. apply Forall_forall. intros i Hi.
      eapply elem_of_sublist in Hi; [| exact Hb]. apply elem_of_seq in Hi. lia. }
    apply sublist_cons_r in Ha as [Ha | (a' & -> & Ha)].
    + pose proof (Hge a Ha) as Hall. rewrite Forall_forall in Hall.
      rewrite bool_decide_eq_false_2.
      2:{ intros H. specialize (Hall n H). lia. }
      rewrite IH by done. apply map_ext_in. intros i Hi.
      apply list_elem_of_In in Hi. specialize (Hall i Hi).
      replace (i - n)%nat with (S (i - S n)) by lia. done.
    + pose proof (Hge a' Ha) as Hall. rewrite Forall_forall in Hall.
      rewrite bool_decide_eq_true_2 by by left.
      assert (Hmask : map (fun i => bool_decide (i ∈ n :: a')) (seq (S n) (length s))
                      = map (fun i => bool_decide (i ∈ a')) (seq (S n) (length s))).
      { apply map_ext_in. intros i Hi. apply in_seq in Hi.
        apply bool_decide_ext. rewrite elem_of_cons. split; [| by right].
        intros [-> | H]; [lia | done]. }
      rewrite Hmask, (IH (S n) a' Ha). cbn [map].
      replace (n - n)%nat with 0%nat by lia. cbn [nth]. f_equal.
      apply map_ext_in. intros i Hi.
      apply list_elem_of_In in Hi. specialize (Hall i Hi).
      replace (i - n)%nat with (S (i - S n)) by lia. done.
Qed.

Lemma map_intc_id g (r : list Z) :
  Forall (in_range 32) (values g) -> Forall (fun x => x ∈ values g) r ->
  map intc r = r.
Proof.
  intros Hr. induction 1 as [|x r Hx _ IH]; [done |]. simpl. rewrite IH. f_equal.
  rewrite Forall_forall in Hr. unfold intc. apply wrap_id; [lia | by apply Hr].
Qed.

Lemma values_by_position g :
  length (values g) = sides g ->
  values g = map (fun j => nth j (values g) 0) (seq 0 (sides g)).
Proof.
  intros <-. apply list_eq. intros i.
  change (values g !! i = ((fun j => nth j (values g) 0) <$> seq 0 (length (values g))) !! i).
  rewrite list_lookup_fmap.
  destruct (decide (i < length (values g))%nat) as [Hi | Hi].
  - rewrite lookup_seq_lt by done. simpl.
    destruct (lookup_lt_is_Some_2 (values g) i Hi) as [x Hx].
    rewrite Hx. f_equal. symmetry. by apply nth_lookup_Some.
  - rewrite lookup_seq_ge by lia. simpl. apply lookup_ge_None_2. lia.
Qed.

Lemma np_bincount_counts n idx :
  Forall (fun i => (i < n)%nat) idx ->
  np_bincount n idx = map (fun j => count_occ Nat.eq_dec idx j) (seq 0 n).
Proof.
  intros H. unfold np_bincount. destruct idx as [|i idx]; [done |].
  assert (list_max (i :: idx) < n)%nat as Hm.
  { apply list_max_lt; [done | exact H]. }
  by rewrite Nat.max_l by lia.
Qed.

Lemma indicator_seq i : forall n a,
  list_sum (map (fun j => if Nat.eq_dec i j then 1 else 0)%nat (seq a n))
  = if bool_decide (a <= i < a + n)%nat then 1%nat else 0%nat.
Proof.
  induction n as [|n IH]; intros a; simpl.
  - rewrite bool_decide_eq_false_2 by lia. done.
  - rewrite IH. destruct (Nat.eq_dec i a) as [-> | Hne].
    + rewrite bool_decide_eq_false_2 by lia. rewrite bool_decide_eq_true_2 by lia. done.
    + simpl. apply (f_equal (fun b : bool => if b then 1%nat else 0%nat)).
      apply bool_decide_ext. lia.
Qed.

Lemma count_occ_total n idx :
  Forall (fun i => (i < n)%nat) idx ->
  list_sum (map (fun j => count_occ Nat.eq_dec idx j) (seq 0 n)) = length idx.
Proof.
  induction 1 as [|i idx Hi _ IH].
  - simpl. induction (seq 0 n); simpl; auto.
  - assert (Hsplit : forall l,
      list_sum (map (fun j => count_occ Nat.eq_dec (i :: idx) j) l)
      = (list_sum (map (fun j => if Nat.eq_dec i j then 1 else 0) l)
         + list_sum (map (fun j => count_occ Nat.eq_dec idx j) l))%nat).
    { induction l as [|j l IHl]; [done |].
      rewrite !map_cons.
      rewrite !(fun x l => eq_refl : list_sum (x :: l) = (x + list_sum l)%nat), IHl.
      destruct (Nat.eq_dec i j) as [E | E].
      - rewrite count_occ_cons_eq by done. lia.
      - rewrite count_occ_cons_neq by done. lia. }
    rewrite Hsplit, IH, indicator_seq.
    rewrite bool_decide_eq_true_2 by lia. done.
Qed.

Lemma occurrences_by_position (vals : list Z) idx j :
  NoDup vals -> Forall (fun i => (i < length vals)%nat) idx -> (j < length vals)%nat ->
  occurrences (map (fun i => nth i vals 0) idx) (nth j vals 0)
  = count_occ Nat.eq_dec idx j.
Proof.
  intros Hnd Hidx Hj. induction Hidx as [|i idx Hi _ IH]; [done |]. simpl.
  destruct (Nat.eq_dec i j) as [-> | Hne].
  - by rewrite occurrences_cons_eq, IH.
  - rewrite occurrences_cons_ne, IH; [done |].
    intros E. apply Hne. by apply (proj1 (NoDup_nth vals 0) ltac:(by apply NoDup_ListNoDup)).
Qed.

Lemma intc_cast_ok (l : list Z) :
  Forall (in_range 32) l -> map_result intc_cast l = Ok l.
Proof.
  intros H. rewrite (map_result_map intc_cast (fun x => x)); [by rewrite map_id |].
  eapply Forall_impl; [exact H |]. intros x Hx. unfold intc_cast.
  by rewrite (bool_decide_eq_true_2 _ Hx).
Qed.

Lemma intc_cast_rows (rows : list (list Z)) :
  Forall (Forall (in_range 32)) rows ->
  map_result (map_result intc_cast) rows = Ok rows.
Proof.
  intros H. rewrite (map_result_map _ (fun x => x)); [by rewrite map_id |].
  eapply Forall_impl; [exact H |]. intros row Hrow. by apply intc_cast_ok.
Qed.

Lemma intc_cast_raise z e : intc_cast z = Raise e -> e = OverflowError.
Proof. unfold intc_cast. case_bool_decide; congruence. Qed.

Lemma within_in_range g (l : list Z) :
  Forall (in_range 32) (values g) -> Forall (fun x => x ∈ values g) l ->
  Forall (in_range 32) l.
Proof.
  intros Hr Hl. rewrite Forall_forall in Hr.
  eapply Forall_impl; [exact Hl |]. intros x Hx. by apply Hr.
Qed.

(** What [get_next_states] computes for an action that re-rolls a die
    once both casts to [np.intc] have gone through. *)
Lemma get_next_states_casts g s a :
  Forall (in_range 32) (values g) ->
  s ∈ states g -> a ∈ actions g -> length a <> dice g ->
  let k := (dice g - length a)%nat in
  let mask := map (fun i => bool_decide (i ∈ a)) (seq 0 (dice g)) in
  get_next_states g s a
  = Ok {| possible_states :=
            map Some (map np_sort (map (fun row => np_select mask s ++ row)
                                     (combinations_with_replacement (values g) k)));
          is_over := false;
          reward := -1 * penalty g;
          probabilities :=
            map (fun x => multinomial_pmf x k (biases g))
              (map (np_bincount (sides g))
                 (combinations_with_replacement (seq 0 (sides g)) k)) |}.
Proof.
  intros Hr Hs Ha Hne k mask. unfold get_next_states.
  rewrite (bool_decide_eq_true_2 _ Hs), (bool_decide_eq_true_2 _ Ha). cbn [negb].
  rewrite bool_decide_eq_false_2 by done. fold k.
  rewrite intc_cast_rows.
  2:{ apply Forall_forall. intros row Hrow. apply cwr_elem in Hrow as [_ Hrow].
      by eapply within_in_range. }
  cbn [Exn.bind]. rewrite intc_cast_ok.
  2:{ apply cwr_elem in Hs as [_ Hs]. by eapply within_in_range. }
  reflexivity.
Qed.


Section ScipyBiases.
Local Open Scope Qc_scope.

Lemma Qc_sum_snoc l x : Qc_sum (l ++ [x]) = Qc_sum l + x.
Proof. induction l as [|y l IH]; simpl; [ring | rewrite IH; ring]. Qed.

Lemma removelast_last (p : list Qc) :
  p <> [] -> exists x, p = removelast p ++ [x].
Proof.
  intros Hp. destruct (exists_last Hp) as (l & x & ->).
  exists x. by rewrite removelast_last.
Qed.


Lemma scipy_p_sum p : p <> [] -> Qc_sum (scipy_p p) = 1.
Proof.
  intros Hp. destruct p as [|x p]; [done |].
  unfold scipy_p. rewrite Qc_sum_snoc. ring.
Qed.

(** A bias list that adds up to 1 is read by scipy as it is. *)
Lemma scipy_p_id p : Qc_sum p = 1 -> scipy_p p = p.
Proof.
  intros Hsum. destruct p as [|x p]; [done |].
  destruct (removelast_last (x :: p)) as [y Hy]; [done |].
  unfold scipy_p. rewrite Hy at 3. f_equal. f_equal.
  rewrite Hy, Qc_sum_snoc in Hsum. rewrite <- Hsum. ring.
Qed.

End ScipyBiases.

Lemma scipy_biases_id g : probability_vector (biases g) -> scipy_biases g = g.
Proof.
  intros [_ Hsum]. unfold scipy_biases. rewrite scipy_p_id by done. by destruct g.
Qed.

(** The probability the code computes from the positions drawn is the
    probability of the multiset of values drawn, for the biases as
    scipy reads them. *)
Lemma multinomial_pmf_by_value g k idx :
  length (values g) = sides g -> NoDup (values g) ->
  idx ∈ combinations_with_replacement (seq 0 (sides g)) k ->
  multinomial_pmf (np_bincount (sides g) idx) k (biases g)
  = multinomial_probability (scipy_biases g) (map (fun j => nth j (values g) 0) idx).
Proof.
  intros Hlen Hnd Hidx. apply cwr_elem in Hidx as [Hk Hidx].
  assert (Hlt : Forall (fun i => (i < sides g)%nat) idx).
  { eapply Forall_impl; [exact Hidx |]. intros i Hi. apply elem_of_seq in Hi. lia. }
  rewrite np_bincount_counts by done.
  unfold multinomial_pmf, multinomial_formula. rewrite count_occ_total by done.
  rewrite decide_True by done.
  unfold multinomial_probability. cbn [values biases scipy_biases].
  rewrite length_map, Hk.
  assert (Hx : map (fun j => count_occ Nat.eq_dec idx j) (seq 0 (sides g))
               = map (fun v => occurrences (map (fun j => nth j (values g) 0) idx) v)
                   (values g)).
  { set (f := fun j => nth j (values g) 0).
    rewrite (values_by_position g Hlen). fold f. rewrite map_map.
    apply map_ext_in. intros j Hj. apply in_seq in Hj. subst f. simpl.
    rewrite occurrences_by_position; [done | done | by rewrite Hlen | lia]. }
  rewrite Hx. rewrite map_map. f_equal.
  clear. generalize (scipy_p (biases g)).
  generalize (map (fun j => nth j (values g) 0) idx).
  intros r. induction (values g) as [|v vs IH]; intros [|b bs]; simpl; try done.
  by rewrite IH.
Qed.

Lemma get_next_states_reroll g s a :
  length (values g) = sides g -> StronglySorted Z.lt (values g) ->
  Forall (in_range 32) (values g) ->
  s ∈ states g -> a ∈ actions g -> length a <> dice g ->
  let k := (dice g - length a)%nat in
  let rolls := combinations_with_replacement (values g) k in
  NoDup rolls
  /\ (forall r, r ∈ rolls
                <-> length r = k /\ Forall (fun x => x ∈ values g) r /\ Sorted Z.le r)
  /\ get_next_states g s a
     = Ok {| possible_states := map (fun r => Some (np_sort (held_values s a ++ r))) rolls;
             is_over := false;
             reward := - penalty g;
             probabilities := map (multinomial_probability (scipy_biases g)) rolls |}.
Proof.
  intros Hlen Hasc Hr Hs Ha Hne k rolls.
  destruct (cwr_ascending (values g) Hasc k) as [Hnd Hrolls].
  split; [done |]. split; [done |].
  rewrite (get_next_states_casts g s a Hr Hs Ha Hne).
  f_equal. f_equal.
  - fold k. fold rolls. rewrite !map_map. apply map_ext_in. intros r Hin.
    f_equal. f_equal. f_equal.
    pose proof Hs as Hs'. apply cwr_elem in Hs' as [Hl Hsv]. rewrite <- Hl.
    rewrite np_select_held by (rewrite Hl; by apply action_sublist).
    unfold held_values. apply map_ext. intros i. f_equal. lia.
  - fold k. subst rolls.
    set (f := fun j => nth j (values g) 0).
    rewrite (values_by_position g Hlen). fold f. rewrite cwr_map, !map_map.
    apply map_ext_in. intros idx Hin. apply list_elem_of_In in Hin. subst f.
    apply multinomial_pmf_by_value; [done | | done].
    by apply StronglySorted_lt_NoDup.
Qed.

(** ** The multinomial theorem *)

Section Multinomial.

Local Open Scope Qc_scope.

Lemma Qc_of_nat_nonneg n : 0 <= Qc_of_nat n.
Proof.
  induction n as [|n IH]; simpl; [apply Qcle_refl |].
  replace 0 with (0 + 0) by ring. apply Qcplus_le_compat; [done | exact IH].
Qed.

Lemma Qc_of_nat_succ_pos n : 0 < Qc_of_nat (S n).
Proof.
  simpl. apply Qclt_le_trans with (y := 1); [done |].
  replace 1 with (1 + 0) at 1 by ring.
  apply Qcplus_le_compat; [apply Qcle_refl | apply Qc_of_nat_nonneg].
Qed.

Lemma Qc_of_nat_succ_neq n : Qc_of_nat (S n) <> 0.
Proof.
  intros E. pose proof (Qc_of_nat_succ_pos n) as H. rewrite E in H.
  by apply Qclt_not_eq in H.
Qed.

Lemma Qc_of_nat_add n m : Qc_of_nat (n + m) = Qc_of_nat n + Qc_of_nat m.
Proof. induction n as [|n IH]; simpl; [ring | rewrite IH; ring]. Qed.

Lemma Qc_fact_neq n : Qc_fact n <> 0.
Proof.
  induction n as [|n IH]; [done |].
  change (Qc_fact (S n)) with (Qc_of_nat (S n) * Qc_fact n).
  intros E. apply Qcmult_integral in E as [E | E]; [| done].
  by apply Qc_of_nat_succ_neq in E.
Qed.

Lemma exp_term_succ a k : Qc_of_nat (S k) * exp_term a (S k) = a * exp_term a k.
Proof.
  unfold exp_term.
  change (Qc_fact (S k)) with (Qc_of_nat (S k) * Qc_fact k).
  change (a ^ S k) with (a * a ^ k).
  pose proof (Qc_of_nat_succ_neq k). pose proof (Qc_fact_neq k).
  field. split; done.
Qed.

Lemma Qc_sum_app xs ys : Qc_sum (xs ++ ys) = Qc_sum xs + Qc_sum ys.
Proof. induction xs as [|x xs IH]; simpl; [ring | rewrite IH; ring]. Qed.

Lemma Qc_sum_scale {A} c (f : A -> Qc) l :
  Qc_sum (map (fun x => c * f x) l) = c * Qc_sum (map f l).
Proof. induction l as [|x l IH]; simpl; [ring | rewrite IH; ring]. Qed.

Lemma Qc_sum_plus {A} (f h : A -> Qc) l :
  Qc_sum (map (fun x => f x + h x) l) = Qc_sum (map f l) + Qc_sum (map h l).
Proof. induction l as [|x l IH]; simpl; [ring | rewrite IH; ring]. Qed.

Lemma Qc_sum_ext {A} (f h : A -> Qc) l :
  (forall x, x ∈ l -> f x = h x) -> Qc_sum (map f l) = Qc_sum (map h l).
Proof.
  intros H. f_equal. apply map_ext_in. intros x Hx. by apply H, list_elem_of_In.
Qed.

Lemma convolution_succ F G k :
  convolution F G (S k) = F 0%nat * G (S k) + convolution (fun i => F (S i)) G k.
Proof.
  unfold convolution.
  change (seq 0 (S (S k))) with (0%nat :: seq 1 (S k)).
  rewrite <- seq_shift, map_cons, map_map. done.
Qed.

Lemma convolution_ext F F' G G' k :
  (forall i, (i <= k)%nat -> F i = F' i) -> (forall i, (i <= k)%nat -> G i = G' i) ->
  convolution F G k = convolution F' G' k.
Proof.
  intros HF HG. apply Qc_sum_ext. intros i Hi. apply elem_of_seq in Hi.
  rewrite HF, HG by lia. done.
Qed.

Lemma Qc_sum_cons x l : Qc_sum (x :: l) = x + Qc_sum l.
Proof. reflexivity. Qed.

Lemma Qcmult_cancel_l c x y : c <> 0 -> c * x = c * y -> x = y.
Proof.
  intros Hc H. replace x with (c * x / c) by (field; done).
  rewrite H. field. done.
Qed.

(** The binomial theorem, in exponential form. *)
Lemma convolution_step a b k :
  Qc_of_nat (S k) * convolution (exp_term a) (exp_term b) (S k)
  = (a + b) * convolution (exp_term a) (exp_term b) k.
Proof.
  assert (Hsplit :
    Qc_of_nat (S k) * convolution (exp_term a) (exp_term b) (S k)
    = Qc_sum (map (fun i => Qc_of_nat i * exp_term a i * exp_term b (S k - i))
                (seq 0 (S (S k))))
      + Qc_sum (map (fun i => exp_term a i
                              * (Qc_of_nat (S k - i) * exp_term b (S k - i)))
                  (seq 0 (S (S k))))).
  { unfold convolution. rewrite <- Qc_sum_scale, <- Qc_sum_plus.
    apply Qc_sum_ext. intros i Hi. apply elem_of_seq in Hi.
    replace (S k) with (i + (S k - i))%nat at 1 by lia.
    rewrite Qc_of_nat_add. ring. }
  rewrite Hsplit. clear Hsplit.
  replace ((a + b) * convolution (exp_term a) (exp_term b) k)
    with (a * convolution (exp_term a) (exp_term b) k
          + b * convolution (exp_term a) (exp_term b) k) by ring.
  f_equal.
  - change (seq 0 (S (S k))) with (0%nat :: seq 1 (S k)).
    rewrite <- seq_shift, map_cons, map_map, Qc_sum_cons. cbv beta.
    assert (H0 : Qc_of_nat 0 * exp_term a 0 * exp_term b (S k - 0) = 0)
      by (simpl Qc_of_nat; ring).
    rewrite H0, Qcplus_0_l. clear H0.
    unfold convolution. rewrite <- Qc_sum_scale.
    apply Qc_sum_ext. intros i _.
    rewrite exp_term_succ. replace (S k - S i)%nat with (k - i)%nat by lia. ring.
  - rewrite (seq_S (S k) 0), map_app, Qc_sum_app.
    change (0 + S k)%nat with (S k). cbn [map]. rewrite Qc_sum_cons.
    change (Qc_sum []) with 0.
    replace (S k - S k)%nat with 0%nat by lia.
    assert (H0 : exp_term a (S k) * (Qc_of_nat 0 * exp_term b 0) + 0 = 0)
      by (simpl Qc_of_nat; ring).
    rewrite H0, Qcplus_0_r. clear H0.
    unfold convolution. rewrite <- Qc_sum_scale.
    apply Qc_sum_ext. intros i Hi. apply elem_of_seq in Hi.
    replace (S k - i)%nat with (S (k - i)) by lia.
    rewrite exp_term_succ. ring.
Qed.

Lemma convolution_exp a b k :
  convolution (exp_term a) (exp_term b) k = exp_term (a + b) k.
Proof.
  induction k as [|k IH].
  - unfold convolution, exp_term. simpl. field. done.
  - pose proof (Qc_of_nat_succ_neq k) as Hk.
    apply (Qcmult_cancel_l (Qc_of_nat (S k))); [done |].
    rewrite convolution_step, IH, exp_term_succ. done.
Qed.

Lemma weight_cons_fresh jp x t :
  x ∉ map fst jp -> weight jp (x :: t) = weight jp t.
Proof.
  intros Hx. unfold weight. f_equal. apply map_ext_in. intros [j p] Hin. simpl fst. simpl snd.
  rewrite count_occ_cons_neq; [done |].
  intros ->. apply Hx. apply list_elem_of_In in Hin.
  by apply (list_elem_of_fmap_2' fst _ (j, p)).
Qed.

Lemma cwr_weight_leading x rest :
  x ∉ map fst rest ->
  forall k (F : nat -> Qc),
    Qc_sum (map (fun t => F (count_occ Nat.eq_dec t x) * weight rest t)
              (combinations_with_replacement (x :: map fst rest) k))
    = convolution F
        (fun m => Qc_sum (map (weight rest)
                            (combinations_with_replacement (map fst rest) m))) k.
Proof.
  intros Hx. induction k as [|k IH]; intros F.
  - rewrite cwr_zero. unfold convolution. simpl. rewrite cwr_zero. simpl. ring.
  - rewrite cwr_cons_succ, map_app, Qc_sum_app, map_map, convolution_succ.
    rewrite Qcplus_comm. f_equal.
    + rewrite <- Qc_sum_scale. apply Qc_sum_ext. intros t Ht.
      apply cwr_elem in Ht as [_ Ht]. rewrite Forall_forall in Ht.
      rewrite (proj1 (count_occ_not_In Nat.eq_dec t x)); [done |].
      intros Hin. apply Hx, Ht. by apply list_elem_of_In.
    + rewrite <- (IH (fun i => F (S i))). apply Qc_sum_ext. intros t _.
      rewrite count_occ_cons_eq by done. by rewrite weight_cons_fresh.
Qed.

(** The multinomial theorem over the enumeration of multisets. *)
Lemma cwr_weight_sum jp :
  NoDup (map fst jp) ->
  forall k,
    Qc_sum (map (weight jp) (combinations_with_replacement (map fst jp) k))
    = exp_term (Qc_sum (map snd jp)) k.
Proof.
  induction jp as [|[x p] rest IH]; intros Hnd k.
  - destruct k as [|k].
    + by apply Qc_is_canon.
    + change (0 = exp_term 0 (S k)). unfold exp_term.
      change (0 ^ S k) with (0 * 0 ^ k).
      pose proof (Qc_fact_neq (S k)). field. done.
  - cbn [map fst snd] in *. apply NoDup_cons in Hnd as [Hx Hnd].
    rewrite Qc_sum_cons, <- convolution_exp.
    rewrite <- (convolution_ext (exp_term p) (exp_term p)
                  (fun m => Qc_sum (map (weight rest)
                              (combinations_with_replacement (map fst rest) m)))
                  (exp_term (Qc_sum (map snd rest))) k);
      [| done | intros; by apply IH].
    rewrite <- (cwr_weight_leading x rest Hx k (exp_term p)).
    apply Qc_sum_ext. intros t _. unfold weight. simpl. done.
Qed.

Lemma Qc_prod_fact_neq l : Qc_prod (map Qc_fact l) <> 0.
Proof.
  induction l as [|n l IH]; [done |]. simpl. intros E.
  apply Qcmult_integral in E as [E | E]; [by apply Qc_fact_neq in E | done].
Qed.

Lemma Qc_prod_cons x l : Qc_prod (x :: l) = x * Qc_prod l.
Proof. reflexivity. Qed.

Lemma weight_zip (c : nat -> nat) : forall (js : list nat) (ps : list Qc),
  length js = length ps ->
  Qc_prod (map (fun e : nat * Qc => exp_term e.2 (c e.1)) (zip js ps))
  = Qc_prod (zip_with (fun p x => p ^ x) ps (map c js))
    / Qc_prod (map Qc_fact (map c js)).
Proof.
  induction js as [|j js IH]; intros [|p ps] Hl; simpl in Hl; try done.
  cbn [zip_with map]. rewrite !Qc_prod_cons. cbn [fst snd]. rewrite IH by lia.
    unfold exp_term.
    pose proof (Qc_fact_neq (c j)). pose proof (Qc_prod_fact_neq (map c js)).
    field. split; done.
Qed.

Lemma multinomial_pmf_weight n k ps idx :
  length ps = n -> Forall (fun i => (i < n)%nat) idx -> length idx = k ->
  multinomial_formula (np_bincount n idx) k ps
  = Qc_fact k * weight (zip (seq 0 n) ps) idx.
Proof.
  intros Hn Hidx Hk. rewrite np_bincount_counts by done.
  unfold multinomial_formula. rewrite count_occ_total by done.
  rewrite decide_True by done.
  unfold weight. rewrite (weight_zip (fun j => count_occ Nat.eq_dec idx j))
    by by rewrite length_seq.
  pose proof (Qc_prod_fact_neq (map (fun j => count_occ Nat.eq_dec idx j) (seq 0 n))).
  field. done.
Qed.

Lemma Qcpower_one k : 1 ^ k = 1.
Proof. induction k as [|k IH]; [done |]. simpl. rewrite IH. ring. Qed.

(** The multinomial theorem over the enumeration of the code. *)
Lemma multinomial_formula_sum n k (ps : list Qc) :
  length ps = n -> Qc_sum ps = 1 ->
  Qc_sum (map (fun x => multinomial_formula x k ps)
            (map (np_bincount n) (combinations_with_replacement (seq 0 n) k))) = 1.
Proof.
  intros Hlen Hsum. rewrite map_map.
  rewrite (Qc_sum_ext _ (fun idx => Qc_fact k * weight (zip (seq 0 n) ps) idx)).
  2:{ intros idx Hidx. apply cwr_elem in Hidx as [Hk Hidx].
      apply multinomial_pmf_weight; [done | | done].
      eapply Forall_impl; [exact Hidx |]. intros i Hi. apply elem_of_seq in Hi. lia. }
  rewrite (Qc_sum_scale (Qc_fact k) (weight (zip (seq 0 n) ps))).
  assert (Hfst : map fst (zip (seq 0 n) ps) = seq 0 n).
  { apply (fst_zip (seq 0 n) ps). rewrite length_seq. lia. }
  assert (Hsnd : map snd (zip (seq 0 n) ps) = ps).
  { apply (snd_zip (seq 0 n) ps). rewrite length_seq. lia. }
  pose proof (cwr_weight_sum (zip (seq 0 n) ps)) as Hw.
  rewrite Hfst, Hsnd in Hw. rewrite Hw by apply NoDup_ListNoDup, seq_NoDup.
  rewrite Hsum. unfold exp_term. rewrite Qcpower_one.
  pose proof (Qc_fact_neq k). field. done.
Qed.


End Multinomial.

(** ** Playing the game *)

Lemma empty_action_in_actions g : [] ∈ actions g.
Proof. unfold actions. by left. Qed.

(** [roll] as a chain of the steps that can raise. *)
Lemma roll_unfold g rng st action :
  roll g rng st action
  = if negb (bool_decide (action ∈ actions g)) then Raise ValueError
    else if game_over st then Ok (st, bare_zero)
    else if bool_decide (length action = dice g) then
      let* flipped := flip_duplicates g (current_dice st) in
      let* new_score := add_int64 (score st) (np_sum flipped) in
      Ok ({| game_over := game_over st; score := new_score;
             current_dice := flipped |},
          state_and_flag flipped true)
    else
      let* drawn :=
        np_random_choice (values g) (dice g - length action) (biases g) rng in
      let* new_score := sub_py_int (score st) (penalty g) in
      let rolled :=
        np_sort (np_assign
                   (map (fun i => negb (bool_decide (i ∈ action))) (seq 0 (dice g)))
                   (current_dice st) drawn) in
      Ok ({| game_over := game_over st; score := new_score;
             current_dice := rolled |},
          state_and_flag rolled false).
Proof.
  unfold roll, roll_step.
  destruct (bool_decide (action ∈ actions g)); simpl; [| done].
  destruct (game_over st); [done |].
  destruct (bool_decide (length action = dice g)).
  - destruct (flip_duplicates _ _); simpl; [| done].
    by destruct (add_int64 _ _).
  - destruct (np_random_choice _ _ _ _); simpl; [| done].
    by destruct (sub_py_int _ _).
Qed.

Lemma roll_roll_step g rng st action st' r :
  roll g rng st action = Ok (st', r) -> roll_step g rng st action = (st', Ok r).
Proof.
  unfold roll. destruct (roll_step g rng st action) as [st1 [r1 | e]]; [| done].
  by intros [= <- <-].
Qed.

(** What a call of [roll] leaves behind, whether it returns or raises:
    the flag as it was, and the dice as they were, flipped, or
    re-rolled. *)
Lemma roll_step_cases g rng st action st' res :
  roll_step g rng st action = (st', res) ->
  game_over st' = game_over st
  /\ (current_dice st' = current_dice st
      \/ flip_duplicates g (current_dice st) = Ok (current_dice st')
      \/ exists drawn,
           np_random_choice (values g) (dice g - length action) (biases g) rng
           = Ok drawn
           /\ current_dice st'
              = np_sort (np_assign
                           (map (fun i => negb (bool_decide (i ∈ action)))
                              (seq 0 (dice g)))
                           (current_dice st) drawn)).
Proof.
  unfold roll_step.
  destruct (bool_decide (action ∈ actions g)); simpl; [| by intros [= <- _]; auto].
  destruct (game_over st) eqn:Eg; [by intros [= <- _]; auto |].
  destruct (bool_decide (length action = dice g)).
  - destruct (flip_duplicates _ _) as [flipped | e]; [| by intros [= <- _]; auto].
    destruct (add_int64 _ _); intros [= <- _]; simpl; auto.
  - destruct (np_random_choice _ _ _ _) as [drawn | e]; [| by intros [= <- _]; auto].
    destruct (sub_py_int _ _); intros [= <- _]; simpl; split; try done;
      right; right; by exists drawn.
Qed.

(** The first roll of [reset] is a re-roll of every die as soon as there
    is a die. *)
Lemma reset_score g rng st d :
  (0 < dice g)%nat -> reset g rng = Ok (st, d) -> score st = py_int 0.
Proof.
  intros Hd. unfold reset. rewrite roll_unfold.
  rewrite (bool_decide_eq_true_2 _ (empty_action_in_actions g)). simpl.
  rewrite bool_decide_eq_false_2 by lia.
  destruct (np_random_choice _ _ _ _) as [drawn | e]; simpl; [| done].
  intros [= <- _]. simpl. f_equal. lia.
Qed.

Lemma probability_vector_accepted p : probability_vector p -> choice_accepts p.
Proof.
  intros [Hpos Hsum]. split; [done |]. rewrite Hsum.
  by apply (bool_decide_unpack _).
Qed.

Lemma np_random_choice_ok a size p rng :
  a <> [] -> length p = length a -> choice_accepts p ->
  exists drawn, np_random_choice a size p rng = Ok drawn
                /\ length drawn = size /\ Forall (fun x => x ∈ a) drawn.
Proof.
  intros Ha Hl Hp. unfold np_random_choice.
  rewrite bool_decide_eq_false_2 by (intros [? _]; done).
  rewrite (bool_decide_eq_true_2 _ Hl), (bool_decide_eq_true_2 _ Hp). simpl.
  eexists. split; [done |]. split.
  - by rewrite length_map, length_seq.
  - apply Forall_forall. intros x Hx.
    apply list_elem_of_fmap in Hx as (j & -> & _).
    apply list_elem_of_In, nth_In.
    apply Nat.mod_upper_bound. destruct a; [done | simpl; lia].
Qed.

Lemma reset_ok g rng :
  (0 < dice g)%nat -> values g <> [] -> length (biases g) = length (values g) ->
  choice_accepts (biases g) ->
  is_ok (reset g rng).
Proof.
  intros Hd Hv Hl Hp. unfold reset. rewrite roll_unfold.
  rewrite (bool_decide_eq_true_2 _ (empty_action_in_actions g)). simpl.
  rewrite bool_decide_eq_false_2 by lia.
  destruct (np_random_choice_ok (values g) (dice g - 0) (biases g) rng Hv Hl Hp)
    as (drawn & E & _).
  rewrite E. done.
Qed.

Lemma roll_game_over g rng st action st' r :
  roll g rng st action = Ok (st', r) -> game_over st' = game_over st.
Proof. intros H. by apply roll_roll_step, roll_step_cases in H as [H _]. Qed.

Lemma reset_game_over g rng st d :
  reset g rng = Ok (st, d) -> game_over st = false.
Proof.
  unfold reset.
  destruct (roll g rng _ []) as [[st' r] | e] eqn:E; simpl; [| done].
  apply roll_game_over in E. simpl in E.
  destruct r; [done |]. by intros [= <- _].
Qed.

Lemma reachable_not_over g st : reachable g st -> game_over st = false.
Proof.
  induction 1 as [rng st d H | rng st action st' r _ IH H
                  | rng st action st' e _ IH H].
  - by eapply reset_game_over.
  - apply roll_game_over in H. congruence.
  - apply roll_step_cases in H as [H _]. congruence.
Qed.

Lemma roll_not_over_result g rng st action st' r :
  game_over st = false -> roll g rng st action = Ok (st', r) -> r <> bare_zero.
Proof.
  intros Hg. rewrite roll_unfold, Hg.
  destruct (bool_decide (action ∈ actions g)); simpl; [| done].
  destruct (bool_decide (length action = dice g)).
  - destruct (flip_duplicates g (current_dice st)); simpl; [| done].
    destruct (add_int64 _ _); simpl; [| done]. by intros [= _ <-].
  - destruct (np_random_choice _ _ _ _); simpl; [| done].
    destruct (sub_py_int _ _); simpl; [| done]. by intros [= _ <-].
Qed.

(** *** The dice stay within the value domain *)

Lemma np_assign_length mask : forall arr new,
  length (np_assign mask arr new) = length arr.
Proof.
  induction mask as [|b mask IH]; intros [|x arr] new; simpl; try done.
  destruct b; [destruct new |]; simpl; by rewrite IH.
Qed.

Lemma np_assign_Forall (P : Z -> Prop) mask : forall arr new,
  Forall P arr -> Forall (fun y => P (intc y)) new ->
  Forall P (np_assign mask arr new).
Proof.
  induction mask as [|b mask IH]; intros [|x arr] new Ha Hn; simpl; try done.
  inversion Ha as [|? ? Hx Ha']; subst.
  destruct b.
  - destruct new as [|y new].
    + constructor; [done |]. by apply IH.
    + inversion Hn; subst. constructor; [done |]. by apply IH.
  - constructor; [done |]. by apply IH.
Qed.

Lemma np_select_Forall {A} (P : A -> Prop) mask : forall arr,
  Forall P arr -> Forall P (np_select mask arr).
Proof.
  induction mask as [|b mask IH]; intros [|x arr] Ha; simpl; try done.
  inversion Ha; subst. destruct b; [constructor |]; auto.
Qed.

Lemma np_sort_Forall (P : Z -> Prop) xs : Forall P xs -> Forall P (np_sort xs).
Proof. unfold np_sort. by rewrite merge_sort_Permutation. Qed.

Lemma np_sort_length xs : length (np_sort xs) = length xs.
Proof. unfold np_sort. by rewrite merge_sort_Permutation. Qed.

Lemma flip_duplicates_ok g current :
  Forall (in_range 32) (values g) -> within g current ->
  exists flipped, flip_duplicates g current = Ok flipped
                  /\ length flipped = length current /\ within g flipped.
Proof.
  intros Hr Hc. unfold flip_duplicates.
  set (more := map fst _).
  destruct (bool_decide (more <> [])); simpl.
  - set (mask := map _ current).
    destruct (map_result_ok
                (fun x => lookup_or KeyError (opposite_sides g !! x))
                (np_select mask current)) as (opp & E & F).
    { apply Forall_forall. intros x Hx.
      pose proof (np_select_Forall _ mask _ Hc) as Hs.
      rewrite Forall_forall in Hs.
      destruct (opposite_sides_is_Some g x (Hs _ Hx)) as [o Ho].
      simpl. by rewrite Ho. }
    rewrite E. simpl. eexists. split; [done |]. split.
    + by rewrite np_sort_length, np_assign_length.
    + apply np_sort_Forall, np_assign_Forall; [done |].
      apply Forall_forall. intros o Ho.
      assert (Hv : o ∈ values g).
      { clear E. induction F as [|x y xs ys Hxy _ IH].
        - by apply not_elem_of_nil in Ho.
        - apply elem_of_cons in Ho as [-> | Ho]; [| by apply IH].
          destruct (opposite_sides g !! x) eqn:El; simpl in Hxy; [| done].
          injection Hxy as <-. by eapply opposite_sides_value. }
      rewrite Forall_forall in Hr. unfold intc. rewrite wrap_id; [done | lia |].
      by apply Hr.
  - eexists. split; [done |]. split.
    + by rewrite np_sort_length.
    + by apply np_sort_Forall.
Qed.

Lemma np_assign_all mask : forall arr new,
  Forall (fun b => b = true) mask ->
  length mask = length arr -> length new = length arr ->
  np_assign mask arr new = map intc new.
Proof.
  induction mask as [|b mask IH]; intros [|x arr] [|y new] Hm Hl Hn;
    simpl in *; try done.
  inversion Hm as [|? ? -> Hm']; subst. f_equal. apply IH; [done | lia | lia].
Qed.

Lemma intc_values g x :
  Forall (in_range 32) (values g) -> x ∈ values g -> intc x ∈ values g.
Proof.
  intros Hr Hx. rewrite Forall_forall in Hr.
  unfold intc. rewrite wrap_id; [done | lia | by apply Hr].
Qed.

Lemma np_random_choice_inv a size p rng drawn :
  np_random_choice a size p rng = Ok drawn ->
  (size <> 0%nat -> a <> []) /\ length p = length a /\ choice_accepts p
  /\ length drawn = size /\ Forall (fun x => x ∈ a) drawn.
Proof.
  intros E. unfold np_random_choice in E.
  destruct (bool_decide (a = [] /\ size <> 0%nat)) eqn:Ea; simpl in E; [done |].
  destruct (bool_decide (length p = length a)) eqn:El; simpl in E; [| done].
  destruct (bool_decide (choice_accepts p)) eqn:Ep; simpl in E; [| done].
  apply bool_decide_eq_false in Ea. apply bool_decide_eq_true in El.
  apply bool_decide_eq_true in Ep. injection E as <-.
  assert (Hne : size <> 0%nat -> a <> []) by (intros Hs ->; by apply Ea).
  split; [done |]. split; [done |]. split; [done |]. split.
  - by rewrite length_map, length_seq.
  - apply Forall_forall. intros x Hx.
    apply list_elem_of_fmap in Hx as (j & -> & Hj). apply elem_of_seq in Hj.
    apply list_elem_of_In, nth_In.
    apply Nat.mod_upper_bound. specialize (Hne ltac:(lia)).
    destruct a; [done | simpl; lia].
Qed.

Lemma roll_step_within g rng st action st' res :
  Forall (in_range 32) (values g) ->
  within g (current_dice st) -> roll_step g rng st action = (st', res) ->
  within g (current_dice st').
Proof.
  intros Hr Hw H.
  apply roll_step_cases in H as [_ [-> | [E | (drawn & E & ->)]]]; [done | |].
  - destruct (flip_duplicates_ok g (current_dice st) Hr Hw) as (f & E' & _ & Hf).
    congruence.
  - apply np_random_choice_inv in E as (_ & _ & _ & _ & Hd).
    apply np_sort_Forall, np_assign_Forall; [done |].
    eapply Forall_impl; [exact Hd |]. intros x Hx. by apply intc_values.
Qed.

Lemma roll_within g rng st action st' r :
  Forall (in_range 32) (values g) ->
  within g (current_dice st) -> roll g rng st action = Ok (st', r) ->
  within g (current_dice st').
Proof. intros Hr Hw H. apply roll_roll_step in H. by eapply roll_step_within. Qed.

Lemma reset_within g rng st d :
  Forall (in_range 32) (values g) ->
  reset g rng = Ok (st, d) -> within g (current_dice st).
Proof.
  intros Hr. unfold reset.
  destruct (roll g rng _ []) as [[st' r] | e] eqn:E; simpl; [| done].
  intros H. assert (st' = st) as -> by (destruct r; congruence). clear H.
  revert E. rewrite roll_unfold.
  rewrite (bool_decide_eq_true_2 _ (empty_action_in_actions g)). simpl.
  destruct (bool_decide (0%nat = dice g)) eqn:Ed.
  - apply bool_decide_eq_true in Ed. rewrite <- Ed. simpl.
    destruct (bool_decide (in_range 64 (penalty g))); simpl; [| done].
    intros [= <- _]. simpl. constructor.
  - apply bool_decide_eq_false in Ed.
    destruct (np_random_choice _ _ _ _) as [drawn | e] eqn:E; simpl; [| done].
    apply np_random_choice_inv in E as (_ & _ & _ & Hl & Hd).
    intros [= <- _]. simpl. apply np_sort_Forall.
    rewrite np_assign_all.
    + apply Forall_fmap. eapply Forall_impl; [exact Hd |].
      intros x Hx. by apply intc_values.
    + apply Forall_fmap, Forall_forall. intros i _.
      change (negb (bool_decide (i ∈ @nil nat)) = true).
      apply negb_true_iff, bool_decide_eq_false_2, not_elem_of_nil.
    + by rewrite length_map, length_seq, length_replicate.
    + rewrite length_replicate. lia.
Qed.

Lemma reachable_within g st :
  Forall (in_range 32) (values g) -> reachable g st -> within g (current_dice st).
Proof.
  intros Hr. induction 1 as [rng st d H | rng st action st' r _ IH H
                            | rng st action st' e _ IH H].
  - by eapply reset_within.
  - by eapply roll_within.
  - by eapply roll_step_within.
Qed.

(** What [roll] does on a full-hold action when the game-over flag is
    down. *)
Lemma roll_full_hold g rng st action :
  game_over st = false -> action ∈ actions g -> length action = dice g ->
  roll g rng st action
  = let* flipped := flip_duplicates g (current_dice st) in
    let* new_score := add_int64 (score st) (np_sum flipped) in
    Ok ({| game_over := false;
           score := new_score;
           current_dice := flipped |},
        state_and_flag flipped true).
Proof.
  intros Hg Ha Hl. rewrite roll_unfold.
  rewrite (bool_decide_eq_true_2 _ Ha), Hg. simpl.
  by rewrite (bool_decide_eq_true_2 _ Hl).
Qed.

(** ** The agent *)

Section Monotone.

Variable g : DiceGame.

Lemma value_le_refl v : value_le v v.
Proof. intros s x H. exists x. split; [done | apply Qcle_refl]. Qed.

Lemma value_le_trans v1 v2 v3 :
  value_le v1 v2 -> value_le v2 v3 -> value_le v1 v3.
Proof.
  intros H12 H23 s x H. destruct (H12 s x H) as (y & Hy & Hxy).
  destruct (H23 s y Hy) as (z & Hz & Hyz). exists z. split; [done |].
  by eapply Qcle_trans.
Qed.

Lemma fold_result_invariant {A B} (R : A -> A -> Prop) (f : A -> B -> result A) :
  (forall a, R a a) -> (forall a b c, R a b -> R b c -> R a c) ->
  (forall a x a', f a x = Ok a' -> R a a') ->
  forall xs a a', fold_result f a xs = Ok a' -> R a a'.
Proof.
  intros Hrefl Htrans Hstep. induction xs as [|x xs IH]; intros a a'; simpl.
  - by intros [= ->].
  - intros H. apply bind_ok in H as (b & Hb & H).
    eapply Htrans; [by eapply Hstep | by apply IH].
Qed.

(** The update rule of one state. *)
Lemma evaluate_state_update policy sw state sw' :
  evaluate_state g policy sw state = Ok sw' ->
  exists action ns candidate cur,
    policy !! state = Some action
    /\ get_next_states g state action = Ok ns
    /\ bellman (sw_v sw) state ns = Ok candidate
    /\ sw_v sw !! state = Some cur
    /\ sw_v sw' = (if decide (cur < candidate)%Qc
                  then <[state := candidate]> (sw_v sw) else sw_v sw).
Proof.
  unfold evaluate_state. intros H.
  apply bind_ok in H as (old_v & Hold & H).
  apply bind_ok in H as (action & Hact & H).
  apply bind_ok in H as (ns & Hns & H).
  apply bind_ok in H as (new_v & Hnew & H).
  apply bind_ok in H as (cur & Hcur & H).
  apply bind_ok in H as (cur' & Hcur' & H).
  injection H as <-. simpl.
  exists action, ns, new_v, cur.
  destruct (policy !! state); [| done]. injection Hact as ->.
  destruct (sw_v sw !! state); [| done]. injection Hcur as ->.
  done.
Qed.

Lemma evaluate_state_monotone policy sw state sw' :
  evaluate_state g policy sw state = Ok sw' -> value_le (sw_v sw) (sw_v sw').
Proof.
  intros H. apply evaluate_state_update in H
    as (action & ns & candidate & cur & _ & _ & _ & Hcur & ->).
  destruct (decide (cur < candidate)%Qc) as [Hlt | _]; [| apply value_le_refl].
  intros s x Hs. destruct (decide (state = s)) as [-> | Hne].
  - exists candidate. rewrite lookup_insert_eq. split; [done |].
    assert (x = cur) as -> by congruence. by apply Qclt_le_weak.
  - exists x. rewrite lookup_insert_ne by done. split; [done | apply Qcle_refl].
Qed.

Lemma sweep_monotone policy v sw :
  sweep g policy v = Ok sw -> value_le v (sw_v sw).
Proof.
  unfold sweep. intros H.
  apply (fold_result_invariant (fun a b => value_le (sw_v a) (sw_v b))) in H.
  - exact H.
  - intros a. apply value_le_refl.
  - intros a b c. apply value_le_trans.
  - intros a x a'. apply evaluate_state_monotone.
Qed.

Lemma policy_evaluation_monotone policy : forall fuel v v',
  policy_evaluation g fuel v policy = Finished v'
  \/ policy_evaluation g fuel v policy = Running v' ->
  value_le v v'.
Proof.
  induction fuel as [|fuel IH]; intros v v'; simpl.
  - intros [[=] | [= ->]]. apply value_le_refl.
  - destruct (sweep g policy v) as [sw | e] eqn:E; [| by intros [[=] | [=]]].
    apply sweep_monotone in E.
    destruct (sw_converged sw).
    + intros [[= <-] | [=]]. exact E.
    + intros H. eapply value_le_trans; [exact E | by apply IH].
Qed.

Lemma policy_iteration_loop_monotone : forall fuel so so',
  policy_iteration_loop g fuel so = Finished so'
  \/ policy_iteration_loop g fuel so = Running so' ->
  value_le (so_v so) (so_v so').
Proof.
  induction fuel as [|fuel IH]; intros so so'.
  - simpl. intros [[=] | [= ->]]. apply value_le_refl.
  - cbn [policy_iteration_loop].
    destruct (policy_evaluation g (S fuel) (so_v so) (so_policy so))
      as [v | e | v] eqn:E.
    + assert (Hv : value_le (so_v so) v).
      { eapply policy_evaluation_monotone. left. exact E. }
      destruct (policy_improvement g (so_i so) v (so_policy so))
        as [[[i stable] policy] | e]; [| by intros [[=] | [=]]].
      destruct stable.
      * intros [[= <-] | [=]]. exact Hv.
      * intros H. apply IH in H. simpl in H. by eapply value_le_trans.
    + by intros [[=] | [=]].
    + intros [[=] | [= <-]]. simpl.
      eapply policy_evaluation_monotone. right. exact E.
Qed.

End Monotone.

(** ** Constructed games *)

Lemma constructed_lengths g :
  constructed g -> length (values g) = sides g /\ length (biases g) = sides g.
Proof.
  intros (d & n & vs & bs & p & rng & Hnew & _). unfold new_game in Hnew.
  destruct (bool_decide (length (default _ vs) = default 6%nat n)) eqn:E1;
    simpl in Hnew; [| done].
  destruct (bool_decide (length (default _ vs) = length (default _ bs))) eqn:E2;
    simpl in Hnew; [| done].
  apply bool_decide_eq_true in E1. apply bool_decide_eq_true in E2.
  injection Hnew as <-. simpl. split; [done | congruence].
Qed.

Lemma nonterminal_has_dice g a :
  a ∈ actions g -> length a <> dice g -> (0 < dice g)%nat.
Proof.
  intros Ha Hne. destruct (dice g) as [|d] eqn:E; [| lia].
  unfold actions in Ha. rewrite E in Ha. simpl in Ha.
  apply list_elem_of_singleton in Ha as ->. done.
Qed.

(** The closing [reset()] of the constructor draws every die, so
    [np.random.choice] has accepted the value domain and the biases. *)
Lemma constructed_biases g :
  constructed g -> (0 < dice g)%nat ->
  values g <> [] /\ choice_accepts (biases g).
Proof.
  intros (d & n & vs & bs & p & rng & _ & Hreset) Hd.
  unfold reset in Hreset. rewrite roll_unfold in Hreset.
  rewrite (bool_decide_eq_true_2 _ (empty_action_in_actions g)) in Hreset.
  simpl in Hreset. rewrite bool_decide_eq_false_2 in Hreset by lia.
  destruct (np_random_choice _ _ _ _) as [drawn | e] eqn:E; [| done].
  apply np_random_choice_inv in E as (Hv & _ & Hp & _).
  split; [apply Hv; lia | done].
Qed.

Ltac by_computation := apply (bool_decide_unpack _); vm_compute; exact I.

Lemma default_game_constructed : constructed default_game.
Proof.
  exists None, None, None, None, None, first_face.
  split; [reflexivity | by vm_compute].
Qed.

Lemma game_1_2_constructed : constructed game_1_2.
Proof.
  exists (Some 1%nat), (Some 2%nat), (Some [1; 2]), (Some [half; half]),
    (Some 1), first_face.
  split; [reflexivity | by vm_compute].
Qed.

(** ** The claims *)

(** C1. For a state of a constructed game whose value domain has
    distinct values that fit a C [int] (and fewer than [2 ^ 31] dice),
    [__final_score] returns the sum of the values occurring exactly once
    plus, for each distinct value occurring more than once, its opposite
    face times its number of occurrences; the opposite of the value at
    position [i] is the value at position [sides - 1 - i]. With three
    six-sided dice and faces 1 to 6 the state (2, 2, 5) scores 15. *)
Theorem final_score_counts_duplicates :
  (forall g s,
     constructed g -> NoDup (values g) -> Forall (in_range 32) (values g) ->
     Z.of_nat (dice g) < 2 ^ 31 -> s ∈ states g ->
     final_score g s = Ok (final_score_spec g s))
  /\ (forall g i v,
        constructed g -> NoDup (values g) -> values g !! i = Some v ->
        values g !! (sides g - 1 - i)%nat = Some (opposite g v))
  /\ final_score default_game [2; 2; 5] = Ok 15.
Proof.
  split; [| split].
  - intros g s Hg Hnd Hr Hd Hs. destruct (constructed_lengths g Hg) as [Hlen _].
    by apply final_score_correct.
  - intros g i v Hg Hnd Hi. destruct (constructed_lengths g Hg) as [Hlen _].
    destruct (opposite_sides_lookup g i v Hlen Hnd Hi) as (o & Ho & <- & _). done.
  - reflexivity.
Qed.

Lemma final_score_counts_duplicates_witness :
  constructed default_game /\ NoDup (values default_game)
  /\ Forall (in_range 32) (values default_game)
  /\ Z.of_nat (dice default_game) < 2 ^ 31
  /\ [2; 2; 5] ∈ states default_game
  /\ final_score default_game [2; 2; 5]
     = Ok (final_score_spec default_game [2; 2; 5]).
Proof.
  assert (H1 : constructed default_game) by exact default_game_constructed.
  assert (H2 : NoDup (values default_game)) by by_computation.
  assert (H3 : Forall (in_range 32) (values default_game)) by by_computation.
  assert (H4 : Z.of_nat (dice default_game) < 2 ^ 31) by reflexivity.
  assert (H5 : [2; 2; 5] ∈ states default_game) by by_computation.
  repeat (split; [assumption |]).
  exact (proj1 final_score_counts_duplicates default_game [2; 2; 5] H1 H2 H3 H4 H5).
Defined.

(** C2. For every state of the game, the action holding every die is
    one of the game's actions, and [get_next_states] on such an action
    returns the single sentinel next state [None], [game_over = True],
    the final score of the state as reward, and the probabilities
    [[1]]. *)
Theorem terminal_action_transition g s :
  s ∈ states g ->
  seq 0 (dice g) ∈ actions g
  /\ forall a, a ∈ actions g -> length a = dice g ->
       exists final,
         final_score g s = Ok final
         /\ get_next_states g s a
            = Ok {| possible_states := [None]; is_over := true;
                    reward := final; probabilities := [1%Qc] |}.
Proof.
  intros Hs. split; [apply hold_all_in_actions |]. intros a Ha Hl.
  pose proof (final_score_ok g s Hs) as Hok.
  destruct (final_score g s) as [final | e] eqn:E; [| done].
  exists final. split; [done |]. unfold get_next_states.
  rewrite (bool_decide_eq_true_2 _ Hs), (bool_decide_eq_true_2 _ Ha). simpl.
  rewrite (bool_decide_eq_true_2 _ Hl), E. done.
Qed.

Lemma terminal_action_transition_witness :
  [2; 2; 5] ∈ states default_game
  /\ exists final,
       final_score default_game [2; 2; 5] = Ok final
       /\ get_next_states default_game [2; 2; 5] [0; 1; 2]%nat
          = Ok {| possible_states := [None]; is_over := true;
                  reward := final; probabilities := [1%Qc] |}.
Proof.
  assert (H1 : [2; 2; 5] ∈ states default_game) by by_computation.
  split; [assumption |].
  refine (proj2 (terminal_action_transition default_game [2; 2; 5] H1)
            [0; 1; 2]%nat _ _).
  - by_computation.
  - reflexivity.
Defined.

(** C3. For a constructed game whose value domain is ascending and fits
    a C [int] and whose biases add up to 1, a state [s] and a
    non-terminal action [a] re-rolling [k = dice - |a|] dice:
    [get_next_states] returns [game_over = False], the reward
    [- penalty], and one entry per non-decreasing [k]-tuple over the
    value domain; the next state of a tuple is sorted and has the held
    values of [s] and the values of the tuple as its values, and its
    probability is [k! / prod (count_v!) * prod (bias_v ^ count_v)]. For
    one fair two-sided die with faces 1 and 2 and penalty 1,
    [get_next_states((1,), ())] returns the states (1,) and (2,), each
    with probability 1/2, reward -1 and [game_over = False]. *)
Theorem reroll_transition :
  (forall g s a,
     constructed g -> StronglySorted Z.lt (values g) ->
     Forall (in_range 32) (values g) -> probability_vector (biases g) ->
     s ∈ states g -> a ∈ actions g -> length a <> dice g ->
     let k := (dice g - length a)%nat in
     let rolls := combinations_with_replacement (values g) k in
     NoDup rolls
     /\ (forall r, r ∈ rolls
                   <-> length r = k /\ Forall (fun x => x ∈ values g) r
                       /\ Sorted Z.le r)
     /\ exists next,
          get_next_states g s a
          = Ok {| possible_states := map Some next;
                  is_over := false;
                  reward := - penalty g;
                  probabilities := map (multinomial_probability g) rolls |}
          /\ Forall2 (fun r s' => Sorted Z.le s' /\ s' ≡ₚ held_values s a ++ r)
               rolls next)
  /\ get_next_states game_1_2 [1] []
     = Ok {| possible_states := [Some [1]; Some [2]]; is_over := false;
             reward := -1; probabilities := [half; half] |}.
Proof.
  split.
  - intros g s a Hg Hasc Hr Hp Hs Ha Hne k rolls.
    destruct (constructed_lengths g Hg) as [Hlen _].
    destruct (get_next_states_reroll g s a Hlen Hasc Hr Hs Ha Hne)
      as (Hnd & Hrolls & E).
    split; [done |]. split; [done |].
    exists (map (fun r => np_sort (held_values s a ++ r)) rolls). split.
    + rewrite E, scipy_biases_id by done. by rewrite map_map.
    + apply Forall2_fmap_r, Forall_Forall2_diag, Forall_forall. intros r _.
      simpl. split.
      * unfold np_sort. apply Sorted_merge_sort. apply _.
      * unfold np_sort. apply merge_sort_Permutation.
  - vm_compute; repeat f_equal; by apply Qc_decomp.
Qed.

Lemma reroll_transition_witness :
  constructed game_1_2 /\ StronglySorted Z.lt (values game_1_2)
  /\ Forall (in_range 32) (values game_1_2)
  /\ probability_vector (biases game_1_2)
  /\ [1] ∈ states game_1_2 /\ [] ∈ actions game_1_2
  /\ length (@nil nat) <> dice game_1_2
  /\ exists next,
       get_next_states game_1_2 [1] []
       = Ok {| possible_states := map Some next;
               is_over := false;
               reward := - penalty game_1_2;
               probabilities :=
                 map (multinomial_probability game_1_2)
                   (combinations_with_replacement (values game_1_2) 1) |}
       /\ Forall2 (fun r s' => Sorted Z.le s' /\ s' ≡ₚ held_values [1] [] ++ r)
            (combinations_with_replacement (values game_1_2) 1) next.
Proof.
  assert (H1 : constructed game_1_2) by exact game_1_2_constructed.
  assert (H2 : StronglySorted Z.lt (values game_1_2)) by by_computation.
  assert (H3 : Forall (in_range 32) (values game_1_2)) by by_computation.
  assert (H4 : probability_vector (biases game_1_2)) by by_computation.
  assert (H5 : [1] ∈ states game_1_2) by by_computation.
  assert (H6 : [] ∈ actions game_1_2) by by_computation.
  assert (H7 : length (@nil nat) <> dice game_1_2) by by_computation.
  repeat (split; [assumption |]).
  exact (proj2 (proj2 (proj1 reroll_transition game_1_2 [1] []
                         H1 H2 H3 H4 H5 H6 H7))).
Defined.






(** C6, as stated, fails without dice: the empty action of [reset()]'s
    roll then holds every die, the roll is the terminal one and the
    penalty stays on the score. *)
Lemma reset_score_without_dice :
  reset game_no_dice first_face
  = Ok ({| game_over := false; score := np_int64 1; current_dice := [] |}, [])
  /\ np_int64 1 <> py_int 0 /\ number_value (np_int64 1) <> 0.
Proof. split; [reflexivity | split; done]. Qed.

(** C6, amended. For every configuration with at least one die and every
    penalty, the score is 0 once [reset()] has completed; and [reset()]
    completes whenever [np.random.choice] accepts the value domain and
    the biases (a value, as many biases as values, biases that are a
    probability vector). *)
Theorem reset_score_zero g rng :
  (0 < dice g)%nat ->
  (forall st d, reset g rng = Ok (st, d) -> score st = py_int 0)
  /\ (values g <> [] -> length (biases g) = length (values g) ->
      probability_vector (biases g) -> is_ok (reset g rng)).
Proof.
  intros Hd. split.
  - intros st d. by apply reset_score.
  - intros Hv Hl Hp. by apply reset_ok, probability_vector_accepted.
Qed.

Lemma reset_score_zero_witness :
  (0 < dice default_game)%nat
  /\ exists st d, reset default_game first_face = Ok (st, d) /\ score st = py_int 0.
Proof.
  assert (H1 : (0 < dice default_game)%nat) by by_computation.
  split; [assumption |].
  assert (H2 : values default_game <> []) by done.
  assert (H3 : probability_vector (biases default_game)) by by_computation.
  assert (H4 : length (biases default_game) = length (values default_game))
    by reflexivity.
  pose proof (proj2 (reset_score_zero default_game first_face H1) H2 H4 H3) as Hok.
  destruct (reset default_game first_face) as [[st d] | e] eqn:E; [| destruct Hok].
  exists st, d. split; [reflexivity |].
  exact (proj1 (reset_score_zero default_game first_face H1) st d E).
Defined.

(** C7. Processing a state in [__policy_evaluation] replaces [v[state]]
    by the Bellman candidate exactly when the candidate is strictly
    greater, and changes nothing else; so no state's value decreases
    over a sweep, over a whole evaluation, nor over the whole policy
    iteration, however far these loops have got. *)
Theorem value_function_monotone g :
  (forall policy sw state sw',
     evaluate_state g policy sw state = Ok sw' ->
     exists action ns candidate cur,
       policy !! state = Some action
       /\ get_next_states g state action = Ok ns
       /\ bellman (sw_v sw) state ns = Ok candidate
       /\ sw_v sw !! state = Some cur
       /\ sw_v sw' = (if decide (cur < candidate)%Qc
                     then <[state := candidate]> (sw_v sw) else sw_v sw))
  /\ (forall policy v sw, sweep g policy v = Ok sw -> value_le v (sw_v sw))
  /\ (forall policy fuel v v',
        policy_evaluation g fuel v policy = Finished v'
        \/ policy_evaluation g fuel v policy = Running v' ->
        value_le v v')
  /\ (forall fuel so so',
        policy_iteration_loop g fuel so = Finished so'
        \/ policy_iteration_loop g fuel so = Running so' ->
        value_le (so_v so) (so_v so')).
Proof.
  split; [| split; [| split]].
  - apply evaluate_state_update.
  - apply sweep_monotone.
  - intros policy. apply policy_evaluation_monotone.
  - apply policy_iteration_loop_monotone.
Qed.

Lemma value_function_monotone_witness :
  match initial_solver_state game_1_2 with
  | Ok so =>
      match sweep game_1_2 (so_policy so) (so_v so) with
      | Ok sw => value_le (so_v so) (sw_v sw)
      | Raise _ => False
      end
  | Raise _ => False
  end.
Proof.
  destruct (initial_solver_state game_1_2) as [so | e] eqn:E0.
  - destruct (sweep game_1_2 (so_policy so) (so_v so)) as [sw | e] eqn:E1.
    + exact (proj1 (proj2 (value_function_monotone game_1_2))
               (so_policy so) (so_v so) sw E1).
    + vm_compute in E0. injection E0 as E0. subst so. vm_compute in E1.
      discriminate E1.
  - vm_compute in E0. discriminate E0.
Defined.

(** C8 fails on the code: the test [delta < theta] sits inside the
    [for] loop and latches [converged]. With one die with faces 0 and 2,
    the first sweep of the first evaluation leaves the value of state
    (0,) unchanged, which sets [converged], then raises the value of
    state (2,) from 0 to 2; the evaluation returns after this sweep
    although a state changed by more than [theta]. *)
Theorem policy_evaluation_stops_early :
  exists so sw,
    initial_solver_state game_0_2 = Ok so
    /\ sweep game_0_2 (so_policy so) (so_v so) = Ok sw
    /\ sw_converged sw = true
    /\ so_v so !! [2] = Some 0%Qc
    /\ sw_v sw !! [2] = Some (Qc_of_Z 2)
    /\ (theta <= Qc_abs (0 - Qc_of_Z 2))%Qc
    /\ forall fuel,
         policy_evaluation game_0_2 (S fuel) (so_v so) (so_policy so)
         = Finished (sw_v sw).
Proof.
  destruct (initial_solver_state game_0_2) as [so | e] eqn:E0;
    [| vm_compute in E0; discriminate E0].
  destruct (sweep game_0_2 (so_policy so) (so_v so)) as [sw | e] eqn:E1;
    [| vm_compute in E0; injection E0 as E0; subst so;
       vm_compute in E1; discriminate E1].
  exists so, sw. split; [reflexivity |]. split; [exact E1 |].
  assert (Hsw : sw_converged sw = true /\ sw_v sw !! [2] = Some (Qc_of_Z 2)).
  { vm_compute in E0. injection E0 as E0. subst so.
    vm_compute in E1. injection E1 as E1. subst sw.
    split; [reflexivity |]. vm_compute; f_equal; by apply Qc_decomp. }
  destruct Hsw as [Hconv Hv]. split; [exact Hconv |]. split.
  { vm_compute in E0. injection E0 as E0. subst so.
    vm_compute; f_equal; by apply Qc_decomp. }
  split; [exact Hv |]. split; [by vm_compute |].
  intros fuel. cbn [policy_evaluation]. rewrite E1, Hconv. reflexivity.
Qed.

Lemma py_index_in_range {A} (l : list A) (i : Z) :
  - Z.of_nat (length l) <= i < Z.of_nat (length l) ->
  py_index l i
  = lookup_or IndexError (l !! Z.to_nat (i mod Z.of_nat (length l))).
Proof.
  intros Hi. unfold py_index.
  destruct (bool_decide (0 <= i < Z.of_nat (length l))) eqn:E.
  - apply bool_decide_eq_true in E. by rewrite Z.mod_small.
  - apply bool_decide_eq_false in E.
    rewrite bool_decide_eq_true_2 by lia.
    replace (i mod Z.of_nat (length l)) with (Z.of_nat (length l) + i); [done |].
    apply (Z.mod_unique _ _ (-1)); lia.
Qed.

Lemma py_index_below {A} (l : list A) (i : Z) :
  i < - Z.of_nat (length l) -> py_index l i = Raise IndexError.
Proof.
  intros Hi. unfold py_index.
  rewrite !bool_decide_eq_false_2 by lia. done.
Qed.

Lemma policy_improvement_index g i v policy i' stable policy' :
  policy_improvement g i v policy = Ok (i', stable, policy') -> i' = i - 1.
Proof.
  unfold policy_improvement.
  destruct (fold_result _ _ _) as [[st p] | e]; simpl; [| done].
  by intros [= <- _ _].
Qed.

Lemma policy_improvement_below g v policy s rest a :
  states g = s :: rest -> policy !! s = Some a ->
  policy_improvement g (- Z.of_nat (length (actions g))) v policy
  = Raise IndexError.
Proof.
  intros Hs Ha. unfold policy_improvement. rewrite Hs.
  cbn [fold_result]. unfold improve_state at 1. rewrite Ha.
  cbn [lookup_or Exn.bind]. rewrite py_index_below by lia. reflexivity.
Qed.

(** C9 fails on the code: the index is only ever decremented, and a
    Python list accepts the indexes from [- len] to [len - 1]. The
    candidate is [actions[index mod len]] down to index [- len]; the
    improvement call that follows raises [IndexError] at its first
    state, whatever the values and the policy are. For the one-die game
    with faces 0 and 1 that is the call entered with index [-2]. *)
Theorem policy_iteration_index_error :
  (forall (l : list (list nat)) (i : Z),
     - Z.of_nat (length l) <= i < Z.of_nat (length l) ->
     py_index l i = lookup_or IndexError (l !! Z.to_nat (i mod Z.of_nat (length l))))
  /\ (forall (l : list (list nat)) (i : Z),
        i < - Z.of_nat (length l) -> py_index l i = Raise IndexError)
  /\ (forall g v policy s rest a,
        states g = s :: rest -> policy !! s = Some a ->
        policy_improvement g (- Z.of_nat (length (actions g))) v policy
        = Raise IndexError)
  /\ (forall v policy a,
        policy !! [0] = Some a ->
        policy_improvement game_0_1 (-2) v policy = Raise IndexError).
Proof.
  split; [apply py_index_in_range |]. split; [apply py_index_below |].
  split; [apply policy_improvement_below |].
  intros v policy a Ha.
  exact (policy_improvement_below game_0_1 v policy [0] [[1]] a eq_refl Ha).
Qed.

Lemma policy_iteration_index_error_witness :
  exists so,
    initial_solver_state game_0_1 = Ok so
    /\ so_policy so !! [0] = Some [0%nat]
    /\ policy_improvement game_0_1 (-2) (so_v so) (so_policy so)
       = Raise IndexError.
Proof.
  destruct (initial_solver_state game_0_1) as [so | e] eqn:E0.
  - exists so. split; [reflexivity |].
    assert (H : so_policy so !! [0] = Some [0%nat]).
    { vm_compute in E0. injection E0 as E0. subst so. reflexivity. }
    split; [exact H |].
    exact (proj2 (proj2 (proj2 policy_iteration_index_error))
             (so_v so) (so_policy so) [0%nat] H).
  - exfalso. vm_compute in E0. discriminate E0.
Defined.

(** * Further properties of the game, the solver and [play] *)

(** ** The action and state spaces *)

Lemma combinations_zero {A} (pool : list A) : combinations pool 0 = [[]].
Proof. by destruct pool. Qed.

Lemma combinations_length {A} (pool : list A) : forall r a,
  a ∈ combinations pool r -> length a = r.
Proof.
  induction pool as [|x pool IH]; intros [|r] a; simpl; intros H.
  - by apply list_elem_of_singleton in H as ->.
  - by apply not_elem_of_nil in H.
  - by apply list_elem_of_singleton in H as ->.
  - apply elem_of_app in H as [H | H].
    + apply list_elem_of_fmap in H as (t & -> & Ht). simpl. f_equal. by eapply IH.
    + by eapply IH.
Qed.

Lemma sublist_combinations {A} (pool : list A) : forall a,
  a `sublist_of` pool -> a ∈ combinations pool (length a).
Proof.
  induction pool as [|x pool IH]; intros a Ha.
  - apply sublist_nil_r in Ha as ->. by left.
  - apply sublist_cons_r in Ha as [Ha | (a' & -> & Ha)].
    + destruct a as [|y a]; [by left |].
      cbn [length combinations]. apply elem_of_app. right. by apply (IH (y :: a)).
    + cbn [length combinations]. apply elem_of_app. left.
      apply list_elem_of_fmap_2. by apply IH.
Qed.

Lemma combinations_NoDup {A} (pool : list A) :
  NoDup pool -> forall r, NoDup (combinations pool r).
Proof.
  induction 1 as [|x pool Hx _ IH]; intros [|r]; simpl.
  - apply NoDup_singleton.
  - constructor.
  - apply NoDup_singleton.
  - apply NoDup_app. split; [| split].
    + apply (NoDup_fmap_2 _). apply IH.
    + intros a H1 H2. apply list_elem_of_fmap in H1 as (t & -> & _).
      apply combinations_sublist in H2.
      apply Hx. eapply elem_of_sublist; [| exact H2]. by left.
    + apply IH.
Qed.

Lemma combinations_overflow {A} (pool : list A) : forall r,
  (length pool < r)%nat -> combinations pool r = [].
Proof.
  induction pool as [|x pool IH]; intros [|r] Hr; simpl in *; try lia; [done |].
  rewrite (IH r), (IH (S r)) by lia. done.
Qed.

Lemma combinations_full {A} (pool : list A) : combinations pool (length pool) = [pool].
Proof.
  induction pool as [|x pool IH]; [done |]. cbn [length combinations].
  rewrite IH, combinations_overflow by lia. done.
Qed.

Lemma combinations_count {A} (pool : list A) : forall n,
  (length pool <= n)%nat ->
  length (concat (map (combinations pool) (seq 0 (S n)))) = (2 ^ length pool)%nat.
Proof.
  induction pool as [|x pool IH]; intros n Hn.
  - change (seq 0 (S n)) with (0%nat :: seq 1 n). cbn [map concat].
    assert (E : concat (map (combinations (@nil A)) (seq 1 n)) = []).
    { apply concat_nil_Forall, Forall_forall. intros l Hl.
      apply list_elem_of_fmap in Hl as (r & -> & Hr). apply elem_of_seq in Hr.
      destruct r; [lia | done]. }
    rewrite E. done.
  - cbn [length] in Hn. destruct n as [|n]; [lia |].
    assert (Hsplit : forall m start,
      length (concat (map (combinations (x :: pool)) (seq (S start) m)))
      = (length (concat (map (combinations pool) (seq start m)))
         + length (concat (map (combinations pool) (seq (S start) m))))%nat).
    { induction m as [|m IHm]; intros start; [done |].
      cbn [seq map concat]. rewrite !length_app, (IHm (S start)).
      cbn [combinations]. rewrite length_app, length_map. lia. }
    change (seq 0 (S (S n))) with (0%nat :: seq 1 (S n)).
    cbn [map concat]. rewrite length_app, Hsplit.
    pose proof (IH n ltac:(lia)) as H1. pose proof (IH (S n) ltac:(lia)) as H2.
    change (seq 0 (S (S n))) with (0%nat :: seq 1 (S n)) in H2.
    cbn [map concat] in H2. rewrite length_app in H2.
    rewrite combinations_zero in H2 |- *.
    rewrite H1. cbn [length] in *. rewrite Nat.pow_succ_r'. lia.
Qed.

Lemma actions_by_length g :
  actions g = concat (map (combinations (seq 0 (dice g))) (seq 0 (S (dice g)))).
Proof.
  unfold actions. cbn [seq map concat]. destruct (seq 0 (dice g)); reflexivity.
Qed.

Lemma actions_last g : exists pre, actions g = pre ++ [seq 0 (dice g)].
Proof.
  unfold actions. destruct (dice g) as [|d].
  - exists []. done.
  - rewrite (seq_S d 1), map_app, concat_app. cbn [map concat].
    pose proof (combinations_full (seq 0 (S d))) as E. rewrite length_seq in E.
    change (1 + d)%nat with (S d). rewrite E.
    eexists ([[]] ++ _). rewrite app_nil_r. by rewrite <- app_assoc.
Qed.

Lemma sublist_full {A} (l1 l2 : list A) :
  l1 `sublist_of` l2 -> length l1 = length l2 -> l1 = l2.
Proof.
  induction 1 as [|x l1 l2 _ IH | x l1 l2 H _]; simpl; intros Hl.
  - done.
  - f_equal. apply IH. lia.
  - apply sublist_length in H. lia.
Qed.

(** X1. [self.actions] lists every strictly increasing tuple of dice
    positions exactly once: an action is any subsequence of
    [range(dice)], from the empty tuple (re-roll everything) to the full
    tuple (hold everything), and no action is listed twice. *)
Theorem actions_spec g :
  NoDup (actions g)
  /\ forall a, a ∈ actions g <-> a `sublist_of` seq 0 (dice g).
Proof.
  split.
  - rewrite actions_by_length. apply NoDup_ListNoDup.
    assert (Hgen : forall n start,
              List.NoDup (concat (map (combinations (seq 0 (dice g))) (seq start n)))
              /\ forall a, In a (concat (map (combinations (seq 0 (dice g))) (seq start n)))
                           -> (start <= length a < start + n)%nat).
    { induction n as [|n IHn]; intros start; simpl.
      - split; [constructor |]. intros a [].
      - destruct (IHn (S start)) as [Hnd Hlen]. split.
        + apply NoDup_ListNoDup, NoDup_app. split; [| split].
          * apply combinations_NoDup, NoDup_ListNoDup, seq_NoDup.
          * intros a H1 H2. apply combinations_length in H1.
            apply list_elem_of_In, Hlen in H2. lia.
          * by apply NoDup_ListNoDup.
        + intros a Ha. apply in_app_or in Ha as [Ha | Ha].
          * apply list_elem_of_In, combinations_length in Ha. lia.
          * apply Hlen in Ha. lia. }
    apply Hgen.
  - intros a. split.
    + apply action_sublist.
    + intros Ha. rewrite actions_by_length. apply list_elem_of_In, in_concat.
      exists (combinations (seq 0 (dice g)) (length a)). split.
      * apply in_map, in_seq. apply sublist_length in Ha.
        rewrite length_seq in Ha. lia.
      * by apply list_elem_of_In, sublist_combinations.
Qed.

Lemma actions_spec_witness :
  NoDup (actions game_1_2)
  /\ ([0%nat] ∈ actions game_1_2 <-> [0%nat] `sublist_of` seq 0 (dice game_1_2)).
Proof.
  destruct (actions_spec game_1_2) as [H1 H2].
  split; [exact H1 | exact (H2 [0%nat])].
Defined.

(** X2. A game with [dice] dice has [2 ^ dice] actions. *)
Theorem actions_count g : length (actions g) = (2 ^ dice g)%nat.
Proof.
  rewrite actions_by_length, combinations_count by (by rewrite length_seq).
  by rewrite length_seq.
Qed.

(** X3. Over an ascending value domain [self.states] lists every
    non-decreasing [dice]-tuple of values exactly once. *)
Theorem states_spec g :
  StronglySorted Z.lt (values g) ->
  NoDup (states g)
  /\ forall s, s ∈ states g
               <-> length s = dice g /\ Forall (fun x => x ∈ values g) s
                   /\ Sorted Z.le s.
Proof. intros Hasc. apply (cwr_ascending (values g) Hasc (dice g)). Qed.

Lemma states_spec_witness :
  StronglySorted Z.lt (values default_game)
  /\ NoDup (states default_game)
  /\ forall s, s ∈ states default_game
               <-> length s = dice default_game
                   /\ Forall (fun x => x ∈ values default_game) s
                   /\ Sorted Z.le s.
Proof.
  assert (H1 : StronglySorted Z.lt (values default_game)) by by_computation.
  split; [assumption |]. exact (states_spec default_game H1).
Defined.

(** ** Opposite faces and the flipping of duplicates *)

(** X4. With distinct values, being the opposite face is an involution
    on the value domain, and [self.__opposite_sides] maps the opposite
    of a value back to the value. *)
Theorem opposite_involutive g v :
  length (values g) = sides g -> NoDup (values g) -> v ∈ values g ->
  opposite g v ∈ values g
  /\ opposite g (opposite g v) = v
  /\ opposite_sides g !! opposite g v = Some v.
Proof.
  intros Hlen Hnd Hv. apply list_elem_of_lookup_1 in Hv as [i Hi].
  assert (Hlt : (i < sides g)%nat) by (rewrite <- Hlen; by eapply lookup_lt_Some).
  destruct (opposite_sides_lookup g i v Hlen Hnd Hi) as (o & Ho & <- & _).
  destruct (opposite_sides_lookup g _ _ Hlen Hnd Ho) as (o' & Ho' & <- & Hd).
  replace (sides g - 1 - (sides g - 1 - i))%nat with i in Ho' by lia.
  assert (opposite g (opposite g v) = v) as E by congruence.
  split; [by eapply list_elem_of_lookup_2 |]. split; [done |]. by rewrite <- E at 2.
Qed.

Lemma opposite_involutive_witness :
  length (values default_game) = sides default_game
  /\ NoDup (values default_game) /\ 2 ∈ values default_game
  /\ opposite default_game 2 ∈ values default_game
  /\ opposite default_game (opposite default_game 2) = 2
  /\ opposite_sides default_game !! opposite default_game 2 = Some 2.
Proof.
  assert (H1 : length (values default_game) = sides default_game) by reflexivity.
  assert (H2 : NoDup (values default_game)) by by_computation.
  assert (H3 : 2 ∈ values default_game) by by_computation.
  repeat (split; [assumption |]).
  exact (opposite_involutive default_game 2 H1 H2 H3).
Defined.

Lemma np_assign_select (P : Z -> bool) (h : Z -> Z) (s : list Z) :
  np_assign (map P s) s (map h (np_select (map P s) s))
  = map (fun x => if P x then intc (h x) else x) s.
Proof.
  induction s as [|x s IH]; [done |]. cbn [map np_select np_assign].
  destruct (P x); cbn [map]; by rewrite IH.
Qed.

Lemma more_than_once s x :
  x ∈ map fst (filter (fun uc : Z * nat => (1 < uc.2)%nat) (np_unique s))
  <-> (1 < occurrences s x)%nat.
Proof.
  destruct (np_unique_spec s) as (Hnd & Hperm & Huniq).
  rewrite Huniq.
  pose proof (filter_tagged (occurrences s) (fun c => (1 < c)%nat)
                (map fst (np_unique s))) as HB.
  cbv beta in HB. rewrite HB, map_map. cbn [fst]. rewrite map_id.
  rewrite list_elem_of_filter, Hperm, elem_of_remove_dups. split; [by intros [? _] |].
  intros H. split; [done |].
  destruct (decide (x ∈ s)) as [Hin | Hin]; [done |].
  apply occurrences_zero in Hin. lia.
Qed.

Lemma flip_duplicates_faces g s :
  length (values g) = sides g -> NoDup (values g) ->
  Forall (in_range 32) (values g) -> within g s ->
  flip_duplicates g s = Ok (np_sort (map (flip_face g s) s)).
Proof.
  intros Hlen Hnd Hr Hw. unfold flip_duplicates.
  set (more := map fst _).
  assert (Hmore : forall x, bool_decide (x ∈ more) = bool_decide (1 < occurrences s x)%nat).
  { intros x. apply bool_decide_ext, more_than_once. }
  destruct (bool_decide (more <> [])) eqn:Em.
  - set (mask := map _ s).
    rewrite (map_result_map _ (opposite g)).
    2:{ apply Forall_forall. intros x Hx.
        pose proof (np_select_Forall _ mask s Hw) as Hsel.
        rewrite Forall_forall in Hsel.
        destruct (opposite_in_values g x Hlen Hnd (Hsel x Hx)) as [_ ->]. done. }
    cbn [Exn.bind]. f_equal. f_equal. subst mask.
    rewrite (np_assign_select (fun x => bool_decide (x ∈ more)) (opposite g) s).
    apply map_ext_in. intros x Hx. unfold flip_face. rewrite <- Hmore.
    destruct (bool_decide (x ∈ more)); [| done].
    apply list_elem_of_In in Hx. unfold within in Hw. rewrite Forall_forall in Hw.
    destruct (opposite_in_values g x Hlen Hnd (Hw x Hx)) as [Ho _].
    rewrite Forall_forall in Hr. unfold intc. apply wrap_id; [lia | by apply Hr].
  - cbn [Exn.bind]. f_equal. f_equal.
    apply bool_decide_eq_false in Em.
    assert (more = []) as Hnil by (destruct more; [done | exfalso; by apply Em]).
    rewrite <- (map_id s) at 1. apply map_ext. intros x. unfold flip_face.
    rewrite <- Hmore, Hnil. rewrite bool_decide_eq_false_2; [done | apply not_elem_of_nil].
Qed.

Lemma weighted_indicator_sum (f : Z -> Z) (u : list Z) x :
  NoDup u -> x ∈ u ->
  Zsum (map (fun v => (if decide (x = v) then 1 else 0) * f v) u) = f x.
Proof.
  induction 1 as [|v u Hv Hnd IH]; intros Hx.
  - by apply not_elem_of_nil in Hx.
  - cbn [map Zsum foldr]. fold (Zsum (map (fun v => (if decide (x = v) then 1 else 0) * f v) u)).
    destruct (decide (x = v)) as [-> | Hne].
    + assert (Zsum (map (fun w => (if decide (v = w) then 1 else 0) * f w) u) = 0) as ->; [| lia].
      clear IH Hx. induction u as [|w u IHu]; [done |]. cbn [map Zsum foldr].
      fold (Zsum (map (fun w => (if decide (v = w) then 1 else 0) * f w) u)).
      rewrite decide_False by (intros ->; apply Hv; by left).
      rewrite IHu; [lia | | by apply NoDup_cons in Hnd as [_ ?]].
      intros H. apply Hv. by right.
    + apply elem_of_cons in Hx as [-> | Hx]; [done |]. rewrite IH by done. lia.
Qed.

Lemma Zsum_by_value (f : Z -> Z) (u s : list Z) :
  NoDup u -> Forall (fun x => x ∈ u) s ->
  Zsum (map f s) = Zsum (map (fun v => Z.of_nat (occurrences s v) * f v) u).
Proof.
  intros Hnd. induction 1 as [|x s Hx _ IH].
  - induction u as [|v u IHu]; [done |]. cbn [map Zsum foldr].
    apply NoDup_cons in Hnd as [_ Hnd].
    fold (Zsum (map (fun v => Z.of_nat (occurrences [] v) * f v) u)).
    rewrite <- IHu by done. done.
  - cbn [map Zsum foldr]. fold (Zsum (map f s)). rewrite IH.
    rewrite <- (weighted_indicator_sum f u x Hnd Hx) at 1.
    clear. induction u as [|v u IHu]; [done |]. cbn [map Zsum foldr].
    fold (Zsum (map (fun v => (if decide (x = v) then 1 else 0) * f v) u)).
    fold (Zsum (map (fun v => Z.of_nat (occurrences s v) * f v) u)).
    fold (Zsum (map (fun v => Z.of_nat (occurrences (x :: s) v) * f v) u)).
    rewrite <- IHu.
    destruct (decide (x = v)) as [-> | Hne].
    + rewrite occurrences_cons_eq. lia.
    + rewrite occurrences_cons_ne by done. lia.
Qed.

Lemma flipped_sum g s :
  Zsum (map (flip_face g s) s) = final_score_spec g s.
Proof.
  unfold final_score_spec. rewrite score_terms.
  rewrite (Zsum_by_value (flip_face g s) (remove_dups s) s).
  - f_equal. apply map_ext_in. intros v Hv.
    apply list_elem_of_In in Hv. rewrite elem_of_remove_dups in Hv.
    apply occurrences_pos in Hv.
    unfold score_term, flip_face.
    destruct (decide (occurrences s v = 1%nat)) as [E | E].
    + rewrite E. rewrite bool_decide_eq_false_2 by lia. lia.
    + rewrite decide_True by lia. rewrite bool_decide_eq_true_2 by lia. lia.
  - apply NoDup_remove_dups.
  - apply Forall_forall. intros x Hx. by apply elem_of_remove_dups.
Qed.

Lemma flip_duplicates_flipped g s :
  length (values g) = sides g -> NoDup (values g) ->
  Forall (in_range 32) (values g) -> Z.of_nat (dice g) < 2 ^ 31 ->
  s ∈ states g ->
  exists flipped,
    flip_duplicates g s = Ok flipped
    /\ flipped = np_sort (map (flip_face g s) s)
    /\ np_sum flipped = final_score_spec g s
    /\ final_score g s = Ok (np_sum flipped).
Proof.
  intros Hlen Hnd Hr Hd Hs.
  assert (Hw : within g s) by (apply cwr_elem in Hs as [_ ?]; done).
  exists (np_sort (map (flip_face g s) s)).
  split; [by apply flip_duplicates_faces |]. split; [done |].
  pose proof (final_score_correct g s Hlen Hnd Hr Hd Hs) as E. rewrite E.
  assert (Hrange : in_range 64 (final_score_spec g s)).
  { unfold final_score in E.
    destruct (map_result _ _) as [fl | e]; [| done]. cbn [Exn.bind] in E.
    injection E as <-. apply wrap_in_range. lia. }
  assert (Hsum : np_sum (np_sort (map (flip_face g s) s)) = final_score_spec g s).
  { rewrite np_sum_exact. unfold np_sort. rewrite merge_sort_Permutation.
    rewrite flipped_sum. unfold int64. by apply wrap_id. }
  split; [done | by rewrite Hsum].
Qed.

(** X5. [__flip_duplicates] turns every die whose value occurs more
    than once to its opposite face, leaves the other dice as they are
    and sorts the dice; the sum of the dice after the flip, which a
    terminal [roll] adds to the score, is the final score that
    [__final_score] computes for the dice before the flip. *)
Theorem flip_duplicates_flips g s :
  length (values g) = sides g -> NoDup (values g) ->
  Forall (in_range 32) (values g) -> Z.of_nat (dice g) < 2 ^ 31 ->
  s ∈ states g ->
  exists flipped,
    flip_duplicates g s = Ok flipped
    /\ flipped = np_sort (map (flip_face g s) s)
    /\ final_score g s = Ok (np_sum flipped).
Proof.
  intros Hlen Hnd Hr Hd Hs.
  destruct (flip_duplicates_flipped g s Hlen Hnd Hr Hd Hs) as (fl & H1 & H2 & _ & H3).
  by exists fl.
Qed.

Lemma flip_duplicates_flips_witness :
  length (values default_game) = sides default_game
  /\ NoDup (values default_game)
  /\ Forall (in_range 32) (values default_game)
  /\ Z.of_nat (dice default_game) < 2 ^ 31
  /\ [2; 2; 5] ∈ states default_game
  /\ exists flipped,
       flip_duplicates default_game [2; 2; 5] = Ok flipped
       /\ flipped = np_sort (map (flip_face default_game [2; 2; 5]) [2; 2; 5])
       /\ final_score default_game [2; 2; 5] = Ok (np_sum flipped).
Proof.
  assert (H1 : length (values default_game) = sides default_game) by reflexivity.
  assert (H2 : NoDup (values default_game)) by by_computation.
  assert (H3 : Forall (in_range 32) (values default_game)) by by_computation.
  assert (H4 : Z.of_nat (dice default_game) < 2 ^ 31) by reflexivity.
  assert (H5 : [2; 2; 5] ∈ states default_game) by by_computation.
  repeat (split; [assumption |]).
  exact (flip_duplicates_flips default_game [2; 2; 5] H1 H2 H3 H4 H5).
Defined.

(** ** The game-over flag *)

(** C10. In every game state reachable by [reset()] and [roll(action)]
    calls, returning or raising, the game-over flag is [False], so
    [roll] never returns the bare [0] of its guard. A full-hold [roll]
    returns when the score fits an [np.int64]. When it has returned,
    every die whose value occurred more than once shows its opposite
    face, the dice are sorted and their sum has been added to the score
    (a wrapping [np.int64] from there on); a second full-hold [roll]
    then returns as well, and has flipped the duplicates of the new dice
    and added the new dice sum to the score again. *)
Theorem game_over_flag_never_set g :
  (forall st, reachable g st -> game_over st = false)
  /\ (forall st rng action st' r,
        reachable g st -> roll g rng st action = Ok (st', r) -> r <> bare_zero)
  /\ (forall st rng action,
        Forall (in_range 32) (values g) -> reachable g st ->
        action ∈ actions g -> length action = dice g ->
        in_range 64 (number_value (score st)) ->
        is_ok (roll g rng st action))
  /\ (forall st rng1 rng2 action st1 r1,
        constructed g -> NoDup (values g) -> Forall (in_range 32) (values g) ->
        reachable g st -> length action = dice g ->
        roll g rng1 st action = Ok (st1, r1) ->
        exists first second,
          Sorted Z.le first
          /\ first ≡ₚ map (flip_face g (current_dice st)) (current_dice st)
          /\ Sorted Z.le second
          /\ second ≡ₚ map (flip_face g first) first
          /\ st1 = {| game_over := false;
                      score := np_int64 (int64 (number_value (score st) + Zsum first));
                      current_dice := first |}
          /\ r1 = state_and_flag first true
          /\ roll g rng2 st1 action
             = Ok ({| game_over := false;
                      score := np_int64 (int64 (number_value (score st)
                                                + Zsum first + Zsum second));
                      current_dice := second |},
                   state_and_flag second true)).
Proof.
  split; [apply reachable_not_over |]. split; [| split].
  - intros st rng action st' r Hst. apply roll_not_over_result.
    by apply (reachable_not_over g).
  - intros st rng action Hr Hst Ha Hl Hfit.
    rewrite roll_full_hold; [| by apply (reachable_not_over g) | done | done].
    destruct (flip_duplicates_ok g _ Hr (reachable_within g st Hr Hst))
      as (first & -> & _). cbn [Exn.bind].
    destruct (score st) as [z | z]; cbn [add_int64 number_value] in *; [| done].
    by rewrite (bool_decide_eq_true_2 _ Hfit).
  - intros st rng1 rng2 action st1 r1 Hg Hnd Hr Hst Hl Hroll.
    destruct (constructed_lengths g Hg) as [Hlen _].
    assert (Ha : action ∈ actions g).
    { rewrite roll_unfold in Hroll.
      destruct (decide (action ∈ actions g)) as [Ha | Ha]; [done |].
      by rewrite (bool_decide_eq_false_2 _ Ha) in Hroll. }
    pose proof (reachable_within g st Hr Hst) as Hw.
    set (first := np_sort (map (flip_face g (current_dice st)) (current_dice st))).
    assert (Hw1 : within g first).
    { destruct (flip_duplicates_ok g _ Hr Hw) as (f & E & _ & Hf).
      rewrite (flip_duplicates_faces g _ Hlen Hnd Hr Hw) in E. by injection E as <-. }
    set (second := np_sort (map (flip_face g first) first)).
    exists first, second.
    split; [unfold first, np_sort; apply Sorted_merge_sort; apply _ |].
    split; [unfold first, np_sort; apply merge_sort_Permutation |].
    split; [unfold second, np_sort; apply Sorted_merge_sort; apply _ |].
    split; [unfold second, np_sort; apply merge_sort_Permutation |].
    rewrite roll_full_hold in Hroll;
      [| by apply (reachable_not_over g) | done | done].
    rewrite (flip_duplicates_faces g _ Hlen Hnd Hr Hw) in Hroll.
    cbn [Exn.bind] in Hroll. fold first in Hroll.
    assert (Hscore : add_int64 (score st) (np_sum first) = Ok (score st1)
                     /\ current_dice st1 = first /\ game_over st1 = false
                     /\ r1 = state_and_flag first true).
    { destruct (add_int64 _ _) as [n | e]; [| done]. cbn [Exn.bind] in Hroll.
      by injection Hroll as <- <-. }
    destruct Hscore as (Hadd & Hdice & Hover & ->).
    assert (Hs1 : score st1
                  = np_int64 (int64 (number_value (score st) + Zsum first))).
    { rewrite np_sum_exact in Hadd.
      destruct (score st) as [z | z]; cbn [add_int64 number_value] in *.
      - destruct (bool_decide (in_range 64 z)); [| done].
        injection Hadd as <-. unfold int64. by rewrite wrap_add_r.
      - injection Hadd as <-. unfold int64. by rewrite wrap_add_r. }
    split; [destruct st1; simpl in *; congruence |]. split; [done |].
    rewrite roll_full_hold; [| done | done | done].
    rewrite Hdice, (flip_duplicates_faces g _ Hlen Hnd Hr Hw1). cbn [Exn.bind].
    fold second. rewrite Hs1. cbn [add_int64 Exn.bind]. do 4 f_equal.
    rewrite np_sum_exact. unfold int64. rewrite wrap_add_r, wrap_add_l by done.
    done.
Qed.

Lemma game_over_flag_never_set_witness :
  constructed default_game /\ NoDup (values default_game)
  /\ Forall (in_range 32) (values default_game)
  /\ length [0; 1; 2]%nat = dice default_game
  /\ match reset default_game first_face with
     | Ok (st, _) =>
         reachable default_game st
         /\ match roll default_game first_face st [0; 1; 2]%nat with
            | Ok (st1, r1) =>
                exists first second,
                  Sorted Z.le first
                  /\ first ≡ₚ map (flip_face default_game (current_dice st))
                                (current_dice st)
                  /\ Sorted Z.le second
                  /\ second ≡ₚ map (flip_face default_game first) first
                  /\ st1 = {| game_over := false;
                              score := np_int64 (int64 (number_value (score st)
                                                        + Zsum first));
                              current_dice := first |}
                  /\ r1 = state_and_flag first true
                  /\ roll default_game first_face st1 [0; 1; 2]%nat
                     = Ok ({| game_over := false;
                              score := np_int64 (int64 (number_value (score st)
                                                        + Zsum first + Zsum second));
                              current_dice := second |},
                           state_and_flag second true)
            | Raise _ => False
            end
     | Raise _ => False
     end.
Proof.
  assert (H1 : constructed default_game) by exact default_game_constructed.
  assert (H2 : NoDup (values default_game)) by by_computation.
  assert (H3 : Forall (in_range 32) (values default_game)) by by_computation.
  assert (H4 : length [0; 1; 2]%nat = dice default_game) by reflexivity.
  do 4 (split; [assumption |]).
  destruct (reset default_game first_face) as [[st d] | e] eqn:E.
  - assert (H5 : reachable default_game st)
      by exact (reachable_reset default_game first_face st d E).
    split; [assumption |].
    destruct (roll default_game first_face st [0; 1; 2]%nat) as [[st1 r1] | e] eqn:E1.
    + exact (proj2 (proj2 (proj2 (game_over_flag_never_set default_game)))
               st first_face first_face [0; 1; 2]%nat st1 r1 H1 H2 H3 H5 H4 E1).
    + assert (Hst : Ok (st, d) = reset default_game first_face) by (symmetry; exact E).
      vm_compute in Hst. injection Hst as -> ->.
      vm_compute in E1. discriminate E1.
  - exfalso. vm_compute in E. discriminate E.
Defined.

(** The full-hold roll of a game whose score does not fit an
    [np.int64]: the dice are flipped and the score update raises. *)
Lemma full_hold_overflow :
  exists st0 d0 st1 d1,
    reset game_dear first_face = Ok (st0, d0)
    /\ roll game_dear first_face st0 [] = Ok (st1, state_and_flag d1 false)
    /\ score st1 = py_int (- 2 ^ 70)
    /\ roll game_dear first_face st1 [0%nat] = Raise OverflowError.
Proof. do 4 eexists. repeat split; reflexivity. Qed.

(** ** The transition model stays inside the game *)

Lemma held_values_within g s a :
  s ∈ states g -> a ∈ actions g ->
  length (held_values s a) = length a /\ within g (held_values s a).
Proof.
  intros Hs Ha. unfold held_values. split; [by rewrite length_map |].
  apply cwr_elem in Hs as [Hl Hf]. rewrite Forall_forall in Hf.
  apply Forall_forall. intros x Hx.
  apply list_elem_of_fmap in Hx as (i & -> & Hi).
  apply action_sublist in Ha.
  eapply elem_of_sublist in Hi; [| exact Ha]. apply elem_of_seq in Hi.
  apply Hf, list_elem_of_In, nth_In. lia.
Qed.

Lemma next_state_is_state g s a r :
  StronglySorted Z.lt (values g) ->
  s ∈ states g -> a ∈ actions g ->
  r ∈ combinations_with_replacement (values g) (dice g - length a) ->
  np_sort (held_values s a ++ r) ∈ states g.
Proof.
  intros Hasc Hs Ha Hr.
  destruct (held_values_within g s a Hs Ha) as [Hhl Hhw].
  apply cwr_elem in Hr as [Hrl Hrw].
  apply (cwr_ascending (values g) Hasc (dice g)). split; [| split].
  - rewrite np_sort_length, length_app, Hhl, Hrl.
    apply action_sublist, sublist_length in Ha. rewrite length_seq in Ha. lia.
  - apply np_sort_Forall, Forall_app. by split.
  - unfold np_sort. apply Sorted_merge_sort. apply _.
Qed.

(** X6. For a constructed game over an ascending value domain, every
    next state [get_next_states] returns for an action that re-rolls a
    die is again one of [game.states], so [v[next_state]] has a key;
    and the call returns as many probabilities as next states. *)
Theorem get_next_states_closed g s a :
  constructed g -> StronglySorted Z.lt (values g) ->
  Forall (in_range 32) (values g) ->
  s ∈ states g -> a ∈ actions g -> length a <> dice g ->
  exists ns,
    get_next_states g s a = Ok ns
    /\ is_over ns = false
    /\ length (possible_states ns) = length (probabilities ns)
    /\ forall o, o ∈ possible_states ns -> exists s', o = Some s' /\ s' ∈ states g.
Proof.
  intros Hg Hasc Hr Hs Ha Hne.
  destruct (constructed_lengths g Hg) as [Hlen _].
  destruct (get_next_states_reroll g s a Hlen Hasc Hr Hs Ha Hne) as (_ & _ & E).
  eexists. split; [exact E |]. cbn [is_over possible_states probabilities].
  split; [done |]. split; [by rewrite !length_map |].
  intros o Ho. apply list_elem_of_fmap in Ho as (r & -> & Hr').
  eexists. split; [done |]. by apply next_state_is_state.
Qed.

Lemma get_next_states_closed_witness :
  constructed default_game /\ StronglySorted Z.lt (values default_game)
  /\ Forall (in_range 32) (values default_game)
  /\ [2; 2; 5] ∈ states default_game /\ [0%nat] ∈ actions default_game
  /\ length [0%nat] <> dice default_game
  /\ exists ns,
       get_next_states default_game [2; 2; 5] [0%nat] = Ok ns
       /\ is_over ns = false
       /\ length (possible_states ns) = length (probabilities ns)
       /\ forall o, o ∈ possible_states ns ->
            exists s', o = Some s' /\ s' ∈ states default_game.
Proof.
  assert (H1 : constructed default_game) by exact default_game_constructed.
  assert (H2 : StronglySorted Z.lt (values default_game)) by by_computation.
  assert (H3 : Forall (in_range 32) (values default_game)) by by_computation.
  assert (H4 : [2; 2; 5] ∈ states default_game) by by_computation.
  assert (H5 : [0%nat] ∈ actions default_game) by by_computation.
  assert (H6 : length [0%nat] <> dice default_game) by by_computation.
  repeat (split; [assumption |]).
  exact (get_next_states_closed default_game [2; 2; 5] [0%nat] H1 H2 H3 H4 H5 H6).
Defined.

(** X7. The next states [get_next_states] returns for an action that
    re-rolls a die are pairwise distinct: every reachable dice state
    has one probability. *)
Theorem get_next_states_distinct g s a :
  constructed g -> StronglySorted Z.lt (values g) ->
  Forall (in_range 32) (values g) ->
  s ∈ states g -> a ∈ actions g -> length a <> dice g ->
  exists ns,
    get_next_states g s a = Ok ns /\ NoDup (possible_states ns).
Proof.
  intros Hg Hasc Hr Hs Ha Hne.
  destruct (constructed_lengths g Hg) as [Hlen _].
  destruct (get_next_states_reroll g s a Hlen Hasc Hr Hs Ha Hne) as (Hnd & Hrolls & E).
  eexists. split; [exact E |]. cbn [possible_states].
  apply NoDup_fmap_2_strong; [| done].
  intros r1 r2 H1 H2 [= Heq].
  apply Hrolls in H1 as (_ & _ & Hs1). apply Hrolls in H2 as (_ & _ & Hs2).
  apply (Sorted_unique Z.le); [done | done |].
  apply (Permutation_app_inv_l (held_values s a)).
  unfold np_sort in Heq.
  rewrite <- (merge_sort_Permutation Z.le (held_values s a ++ r1)), Heq.
  apply merge_sort_Permutation.
Qed.

Lemma get_next_states_distinct_witness :
  constructed default_game /\ StronglySorted Z.lt (values default_game)
  /\ Forall (in_range 32) (values default_game)
  /\ [2; 2; 5] ∈ states default_game /\ [0%nat] ∈ actions default_game
  /\ length [0%nat] <> dice default_game
  /\ exists ns,
       get_next_states default_game [2; 2; 5] [0%nat] = Ok ns
       /\ NoDup (possible_states ns).
Proof.
  assert (H1 : constructed default_game) by exact default_game_constructed.
  assert (H2 : StronglySorted Z.lt (values default_game)) by by_computation.
  assert (H3 : Forall (in_range 32) (values default_game)) by by_computation.
  assert (H4 : [2; 2; 5] ∈ states default_game) by by_computation.
  assert (H5 : [0%nat] ∈ actions default_game) by by_computation.
  assert (H6 : length [0%nat] <> dice default_game) by by_computation.
  repeat (split; [assumption |]).
  exact (get_next_states_distinct default_game [2; 2; 5] [0%nat] H1 H2 H3 H4 H5 H6).
Defined.

Section Probabilities.
Local Open Scope Qc_scope.

Lemma Qc_fact_pos n : 0 < Qc_fact n.
Proof.
  induction n as [|n IH]; [done |].
  change (Qc_fact (S n)) with (Qc_of_nat (S n) * Qc_fact n).
  apply Qcmult_pos_pos; [apply Qc_of_nat_succ_pos | done].
Qed.

Lemma Qc_prod_fact_pos l : 0 < Qc_prod (map Qc_fact l).
Proof.
  induction l as [|n l IH]; [done |]. cbn [map]. rewrite Qc_prod_cons.
  apply Qcmult_pos_pos; [apply Qc_fact_pos | done].
Qed.

Lemma Qc_prod_powers_nonneg (p : list Qc) : forall x : list nat,
  Forall (fun pj => 0 <= pj) p ->
  0 <= Qc_prod (zip_with (fun pj xj => pj ^ xj) p x).
Proof.
  induction p as [|pj p IH]; intros [|xj x] Hp; try done.
  inversion Hp as [|? ? Hj Hp']; subst. cbn [zip_with]. rewrite Qc_prod_cons.
  apply Qcmult_nonneg_nonneg; [by apply Qcpower_pos | by apply IH].
Qed.

Lemma multinomial_pmf_nonneg x n p :
  Forall (fun pj => 0 <= pj) (scipy_p p) -> 0 <= multinomial_pmf x n p.
Proof.
  intros Hp. unfold multinomial_pmf, multinomial_formula. destruct (decide (list_sum x = n)); [| done].
  apply Qcmult_nonneg_nonneg; [| by apply Qc_prod_powers_nonneg].
  unfold Qcdiv. apply Qcmult_nonneg_nonneg.
  - apply Qclt_le_weak, Qc_fact_pos.
  - apply Qclt_le_weak, Qcinv_pos, Qc_prod_fact_pos.
Qed.

Lemma Qc_sum_nonneg l : Forall (fun q => 0 <= q) l -> 0 <= Qc_sum l.
Proof.
  induction 1 as [|q l Hq _ IH]; [done |]. rewrite Qc_sum_cons.
  by apply Qcplus_nonneg_nonneg.
Qed.

Lemma Qc_sum_member_le l q :
  Forall (fun q => 0 <= q) l -> q ∈ l -> q <= Qc_sum l.
Proof.
  induction 1 as [|q' l Hq Hl IH]; intros Hin.
  - by apply not_elem_of_nil in Hin.
  - rewrite Qc_sum_cons. apply elem_of_cons in Hin as [-> | Hin].
    + rewrite <- (Qcplus_0_r q') at 1. apply Qcplus_le_mono_l.
      by apply Qc_sum_nonneg.
    + rewrite <- (Qcplus_0_l q). apply Qcplus_le_compat; [done | by apply IH].
Qed.

Lemma Qc_sum_replicate n x : Qc_sum (replicate n x) = Qc_of_nat n * x.
Proof.
  induction n as [|n IH]; [simpl; ring |].
  cbn [replicate]. rewrite Qc_sum_cons, IH. cbn [Qc_of_nat]. ring.
Qed.

Lemma uniform_probability_vector n :
  (0 < n)%nat -> probability_vector (replicate n (1 / Qc_of_nat n)).
Proof.
  intros Hn. destruct n as [|n]; [lia |]. split.
  - apply Forall_forall. intros p Hp. apply elem_of_replicate in Hp as [-> _].
    unfold Qcdiv. rewrite Qcmult_1_l.
    apply Qclt_le_weak, Qcinv_pos, Qc_of_nat_succ_pos.
  - rewrite Qc_sum_replicate. field. apply Qc_of_nat_succ_neq.
Qed.

Lemma Qc_max_ge_l (x y : Qc) : x <= Qc_max x y.
Proof.
  unfold Qc_max. destruct (decide (x < y)); [by apply Qclt_le_weak | apply Qcle_refl].
Qed.

(** X8. For a constructed game whose values fit a C [int] and whose
    biases add up to 1: each probability [get_next_states] returns for
    an action that re-rolls a die lies between 0 and 1 (floats read as
    exact rationals). *)
Theorem get_next_states_probabilities g s a :
  constructed g -> Forall (in_range 32) (values g) ->
  probability_vector (biases g) ->
  s ∈ states g -> a ∈ actions g -> length a <> dice g ->
  exists ns,
    get_next_states g s a = Ok ns
    /\ Forall (fun q => 0 <= q <= 1) (probabilities ns).
Proof.
  intros Hg Hr [Hp Hone] Hs Ha Hne.
  destruct (constructed_lengths g Hg) as [_ Hlen].
  pose proof (get_next_states_casts g s a Hr Hs Ha Hne) as E. cbv zeta in E.
  eexists. split; [exact E |]. cbn [probabilities].
  set (probs := map _ (map _ _)).
  assert (Hsum : Qc_sum probs = 1).
  { apply multinomial_formula_sum; rewrite (scipy_p_id _ Hone); done. }
  assert (Hnn : Forall (fun q => 0 <= q) probs).
  { apply Forall_forall. intros q Hq.
    apply list_elem_of_fmap in Hq as (x & -> & _).
    apply multinomial_pmf_nonneg. by rewrite (scipy_p_id _ Hone). }
  apply Forall_forall. intros q Hq. split.
  - rewrite Forall_forall in Hnn. by apply Hnn.
  - rewrite <- Hsum. by apply Qc_sum_member_le.
Qed.

End Probabilities.

Lemma get_next_states_probabilities_witness :
  constructed default_game /\ Forall (in_range 32) (values default_game)
  /\ probability_vector (biases default_game)
  /\ [2; 2; 5] ∈ states default_game /\ [0%nat] ∈ actions default_game
  /\ length [0%nat] <> dice default_game
  /\ exists ns,
       get_next_states default_game [2; 2; 5] [0%nat] = Ok ns
       /\ Forall (fun q => (0 <= q <= 1)%Qc) (probabilities ns).
Proof.
  assert (H1 : constructed default_game) by exact default_game_constructed.
  assert (H2 : Forall (in_range 32) (values default_game)) by by_computation.
  assert (H3 : probability_vector (biases default_game)) by by_computation.
  assert (H4 : [2; 2; 5] ∈ states default_game) by by_computation.
  assert (H5 : [0%nat] ∈ actions default_game) by by_computation.
  assert (H6 : length [0%nat] <> dice default_game) by by_computation.
  repeat (split; [assumption |]).
  exact (get_next_states_probabilities default_game [2; 2; 5] [0%nat]
           H1 H2 H3 H4 H5 H6).
Defined.

(** ** The dice a game can show *)

Lemma flip_duplicates_shape g current flipped :
  flip_duplicates g current = Ok flipped ->
  length flipped = length current /\ Sorted Z.le flipped.
Proof.
  unfold flip_duplicates. intros H. apply bind_ok in H as (fl & Hfl & [= <-]).
  split; [| unfold np_sort; apply Sorted_merge_sort; apply _].
  rewrite np_sort_length.
  destruct (bool_decide _); [| by injection Hfl as <-].
  apply bind_ok in Hfl as (opp & _ & [= <-]). apply np_assign_length.
Qed.

Lemma roll_shape g rng st action st' r :
  game_over st = false -> roll g rng st action = Ok (st', r) ->
  length (current_dice st') = length (current_dice st)
  /\ Sorted Z.le (current_dice st').
Proof.
  intros Hg. rewrite roll_unfold, Hg.
  destruct (bool_decide (action ∈ actions g)); simpl; [| done].
  destruct (bool_decide (length action = dice g)).
  - intros H. apply bind_ok in H as (fl & Hfl & H).
    apply bind_ok in H as (n & _ & [= <- _]). simpl.
    by apply flip_duplicates_shape in Hfl.
  - intros H. apply bind_ok in H as (drawn & _ & H).
    apply bind_ok in H as (n & _ & [= <- _]). simpl.
    rewrite np_sort_length, np_assign_length. split; [done |].
    unfold np_sort. apply Sorted_merge_sort. apply _.
Qed.

Lemma roll_step_shape g rng st action st' res :
  Sorted Z.le (current_dice st) -> roll_step g rng st action = (st', res) ->
  length (current_dice st') = length (current_dice st)
  /\ Sorted Z.le (current_dice st').
Proof.
  intros Hs H.
  apply roll_step_cases in H as [_ [-> | [E | (drawn & _ & ->)]]]; [done | |].
  - by apply flip_duplicates_shape in E.
  - rewrite np_sort_length, np_assign_length. split; [done |].
    unfold np_sort. apply Sorted_merge_sort. apply _.
Qed.

Lemma roll_state g rng st action st' d over :
  roll g rng st action = Ok (st', state_and_flag d over) -> d = current_dice st'.
Proof.
  rewrite roll_unfold. destruct (bool_decide (action ∈ actions g)); simpl; [| done].
  destruct (game_over st); [done |].
  destruct (bool_decide (length action = dice g)).
  - intros H. apply bind_ok in H as (fl & _ & H).
    apply bind_ok in H as (n & _ & [= <- <- _]). done.
  - intros H. apply bind_ok in H as (drawn & _ & H).
    apply bind_ok in H as (n & _ & [= <- <- _]). done.
Qed.

Lemma roll_ok_action g rng st action st' r :
  roll g rng st action = Ok (st', r) -> action ∈ actions g.
Proof.
  intros H. destruct (decide (action ∈ actions g)) as [Ha | Ha]; [done |].
  rewrite roll_unfold in H. by rewrite (bool_decide_eq_false_2 _ Ha) in H.
Qed.

Lemma reset_roll g rng st d :
  reset g rng = Ok (st, d) ->
  roll g rng {| game_over := false; score := py_int (penalty g);
                current_dice := replicate (dice g) 0 |} []
  = Ok (st, state_and_flag d false)
  \/ roll g rng {| game_over := false; score := py_int (penalty g);
                   current_dice := replicate (dice g) 0 |} []
     = Ok (st, state_and_flag d true).
Proof.
  unfold reset. intros H. apply bind_ok in H as ([st' r] & Hroll & H).
  destruct r as [| d' [|]]; [done | |]; injection H as -> ->; auto.
Qed.

Lemma reset_state g rng st d : reset g rng = Ok (st, d) -> d = current_dice st.
Proof.
  intros H. apply reset_roll in H as [H | H]; by apply roll_state in H.
Qed.

Lemma reachable_shape g st :
  reachable g st ->
  length (current_dice st) = dice g /\ Sorted Z.le (current_dice st).
Proof.
  induction 1 as [rng st d H | rng st action st' r Hst [IHl IHs] H
                  | rng st action st' e Hst [IHl IHs] H].
  - apply reset_roll in H as [H | H];
      apply roll_shape in H as [Hl Hs]; try done;
      simpl in Hl; rewrite length_replicate in Hl; done.
  - apply roll_shape in H as [Hl Hs]; [| by eapply reachable_not_over].
    split; [congruence | done].
  - apply roll_step_shape in H as [Hl Hs]; [| done].
    split; [congruence | done].
Qed.

Lemma reachable_state g st :
  StronglySorted Z.lt (values g) -> Forall (in_range 32) (values g) ->
  reachable g st -> current_dice st ∈ states g.
Proof.
  intros Hasc Hr Hst. destruct (reachable_shape g st Hst) as [Hl Hs].
  apply (cwr_ascending (values g) Hasc (dice g)).
  split; [done |]. split; [| done]. by apply reachable_within.
Qed.

(** A game that has been reset once with dice to draw has a value
    domain and biases [np.random.choice] accepts. *)
Lemma reachable_biases g st :
  reachable g st -> (0 < dice g)%nat ->
  values g <> [] /\ length (biases g) = length (values g)
  /\ choice_accepts (biases g).
Proof.
  intros Hst Hd.
  induction Hst as [rng st d H | rng st action st' r _ IH _
                    | rng st action st' e _ IH _]; [| done | done].
  unfold reset in H. rewrite roll_unfold in H.
  rewrite (bool_decide_eq_true_2 _ (empty_action_in_actions g)) in H.
  simpl in H. rewrite bool_decide_eq_false_2 in H by lia.
  destruct (np_random_choice _ _ _ _) as [drawn | e] eqn:E; [| done].
  apply np_random_choice_inv in E as (Hv & Hl & Hp & _).
  split; [apply Hv; lia | done].
Qed.

(** A call of [roll] with an action of the game raises nothing but the
    [OverflowError] of a score update, and returns when the penalty and
    the score fit an [np.int64]. *)
Lemma roll_valid_action g rng st action :
  Forall (in_range 32) (values g) -> reachable g st ->
  action ∈ actions g ->
  (forall e, roll g rng st action = Raise e -> e = OverflowError)
  /\ (in_range 64 (penalty g) -> in_range 64 (number_value (score st)) ->
      is_ok (roll g rng st action)).
Proof.
  intros Hr Hst Ha. rewrite roll_unfold.
  rewrite (bool_decide_eq_true_2 _ Ha). simpl.
  rewrite (reachable_not_over g st Hst).
  destruct (bool_decide (length action = dice g)) eqn:El.
  - destruct (flip_duplicates_ok g (current_dice st) Hr (reachable_within g st Hr Hst))
      as (fl & -> & _). cbn [Exn.bind].
    split.
    + intros e He. unfold add_int64 in He.
      destruct (score st); [case_bool_decide |]; simpl in He; congruence.
    + intros _ Hfit. unfold add_int64.
      destruct (score st) as [z | z]; simpl in *; [| done].
      by rewrite (bool_decide_eq_true_2 _ Hfit).
  - apply bool_decide_eq_false in El.
    destruct (reachable_biases g st Hst (nonterminal_has_dice g action Ha El))
      as (Hv & Hl & Hp).
    destruct (np_random_choice_ok (values g) (dice g - length action) (biases g) rng Hv Hl Hp)
      as (drawn & -> & _). cbn [Exn.bind].
    split.
    + intros e He. unfold sub_py_int in He.
      destruct (score st); [| case_bool_decide]; simpl in He; congruence.
    + intros Hfit _. unfold sub_py_int.
      destruct (score st) as [z | z]; simpl in *; [done |].
      by rewrite (bool_decide_eq_true_2 _ Hfit).
Qed.

Lemma np_assign_reroll (arr : list Z) : forall start (a : list nat) new,
  a `sublist_of` seq start (length arr) ->
  length new = (length arr - length a)%nat ->
  np_assign (map (fun i => negb (bool_decide (i ∈ a))) (seq start (length arr))) arr new
  ≡ₚ map (fun i => nth (i - start) arr 0) a ++ map intc new.
Proof.
  induction arr as [|x arr IH]; intros start a new Ha Hn; cbn [length seq map np_assign] in *.
  - apply sublist_nil_r in Ha as ->. destruct new; [done | simpl in Hn; lia].
  - assert (Hge : forall b, b `sublist_of` seq (S start) (length arr) ->
                  Forall (fun i => (S start <= i)%nat) b).
    { intros b Hb. apply Forall_forall. intros i Hi.
      eapply elem_of_sublist in Hi; [| exact Hb]. apply elem_of_seq in Hi. lia. }
    apply sublist_cons_r in Ha as [Ha | (a' & -> & Ha)].
    + pose proof (Hge a Ha) as Hall. rewrite Forall_forall in Hall.
      rewrite bool_decide_eq_false_2 by (intros Hin; apply Hall in Hin; lia).
      cbn [negb].
      pose proof (sublist_length _ _ Ha) as Hlen. rewrite length_seq in Hlen.
      destruct new as [|y new]; [simpl in Hn; lia |].
      rewrite (IH (S start) a new Ha) by (simpl in Hn; lia).
      cbn [map]. rewrite <- Permutation_middle. constructor.
      apply Permutation_app; [| done].
      match goal with |- ?l ≡ₚ ?r => assert (l = r) as ->; [| done] end.
      apply map_ext_in. intros i Hi. apply list_elem_of_In, Hall in Hi.
      replace (i - start)%nat with (S (i - S start)) by lia. done.
    + rewrite bool_decide_eq_true_2 by (by left). cbn [negb map].
      rewrite Nat.sub_diag. cbn [nth].
      pose proof (Hge a' Ha) as Hall. rewrite Forall_forall in Hall.
      assert (Hmask : map (fun i => negb (bool_decide (i ∈ start :: a'))) (seq (S start) (length arr))
                      = map (fun i => negb (bool_decide (i ∈ a'))) (seq (S start) (length arr))).
      { apply map_ext_in. intros i Hi. apply in_seq in Hi. f_equal.
        apply bool_decide_ext. rewrite elem_of_cons. split; [| by right].
        intros [-> | H]; [lia | done]. }
      rewrite Hmask, (IH (S start) a' new Ha) by (simpl in Hn; lia).
      cbn [app]. constructor. apply Permutation_app; [| done].
      match goal with |- ?l ≡ₚ ?r => assert (l = r) as ->; [| done] end.
      apply map_ext_in. intros i Hi. apply list_elem_of_In, Hall in Hi.
      replace (i - start)%nat with (S (i - S start)) by lia. done.
Qed.

Lemma roll_reroll g rng st action st' r :
  game_over st = false -> length (current_dice st) = dice g ->
  action ∈ actions g -> length action <> dice g ->
  roll g rng st action = Ok (st', r) ->
  exists drawn,
    length drawn = (dice g - length action)%nat
    /\ within g drawn
    /\ current_dice st' ≡ₚ held_values (current_dice st) action ++ map intc drawn
    /\ Sorted Z.le (current_dice st')
    /\ sub_py_int (score st) (penalty g) = Ok (score st')
    /\ r = state_and_flag (current_dice st') false.
Proof.
  intros Hg Hl Ha Hne. rewrite roll_unfold, Hg.
  rewrite (bool_decide_eq_true_2 _ Ha). simpl.
  rewrite bool_decide_eq_false_2 by done.
  intros H. apply bind_ok in H as (drawn & Hd & H).
  apply bind_ok in H as (new_score & Hscore & [= <- <-]). simpl.
  apply np_random_choice_inv in Hd as (_ & _ & _ & Hdl & Hdw).
  exists drawn. split; [done |]. split; [done |].
  split; [| split; [unfold np_sort; apply Sorted_merge_sort; apply _ | done]].
  unfold np_sort. rewrite merge_sort_Permutation. rewrite <- Hl.
  rewrite (np_assign_reroll (current_dice st) 0 action drawn).
  - unfold held_values. apply Permutation_app; [| done].
    match goal with |- ?l ≡ₚ ?r => assert (l = r) as ->; [| done] end.
    apply map_ext. intros i. by rewrite Nat.sub_0_r.
  - rewrite Hl. by apply action_sublist.
  - lia.
Qed.

(** X9. The dice a game shows after any sequence of [reset()] and
    [roll(action)] calls are sorted and there are [dice] of them; over
    an ascending value domain that fits a C [int] they are one of
    [game.states], so the agent has a policy entry for them. *)
Theorem reachable_dice_are_states g st :
  reachable g st ->
  length (current_dice st) = dice g
  /\ Sorted Z.le (current_dice st)
  /\ (StronglySorted Z.lt (values g) -> Forall (in_range 32) (values g) ->
      current_dice st ∈ states g).
Proof.
  intros Hst. destruct (reachable_shape g st Hst) as [Hl Hs].
  split; [done |]. split; [done |]. intros Hasc Hr. by apply reachable_state.
Qed.

Lemma reachable_dice_are_states_witness :
  match reset default_game first_face with
  | Ok (st, _) =>
      reachable default_game st
      /\ length (current_dice st) = dice default_game
      /\ Sorted Z.le (current_dice st)
      /\ current_dice st ∈ states default_game
  | Raise _ => False
  end.
Proof.
  destruct (reset default_game first_face) as [[st d] | e] eqn:E.
  - assert (H1 : reachable default_game st)
      by exact (reachable_reset default_game first_face st d E).
    assert (H2 : StronglySorted Z.lt (values default_game)) by by_computation.
    assert (H3 : Forall (in_range 32) (values default_game)) by by_computation.
    destruct (reachable_dice_are_states default_game st H1) as (Hl & Hs & Hin).
    split; [assumption |]. split; [assumption |]. split; [assumption |].
    exact (Hin H2 H3).
  - vm_compute in E. discriminate E.
Defined.

(** X10. On a game that has been reset, over values that fit a C
    [int]: [roll] with an action that is not one of [game.actions]
    raises [ValueError]; with an action of the game it returns whenever
    the penalty and the score fit an [np.int64], and it can raise
    nothing but the [OverflowError] of the score update: neither the
    opposite-face lookup nor [np.random.choice] fails. *)
Theorem roll_raises_iff_invalid g st :
  Forall (in_range 32) (values g) -> reachable g st ->
  forall rng action,
    (action ∈ actions g -> in_range 64 (penalty g) ->
     in_range 64 (number_value (score st)) -> is_ok (roll g rng st action))
    /\ (action ∈ actions g ->
        forall e, roll g rng st action = Raise e -> e = OverflowError)
    /\ (action ∉ actions g -> roll g rng st action = Raise ValueError).
Proof.
  intros Hr Hst rng action. split; [| split]; intros Ha.
  - by apply roll_valid_action.
  - by apply roll_valid_action.
  - rewrite roll_unfold. by rewrite (bool_decide_eq_false_2 _ Ha).
Qed.

Lemma roll_raises_iff_invalid_witness :
  match reset default_game first_face with
  | Ok (st, _) =>
      Forall (in_range 32) (values default_game)
      /\ reachable default_game st
      /\ [0; 2]%nat ∈ actions default_game
      /\ in_range 64 (penalty default_game)
      /\ in_range 64 (number_value (score st))
      /\ ([3%nat] ∉ actions default_game)
      /\ is_ok (roll default_game first_face st [0; 2]%nat)
      /\ roll default_game first_face st [3%nat] = Raise ValueError
  | Raise _ => False
  end.
Proof.
  destruct (reset default_game first_face) as [[st d] | e] eqn:E.
  - assert (H1 : Forall (in_range 32) (values default_game)) by by_computation.
    assert (H2 : reachable default_game st)
      by exact (reachable_reset default_game first_face st d E).
    assert (H3 : [0; 2]%nat ∈ actions default_game) by by_computation.
    assert (H4 : in_range 64 (penalty default_game)) by by_computation.
    assert (H5 : in_range 64 (number_value (score st))).
    { assert (Hst : Ok (st, d) = reset default_game first_face) by (symmetry; exact E).
      vm_compute in Hst. injection Hst as -> ->. by_computation. }
    assert (H6 : [3%nat] ∉ actions default_game) by by_computation.
    do 6 (split; [assumption |]).
    split.
    + exact (proj1 (roll_raises_iff_invalid default_game st H1 H2 first_face [0; 2]%nat)
               H3 H4 H5).
    + exact (proj2 (proj2 (roll_raises_iff_invalid default_game st H1 H2 first_face
                             [3%nat])) H6).
  - vm_compute in E. discriminate E.
Defined.

(** X11. A [roll] that re-rolls a die keeps the faces of the held dice:
    the new dice are, up to sorting, the held dice together with
    [dice - len(action)] values drawn from the value domain; the score
    goes down by the penalty and the call returns the new dice with
    [game_over = False]. *)
Theorem roll_keeps_held_dice g rng st action st' r :
  reachable g st -> length action <> dice g ->
  roll g rng st action = Ok (st', r) ->
  exists drawn,
    length drawn = (dice g - length action)%nat
    /\ within g drawn
    /\ current_dice st' ≡ₚ held_values (current_dice st) action ++ map intc drawn
    /\ Sorted Z.le (current_dice st')
    /\ sub_py_int (score st) (penalty g) = Ok (score st')
    /\ r = state_and_flag (current_dice st') false.
Proof.
  intros Hst Hne Hroll.
  destruct (reachable_shape g st Hst) as [Hl _].
  apply (roll_reroll g rng st action st' r); try done.
  - by eapply reachable_not_over.
  - by eapply roll_ok_action.
Qed.

Lemma roll_keeps_held_dice_witness :
  match reset default_game first_face with
  | Ok (st, _) =>
      match roll default_game first_face st [0; 1]%nat with
      | Ok (st', r) =>
          reachable default_game st
          /\ length [0; 1]%nat <> dice default_game
          /\ exists drawn,
               length drawn = (dice default_game - length [0; 1]%nat)%nat
               /\ within default_game drawn
               /\ current_dice st'
                  ≡ₚ held_values (current_dice st) [0; 1]%nat ++ map intc drawn
               /\ Sorted Z.le (current_dice st')
               /\ sub_py_int (score st) (penalty default_game) = Ok (score st')
               /\ r = state_and_flag (current_dice st') false
      | Raise _ => False
      end
  | Raise _ => False
  end.
Proof.
  destruct (reset default_game first_face) as [[st d] | e] eqn:E;
    [| vm_compute in E; discriminate E].
  destruct (roll default_game first_face st [0; 1]%nat) as [[st' r] | e] eqn:E2.
  - assert (H1 : reachable default_game st)
      by exact (reachable_reset default_game first_face st d E).
    assert (H2 : length [0; 1]%nat <> dice default_game) by by_computation.
    split; [assumption |]. split; [assumption |].
    exact (roll_keeps_held_dice default_game first_face st [0; 1]%nat st' r H1 H2 E2).
  - vm_compute in E. injection E as E Ed. subst st d.
    vm_compute in E2. discriminate E2.
Defined.

(** X12. [roll] and [get_next_states] agree. For a constructed game
    over an ascending value domain, whatever a successful [roll] does
    was announced by [get_next_states] for the dice before the roll:
    the returned flag is the model's [game_over]; when the game goes on
    the new dice are one of the model's possible next states and the
    score changes by the model's reward [- penalty]; when all dice are
    held the score grows by the model's reward, the final score. *)
Theorem roll_follows_model g rng st action st' r :
  constructed g -> StronglySorted Z.lt (values g) ->
  Forall (in_range 32) (values g) -> Z.of_nat (dice g) < 2 ^ 31 ->
  reachable g st -> roll g rng st action = Ok (st', r) ->
  exists ns,
    get_next_states g (current_dice st) action = Ok ns
    /\ r = state_and_flag (current_dice st') (is_over ns)
    /\ if is_over ns
       then add_int64 (score st) (reward ns) = Ok (score st')
       else Some (current_dice st') ∈ possible_states ns
            /\ sub_py_int (score st) (- reward ns) = Ok (score st').
Proof.
  intros Hg Hasc Hr Hd Hst Hroll.
  destruct (constructed_lengths g Hg) as [Hlen _].
  pose proof (reachable_state g st Hasc Hr Hst) as Hs.
  pose proof (reachable_not_over g st Hst) as Hno.
  destruct (reachable_shape g st Hst) as [Hl _].
  pose proof (roll_ok_action g rng st action st' r Hroll) as Ha.
  destruct (decide (length action = dice g)) as [Hfull | Hne].
  - rewrite (roll_full_hold g rng st action Hno Ha Hfull) in Hroll.
    apply bind_ok in Hroll as (fl & Hfl & Hroll).
    apply bind_ok in Hroll as (new_score & Hscore & [= <- <-]). simpl.
    destruct (flip_duplicates_flipped g (current_dice st) Hlen
                (StronglySorted_lt_NoDup _ Hasc) Hr Hd Hs)
      as (fl' & Hfl' & _ & _ & Hsum).
    assert (fl' = fl) as -> by congruence.
    eexists. split.
    + unfold get_next_states.
      rewrite (bool_decide_eq_true_2 _ Hs), (bool_decide_eq_true_2 _ Ha). simpl.
      rewrite (bool_decide_eq_true_2 _ Hfull), Hsum. simpl. reflexivity.
    + simpl. done.
  - destruct (get_next_states_reroll g (current_dice st) action Hlen Hasc Hr Hs Ha Hne)
      as (_ & Hrolls & E).
    destruct (roll_reroll g rng st action st' r Hno Hl Ha Hne Hroll)
      as (drawn & Hdl & Hdw & Hperm & Hsorted & Hscore & ->).
    eexists. split; [exact E |]. cbn [is_over possible_states reward].
    split; [done |]. split; [| by rewrite Z.opp_involutive].
    apply list_elem_of_fmap. exists (np_sort drawn). split.
    + f_equal. apply (Sorted_unique Z.le); [done | |].
      * unfold np_sort. apply Sorted_merge_sort. apply _.
      * unfold np_sort at 1. rewrite merge_sort_Permutation. rewrite Hperm.
        apply Permutation_app; [done |].
        rewrite (map_intc_id g drawn Hr Hdw). unfold np_sort.
        by rewrite merge_sort_Permutation.
    + apply Hrolls. split; [by rewrite np_sort_length |].
      split; [by apply np_sort_Forall |].
      unfold np_sort. apply Sorted_merge_sort. apply _.
Qed.

Lemma roll_follows_model_witness :
  match reset default_game first_face with
  | Ok (st, _) =>
      match roll default_game first_face st [0; 1]%nat with
      | Ok (st', r) =>
          constructed default_game
          /\ StronglySorted Z.lt (values default_game)
          /\ Forall (in_range 32) (values default_game)
          /\ Z.of_nat (dice default_game) < 2 ^ 31
          /\ reachable default_game st
          /\ exists ns,
               get_next_states default_game (current_dice st) [0; 1]%nat = Ok ns
               /\ r = state_and_flag (current_dice st') (is_over ns)
               /\ if is_over ns
                  then add_int64 (score st) (reward ns) = Ok (score st')
                  else Some (current_dice st') ∈ possible_states ns
                       /\ sub_py_int (score st) (- reward ns) = Ok (score st')
      | Raise _ => False
      end
  | Raise _ => False
  end.
Proof.
  destruct (reset default_game first_face) as [[st d] | e] eqn:E;
    [| vm_compute in E; discriminate E].
  destruct (roll default_game first_face st [0; 1]%nat) as [[st' r] | e] eqn:E2.
  - assert (H1 : constructed default_game) by exact default_game_constructed.
    assert (H2 : StronglySorted Z.lt (values default_game)) by by_computation.
    assert (H3 : Forall (in_range 32) (values default_game)) by by_computation.
    assert (H4 : Z.of_nat (dice default_game) < 2 ^ 31) by reflexivity.
    assert (H5 : reachable default_game st)
      by exact (reachable_reset default_game first_face st d E).
    repeat (split; [assumption |]).
    exact (roll_follows_model default_game first_face st [0; 1]%nat st' r
             H1 H2 H3 H4 H5 E2).
  - vm_compute in E. injection E as E Ed. subst st d.
    vm_compute in E2. discriminate E2.
Defined.

(** ** Default configurations *)

(** X13. [DiceGame(dice, sides)] with the default values
    [1 .. sides], the default uniform biases and any penalty passes the
    two length checks. With at least one die its closing [reset()]
    succeeds as soon as there is a side, and raises [ValueError] with no
    side, where [np.random.choice] rejects the empty value domain. With
    no die the roll of [reset()] is the terminal one and adds the empty
    dice sum, an [np.int64], to the penalty: [reset()] succeeds when
    the penalty fits an [np.int64] and raises [OverflowError] when it
    does not. Floats are read as exact rationals. *)
Theorem default_configuration d n pen rng :
  let g := {| dice := d; sides := n;
              values := map (fun i => Z.of_nat i) (seq 1 n);
              biases := replicate n (1 / Qc_of_nat n)%Qc;
              penalty := default 1 pen |} in
  new_game (Some d) (Some n) None None pen = Ok g
  /\ ((0 < n)%nat -> (0 < d)%nat -> is_ok (reset g rng))
  /\ (n = 0%nat -> (0 < d)%nat -> reset g rng = Raise ValueError)
  /\ (d = 0%nat -> in_range 64 (default 1 pen) -> is_ok (reset g rng))
  /\ (d = 0%nat -> ~ in_range 64 (default 1 pen) ->
      reset g rng = Raise OverflowError).
Proof.
  intros g.
  assert (Hno_dice : d = 0%nat ->
            reset g rng
            = let* new_score := add_int64 (py_int (default 1 pen)) 0 in
              Ok ({| game_over := false; score := new_score; current_dice := [] |},
                  [])).
  { intros ->. unfold reset. rewrite roll_unfold.
    rewrite (bool_decide_eq_true_2 _ (empty_action_in_actions _)).
    cbn [negb game_over dice g length score current_dice penalty replicate].
    rewrite bool_decide_eq_true_2 by done.
    change (flip_duplicates g []) with (Ok (@nil Z)). cbn [Exn.bind].
    change (np_sum []) with 0.
    by destruct (add_int64 _ _). }
  split; [| split; [| split; [| split]]].
  - unfold new_game. cbn [default].
    rewrite length_map, length_seq, length_replicate.
    rewrite !bool_decide_eq_true_2 by done. done.
  - intros Hn Hd. apply reset_ok; cbn [dice values biases g].
    + done.
    + destruct n; [lia | done].
    + by rewrite length_map, length_seq, length_replicate.
    + by apply probability_vector_accepted, uniform_probability_vector.
  - intros -> Hd. unfold reset. rewrite roll_unfold.
    rewrite (bool_decide_eq_true_2 _ (empty_action_in_actions _)).
    cbn [negb game_over dice g length].
    rewrite bool_decide_eq_false_2 by lia.
    unfold np_random_choice. cbn [values g seq map].
    rewrite bool_decide_eq_true_2 by (split; [done | lia]). done.
  - intros Hd Hfit. rewrite (Hno_dice Hd). cbn [add_int64].
    by rewrite (bool_decide_eq_true_2 _ Hfit).
  - intros Hd Hfit. rewrite (Hno_dice Hd). cbn [add_int64].
    by rewrite (bool_decide_eq_false_2 _ Hfit).
Qed.

Lemma default_configuration_witness :
  new_game (Some 3%nat) (Some 6%nat) None None None = Ok default_game
  /\ is_ok (reset default_game first_face)
  /\ reset {| dice := 3; sides := 0; values := []; biases := []; penalty := 1 |}
       first_face
     = Raise ValueError
  /\ is_ok (reset game_no_dice first_face)
  /\ reset {| dice := 0; sides := 6; values := [1; 2; 3; 4; 5; 6];
              biases := replicate 6 (1 / Qc_of_nat 6)%Qc; penalty := 2 ^ 63 |}
       first_face
     = Raise OverflowError.
Proof.
  split; [| split; [| split; [| split]]].
  - exact (proj1 (default_configuration 3 6 None first_face)).
  - apply (proj1 (proj2 (default_configuration 3 6 None first_face))); lia.
  - apply (proj1 (proj2 (proj2 (default_configuration 3 0 None first_face))));
      [reflexivity | lia].
  - apply (proj1 (proj2 (proj2 (proj2 (default_configuration 0 6 None first_face)))));
      [reflexivity | by_computation].
  - apply (proj2 (proj2 (proj2 (proj2
             (default_configuration 0 6 (Some (2 ^ 63)) first_face)))));
      [reflexivity | by_computation].
Defined.

(** ** The solver *)

Lemma py_index_last {A} (l : list A) x :
  py_index (l ++ [x]) (Z.of_nat (length (l ++ [x])) - 1) = Ok x.
Proof.
  unfold py_index. rewrite bool_decide_eq_true_2 by (rewrite length_app; simpl; lia).
  rewrite length_app. simpl.
  replace (Z.to_nat (Z.of_nat (length l + 1) - 1)) with (length l) by lia.
  by rewrite list_lookup_middle.
Qed.

Lemma py_index_elem {A} (l : list A) i x : py_index l i = Ok x -> x ∈ l.
Proof.
  unfold py_index. repeat case_bool_decide; try done;
    destruct (l !! _) eqn:E; try done; intros [= <-];
    by eapply list_elem_of_lookup_2.
Qed.

Lemma py_index_error {A} (l : list A) i e : py_index l i = Raise e -> e = IndexError.
Proof.
  unfold py_index. repeat case_bool_decide;
    try (destruct (l !! _); simpl); congruence.
Qed.

Lemma dict_of_from {V} (f : list Z -> result V) (x : V) keys :
  forall d0 : gmap (list Z) V,
  (forall k, k ∈ keys -> f k = Ok x) ->
  exists d,
    fold_result (fun (d : gmap (list Z) V) k => let* y := f k in Ok (<[k := y]> d))
      d0 keys = Ok d
    /\ forall k, d !! k = if decide (k ∈ keys) then Some x else d0 !! k.
Proof.
  induction keys as [|k0 keys IH]; intros d0 Hf.
  - exists d0. split; [done |]. intros k. rewrite decide_False; [done | apply not_elem_of_nil].
  - cbn [fold_result]. rewrite (Hf k0) by (by left). cbn [Exn.bind].
    destruct (IH (<[k0 := x]> d0)) as (d & E & Hd); [intros k Hk; apply Hf; by right |].
    exists d. split; [done |]. intros k. rewrite Hd.
    destruct (decide (k ∈ keys)) as [Hin | Hout].
    + rewrite decide_True; [done | by right].
    + destruct (decide (k = k0)) as [-> | Hne].
      * rewrite lookup_insert_eq. rewrite decide_True; [done | by left].
      * rewrite lookup_insert_ne by done. rewrite decide_False; [done |].
        intros H. apply elem_of_cons in H as [? | ?]; done.
Qed.

Lemma dict_of_const {V} (f : list Z -> result V) (x : V) keys :
  (forall k, k ∈ keys -> f k = Ok x) ->
  exists d,
    dict_of f keys = Ok d
    /\ forall k, d !! k = if decide (k ∈ keys) then Some x else None.
Proof.
  intros Hf. destruct (dict_of_from f x keys ∅ Hf) as (d & E & Hd).
  exists d. split; [done |]. intros k. rewrite Hd. by rewrite lookup_empty.
Qed.

Lemma initial_solver_state_spec g :
  exists so,
    initial_solver_state g = Ok so
    /\ so_i so = Z.of_nat (length (actions g)) - 1
    /\ forall s,
         so_v so !! s = (if decide (s ∈ states g) then Some 0%Qc else None)
         /\ so_policy so !! s
            = (if decide (s ∈ states g) then Some (seq 0 (dice g)) else None).
Proof.
  unfold initial_solver_state.
  destruct (dict_of_const (fun _ : list Z => Ok 0%Qc) 0%Qc (states g)) as (v & -> & Hv);
    [done |].
  cbn [Exn.bind].
  destruct (dict_of_const
              (fun _ : list Z => py_index (actions g) (Z.of_nat (length (actions g)) - 1))
              (seq 0 (dice g)) (states g)) as (p & -> & Hp).
  { intros _ _. destruct (actions_last g) as [pre ->]. apply py_index_last. }
  cbn [Exn.bind]. eexists. split; [done |]. split; [done |]. intros s. simpl. done.
Qed.

(** X14. [__policy_iteration] starts from the value 0 and from the
    action that holds every die, for each state of the game and for no
    other key: its index starts at [len(actions) - 1], and the last of
    [game.actions] is the tuple of all [dice] positions. The
    initialisation never raises. *)
Theorem initial_policy_holds_all g :
  exists so,
    initial_solver_state g = Ok so
    /\ so_i so = Z.of_nat (length (actions g)) - 1
    /\ py_index (actions g) (so_i so) = Ok (seq 0 (dice g))
    /\ length (seq 0 (dice g)) = dice g
    /\ forall s,
         so_v so !! s = (if decide (s ∈ states g) then Some 0%Qc else None)
         /\ so_policy so !! s
            = (if decide (s ∈ states g) then Some (seq 0 (dice g)) else None).
Proof.
  destruct (initial_solver_state_spec g) as (so & E & Hi & Hso).
  exists so. split; [done |]. split; [done |]. split.
  - rewrite Hi. destruct (actions_last g) as [pre ->]. apply py_index_last.
  - split; [apply length_seq | done].
Qed.

Lemma fold_result_cases {A B} (P : A -> Prop) (Q : exn -> Prop)
    (f : A -> B -> result A) : forall xs acc,
  P acc ->
  (forall a x, x ∈ xs -> P a ->
     match f a x with Ok a' => P a' | Raise e => Q e end) ->
  match fold_result f acc xs with Ok a' => P a' | Raise e => Q e end.
Proof.
  induction xs as [|x xs IH]; intros acc Hacc Hstep; [done |].
  cbn [fold_result].
  pose proof (Hstep acc x ltac:(by left) Hacc) as Hx.
  destruct (f acc x) as [a' | e]; [| done]. cbn [Exn.bind].
  apply IH; [done |]. intros a y Hy. apply Hstep. by right.
Qed.

(** The Bellman loop looks up no missing key; what it can raise is the
    [OverflowError] of a re-roll reward too large for a [float]. *)
Lemma bellman_cases g v s ns :
  total_on g v -> s ∈ states g -> transition_closed g ns ->
  match bellman v s ns with
  | Ok _ => True
  | Raise e =>
      e = OverflowError /\ is_over ns = false
      /\ ~ Z.abs (reward ns) < 2 ^ 1024 - 2 ^ 970
  end.
Proof.
  intros Hv Hs Hns. unfold bellman.
  apply (fold_result_cases (fun _ : Qc => True)
           (fun e => e = OverflowError /\ is_over ns = false
                     /\ ~ Z.abs (reward ns) < 2 ^ 1024 - 2 ^ 970)); [done |].
  intros acc i Hi _. apply elem_of_seq in Hi. unfold bellman_term.
  destruct Hns as [Hover | [Hlen Hclosed]].
  - rewrite Hover. cbn [negb]. destruct (Hv s Hs) as [x ->]. done.
  - destruct (is_over ns); cbn [negb].
    + destruct (Hv s Hs) as [x ->]. done.
    + destruct (lookup_lt_is_Some_2 (probabilities ns) i) as [p ->]; [lia |].
      destruct (lookup_lt_is_Some_2 (possible_states ns) i) as [o Ho]; [lia |].
      rewrite Ho. cbn [lookup_or Exn.bind].
      destruct (Hclosed o (list_elem_of_lookup_2 _ _ _ Ho)) as (s' & -> & Hs').
      cbn [mbind option_bind]. destruct (Hv s' Hs') as [x ->].
      cbn [lookup_or Exn.bind]. unfold float_of_int.
      case_bool_decide; cbn [Exn.bind]; done.
Qed.

Section Solver.

Variable g : DiceGame.
Hypothesis Hg : constructed g.
Hypothesis Hasc : StronglySorted Z.lt (values g).
Hypothesis Hr : Forall (in_range 32) (values g).

Lemma get_next_states_transition s a :
  s ∈ states g -> a ∈ actions g ->
  exists ns,
    get_next_states g s a = Ok ns /\ transition_closed g ns
    /\ (is_over ns = false -> reward ns = - penalty g).
Proof.
  intros Hs Ha. destruct (decide (length a = dice g)) as [Hfull | Hne].
  - pose proof (final_score_ok g s Hs) as Hok.
    destruct (final_score g s) as [final | e] eqn:E; [| done].
    eexists. split; [| split].
    + unfold get_next_states.
      rewrite (bool_decide_eq_true_2 _ Hs), (bool_decide_eq_true_2 _ Ha). simpl.
      rewrite (bool_decide_eq_true_2 _ Hfull), E. simpl. reflexivity.
    + by left.
    + done.
  - destruct (constructed_lengths g Hg) as [Hlen _].
    destruct (get_next_states_reroll g s a Hlen Hasc Hr Hs Ha Hne) as (_ & _ & E).
    eexists. split; [exact E |]. split; [| done].
    right. cbn [possible_states probabilities].
    split; [by rewrite !length_map |].
    intros o Ho. apply list_elem_of_fmap in Ho as (r & -> & Hr').
    eexists. split; [done |]. by apply next_state_is_state.
Qed.

Lemma bellman_transition v s a :
  total_on g v -> s ∈ states g -> a ∈ actions g ->
  exists ns,
    get_next_states g s a = Ok ns
    /\ match bellman v s ns with
       | Ok _ => True
       | Raise e => e = OverflowError /\ ~ Z.abs (penalty g) < 2 ^ 1024 - 2 ^ 970
       end.
Proof.
  intros Hv Hs Ha.
  destruct (get_next_states_transition s a Hs Ha) as (ns & E & Hns & Hrew).
  exists ns. split; [done |].
  pose proof (bellman_cases g v s ns Hv Hs Hns) as Hb.
  destruct (bellman v s ns) as [x | e]; [done |].
  destruct Hb as (-> & Hover & Hbig). split; [done |].
  rewrite (Hrew Hover), Z.abs_opp in Hbig. done.
Qed.

Lemma evaluate_state_ok policy sw state :
  total_on g (sw_v sw) -> policy_valid g policy -> state ∈ states g ->
  match evaluate_state g policy sw state with
  | Ok sw' => total_on g (sw_v sw')
  | Raise e => e = OverflowError /\ ~ Z.abs (penalty g) < 2 ^ 1024 - 2 ^ 970
  end.
Proof.
  intros Hv Hp Hs. unfold evaluate_state.
  destruct (Hv state Hs) as [old Hold]. rewrite Hold. cbn [lookup_or Exn.bind].
  destruct (Hp state Hs) as (a & -> & Ha). cbn [lookup_or Exn.bind].
  destruct (bellman_transition (sw_v sw) state a Hv Hs Ha) as (ns & -> & Hb).
  cbn [Exn.bind].
  destruct (bellman (sw_v sw) state ns) as [new_v | e]; [| done].
  cbn [Exn.bind lookup_or].
  destruct (decide (old < new_v)%Qc).
  - rewrite lookup_insert_eq. cbn [lookup_or Exn.bind sw_v].
    intros s' Hs'. destruct (decide (state = s')) as [-> | Hne].
    + rewrite lookup_insert_eq. by eexists.
    + rewrite lookup_insert_ne by done. by apply Hv.
  - rewrite Hold. cbn [lookup_or Exn.bind sw_v]. done.
Qed.

Lemma sweep_ok policy v :
  total_on g v -> policy_valid g policy ->
  match sweep g policy v with
  | Ok sw => total_on g (sw_v sw)
  | Raise e => e = OverflowError /\ ~ Z.abs (penalty g) < 2 ^ 1024 - 2 ^ 970
  end.
Proof.
  intros Hv Hp. unfold sweep.
  apply (fold_result_cases (fun sw => total_on g (sw_v sw))
           (fun e => e = OverflowError /\ ~ Z.abs (penalty g) < 2 ^ 1024 - 2 ^ 970));
    [done |].
  intros sw s Hs Hsw. by apply evaluate_state_ok.
Qed.

Lemma policy_evaluation_ok policy : forall fuel v,
  total_on g v -> policy_valid g policy ->
  match policy_evaluation g fuel v policy with
  | Finished v' | Running v' => total_on g v'
  | Failed e => e = OverflowError /\ ~ Z.abs (penalty g) < 2 ^ 1024 - 2 ^ 970
  end.
Proof.
  induction fuel as [|fuel IH]; intros v Hv Hp; [done |].
  cbn [policy_evaluation].
  pose proof (sweep_ok policy v Hv Hp) as Hsw.
  destruct (sweep g policy v) as [sw | e]; [| done].
  destruct (sw_converged sw); [done |]. by apply IH.
Qed.

Lemma improve_state_cases i v stable policy state :
  total_on g v -> policy_valid g policy -> state ∈ states g ->
  match improve_state g i v (stable, policy) state with
  | Ok acc' => policy_valid g acc'.2
  | Raise e =>
      e = IndexError
      \/ (e = OverflowError /\ ~ Z.abs (penalty g) < 2 ^ 1024 - 2 ^ 970)
  end.
Proof.
  intros Hv Hp Hs. unfold improve_state.
  destruct (Hp state Hs) as (old & Hold & Hold_in). rewrite Hold.
  cbn [lookup_or Exn.bind].
  destruct (py_index (actions g) i) as [cand | e] eqn:Ec;
    [| cbn [Exn.bind]; left; by eapply py_index_error].
  cbn [Exn.bind]. pose proof (py_index_elem _ _ _ Ec) as Hc.
  destruct (bellman_transition v state cand Hv Hs Hc) as (ns & -> & Hb).
  cbn [Exn.bind].
  destruct (bellman v state ns) as [value | e]; [| by right].
  cbn [Exn.bind]. destruct (Hv state Hs) as [vs ->]. cbn [lookup_or Exn.bind].
  destruct (decide (vs < value)%Qc).
  - rewrite lookup_insert_eq. cbn [lookup_or Exn.bind snd].
    intros s' Hs'. destruct (decide (state = s')) as [-> | Hne].
    + rewrite lookup_insert_eq. by exists cand.
    + rewrite lookup_insert_ne by done. by apply Hp.
  - rewrite Hold. cbn [lookup_or Exn.bind snd]. done.
Qed.

Lemma policy_improvement_cases i v policy :
  total_on g v -> policy_valid g policy ->
  match policy_improvement g i v policy with
  | Ok (i', _, policy') => i' = i - 1 /\ policy_valid g policy'
  | Raise e =>
      e = IndexError
      \/ (e = OverflowError /\ ~ Z.abs (penalty g) < 2 ^ 1024 - 2 ^ 970)
  end.
Proof.
  intros Hv Hp. unfold policy_improvement.
  pose proof (fold_result_cases (fun acc : bool * policy_map => policy_valid g acc.2)
                (fun e => e = IndexError
                          \/ (e = OverflowError
                              /\ ~ Z.abs (penalty g) < 2 ^ 1024 - 2 ^ 970))
                (improve_state g (i - 1) v)
                (states g) (true, policy) Hp) as H.
  destruct (fold_result _ _ _) as [[stable policy'] | e]; cbn [Exn.bind].
  - split; [done |]. apply H. intros [st p] s Hs Hacc. by apply improve_state_cases.
  - apply H. intros [st p] s Hs Hacc. by apply improve_state_cases.
Qed.

Lemma policy_iteration_loop_cases : forall fuel so,
  total_on g (so_v so) -> policy_valid g (so_policy so) ->
  match policy_iteration_loop g fuel so with
  | Finished so' | Running so' => policy_valid g (so_policy so')
  | Failed e =>
      e = IndexError
      \/ (e = OverflowError /\ ~ Z.abs (penalty g) < 2 ^ 1024 - 2 ^ 970)
  end.
Proof.
  induction fuel as [|fuel IH]; intros so Hv Hp; [done |].
  cbn [policy_iteration_loop].
  pose proof (policy_evaluation_ok (so_policy so) (S fuel) (so_v so) Hv Hp) as He.
  destruct (policy_evaluation g (S fuel) (so_v so) (so_policy so)) as [v | e | v];
    [| by right | done].
  pose proof (policy_improvement_cases (so_i so) v (so_policy so) He Hp) as Hi.
  destruct (policy_improvement g (so_i so) v (so_policy so))
    as [[[i stable] policy] | e]; [| done].
  destruct Hi as [_ Hi]. destruct stable; [done |]. by apply IH.
Qed.

Lemma policy_iteration_cases fuel :
  match policy_iteration g fuel with
  | Finished policy | Running policy => policy_valid g policy
  | Failed e =>
      e = IndexError
      \/ (e = OverflowError /\ ~ Z.abs (penalty g) < 2 ^ 1024 - 2 ^ 970)
  end.
Proof.
  unfold policy_iteration.
  destruct (initial_solver_state_spec g) as (so & -> & _ & Hso).
  assert (Hv : total_on g (so_v so)).
  { intros s Hs. destruct (Hso s) as [-> _]. rewrite decide_True by done. by eexists. }
  assert (Hp : policy_valid g (so_policy so)).
  { intros s Hs. destruct (Hso s) as [_ ->]. rewrite decide_True by done.
    eexists. split; [done | apply hold_all_in_actions]. }
  pose proof (policy_iteration_loop_cases fuel so Hv Hp) as H.
  by destruct (policy_iteration_loop g fuel so).
Qed.

End Solver.

Lemma game_0_2_constructed : constructed game_0_2.
Proof.
  exists (Some 1%nat), (Some 2%nat), (Some [0; 2]), (Some [half; half]),
    None, first_face.
  split; [reflexivity | by vm_compute].
Qed.

(** What [__policy_improvement] does at one state. *)
Lemma improve_state_step g i v stable policy state stable' policy' :
  improve_state g i v (stable, policy) state = Ok (stable', policy') ->
  exists cand old,
    py_index (actions g) i = Ok cand
    /\ policy !! state = Some old
    /\ (policy' = policy \/ policy' = <[state := cand]> policy)
    /\ stable' = (if decide (Some old <> policy' !! state) then false else stable).
Proof.
  unfold improve_state. intros H.
  apply bind_ok in H as (old & Hold & H).
  apply bind_ok in H as (cand & Hcand & H).
  apply bind_ok in H as (ns & Hns & H).
  apply bind_ok in H as (value & Hval & H).
  apply bind_ok in H as (vs & Hvs & H).
  apply bind_ok in H as (now & Hnow & H).
  injection H as <- <-.
  exists cand, old. split; [done |].
  destruct (policy !! state) as [old' |] eqn:Ep; [| done]. injection Hold as ->.
  split; [done |].
  set (p' := if decide (vs < value)%Qc then _ else _) in *.
  split; [subst p'; destruct (decide (vs < value)%Qc); auto |].
  destruct (p' !! state) as [now' |]; [| done]. injection Hnow as ->.
  destruct (decide (old = now)) as [-> | Hne].
  - rewrite !decide_False by (intros H; by apply H). done.
  - rewrite !decide_True by congruence. done.
Qed.

(** X15. The convergence flag of an evaluation sweep is decided by the
    first state of [game.states] alone: the sweep ends with
    [converged = True] exactly when the value of the first state
    changed by less than [theta], whatever the other states did; so
    [__policy_evaluation] returns after this sweep in that case and
    runs another sweep otherwise. *)
Theorem sweep_converged_first_state g policy v s rest first sw :
  states g = s :: rest ->
  evaluate_state g policy {| sw_v := v; sw_delta := 0%Qc; sw_converged := false |} s
  = Ok first ->
  sweep g policy v = Ok sw ->
  sw_converged sw = bool_decide (sw_delta first < theta)%Qc
  /\ forall fuel,
       policy_evaluation g (S fuel) v policy
       = if bool_decide (sw_delta first < theta)%Qc then Finished (sw_v sw)
         else policy_evaluation g fuel (sw_v sw) policy.
Proof.
  intros Hs Hfirst Hsweep.
  assert (Hstep : forall a x a',
            evaluate_state g policy a x = Ok a' ->
            (sw_delta a <= sw_delta a')%Qc
            /\ sw_converged a'
               = (if decide (sw_delta a' < theta)%Qc then true else sw_converged a)).
  { intros a x a'. unfold evaluate_state. intros H.
    apply bind_ok in H as (old_v & _ & H).
    apply bind_ok in H as (action & _ & H).
    apply bind_ok in H as (ns & _ & H).
    apply bind_ok in H as (new_v & _ & H).
    apply bind_ok in H as (cur & _ & H).
    apply bind_ok in H as (cur' & _ & H).
    injection H as <-. cbn [sw_delta sw_converged].
    split; [apply Qc_max_ge_l | done]. }
  assert (Hflag : sw_converged sw = bool_decide (sw_delta first < theta)%Qc).
  { unfold sweep in Hsweep. rewrite Hs in Hsweep. cbn [fold_result] in Hsweep.
    rewrite Hfirst in Hsweep. cbn [Exn.bind] in Hsweep.
    apply Hstep in Hfirst as [_ Hc]. cbn [sw_converged] in Hc.
    set (Inv := fun a : sweep_state =>
      (sw_delta first <= sw_delta a)%Qc /\ sw_converged a = sw_converged first).
    assert (HInv : Inv sw).
    { pose proof (fold_result_invariant (fun a b => Inv a -> Inv b)
                    (evaluate_state g policy)) as HF.
      eapply HF; [| | | exact Hsweep |].
      - auto.
      - auto.
      - intros a x a' Hax [Hle Hca].
        apply Hstep in Hax as [Hd Hc'].
        split; [by eapply Qcle_trans |]. rewrite Hc', Hca.
        destruct (decide (sw_delta a' < theta)%Qc) as [Hlt | _]; [| done].
        rewrite Hc. rewrite decide_True; [done |].
        eapply Qcle_lt_trans; [| exact Hlt]. by eapply Qcle_trans.
      - split; [apply Qcle_refl | done]. }
    destruct HInv as [_ ->]. rewrite Hc.
    destruct (decide (sw_delta first < theta)%Qc).
    - by rewrite bool_decide_eq_true_2.
    - by rewrite bool_decide_eq_false_2. }
  split; [done |]. intros fuel. cbn [policy_evaluation].
  rewrite Hsweep, Hflag. done.
Qed.

Lemma sweep_converged_first_state_witness :
  match initial_solver_state game_0_2 with
  | Ok so =>
      match evaluate_state game_0_2 (so_policy so)
              {| sw_v := so_v so; sw_delta := 0%Qc; sw_converged := false |} [0],
            sweep game_0_2 (so_policy so) (so_v so) with
      | Ok first, Ok sw =>
          states game_0_2 = [0] :: [[2]]
          /\ sw_converged sw = bool_decide (sw_delta first < theta)%Qc
          /\ forall fuel,
               policy_evaluation game_0_2 (S fuel) (so_v so) (so_policy so)
               = if bool_decide (sw_delta first < theta)%Qc then Finished (sw_v sw)
                 else policy_evaluation game_0_2 fuel (sw_v sw) (so_policy so)
      | _, _ => False
      end
  | Raise _ => False
  end.
Proof.
  destruct (initial_solver_state game_0_2) as [so | e] eqn:E0;
    [| vm_compute in E0; discriminate E0].
  destruct (evaluate_state game_0_2 (so_policy so)
              {| sw_v := so_v so; sw_delta := 0%Qc; sw_converged := false |} [0])
    as [first | e] eqn:E1;
    [| vm_compute in E0; injection E0 as E0; subst so;
       vm_compute in E1; discriminate E1].
  destruct (sweep game_0_2 (so_policy so) (so_v so)) as [sw | e] eqn:E2;
    [| vm_compute in E0; injection E0 as E0; subst so;
       vm_compute in E2; discriminate E2].
  assert (H1 : states game_0_2 = [0] :: [[2]]) by reflexivity.
  split; [assumption |].
  exact (sweep_converged_first_state game_0_2 (so_policy so) (so_v so) [0] [[2]]
           first sw H1 E1 E2).
Defined.

(** X16. [__policy_improvement] returns the index it was given minus
    one; it reports [stable = True] exactly when it leaves the policy
    as it was; and every entry of the returned policy is either the old
    entry or the one candidate action [actions[action_index - 1]]. *)
Theorem policy_improvement_stable g i v policy i' stable policy' :
  policy_improvement g i v policy = Ok (i', stable, policy') ->
  i' = i - 1
  /\ (stable = true <-> policy' = policy)
  /\ forall s, policy' !! s = policy !! s
               \/ exists cand, py_index (actions g) (i - 1) = Ok cand
                               /\ policy' !! s = Some cand.
Proof.
  unfold policy_improvement. intros H.
  apply bind_ok in H as ([st p] & Hfold & [= <- <- <-]).
  split; [done |].
  set (Inv := fun acc : bool * policy_map =>
    (forall s, acc.2 !! s = policy !! s
               \/ exists cand, py_index (actions g) (i - 1) = Ok cand
                               /\ acc.2 !! s = Some cand)
    /\ (acc.1 = true -> acc.2 = policy)
    /\ (acc.1 = false -> exists s, acc.2 !! s <> policy !! s)).
  assert (HInv : Inv (st, p)).
  { pose proof (fold_result_invariant (fun a b => Inv a -> Inv b)
                  (improve_state g (i - 1) v)) as HF.
    eapply HF; [| | | exact Hfold |].
    - auto.
    - auto.
    - intros [sa pa] s [sb pb] Hstep (Hloc & Htrue & Hfalse).
      apply improve_state_step in Hstep
        as (cand & old & Hcand & Hold & Hpb & ->).
      split; [| split]; cbn [fst snd] in *.
      + intros s'. destruct Hpb as [-> | ->]; [apply Hloc |].
        destruct (decide (s = s')) as [-> | Hne].
        * rewrite lookup_insert_eq. right. by exists cand.
        * rewrite lookup_insert_ne by done. apply Hloc.
      + destruct (decide (Some old <> pb !! s)) as [| Heq]; [done |].
        intros Hsa. rewrite <- (Htrue Hsa).
        destruct Hpb as [-> | ->]; [done |].
        apply dec_stable in Heq. rewrite lookup_insert_eq in Heq.
        assert (old = cand) as -> by congruence. by apply insert_id.
      + destruct (decide (Some old <> pb !! s)) as [Hne | Heq].
        * intros _.
          destruct (decide (pb !! s = policy !! s)) as [Hsame | Hdiff];
            [| by exists s].
          destruct sa.
          -- rewrite (Htrue eq_refl) in Hold. congruence.
          -- destruct (Hfalse eq_refl) as [s' Hs'].
             destruct Hpb as [-> | ->]; [by exists s' |].
             destruct (decide (s = s')) as [-> | Hss].
             ++ rewrite Hsame in Hne. rewrite lookup_insert_eq in Hsame.
                destruct (Hloc s') as [E | (c & Hc & E)]; [congruence |].
                assert (c = cand) as -> by congruence. congruence.
             ++ exists s'. by rewrite lookup_insert_ne.
        * intros Hsa. destruct (Hfalse Hsa) as [s' Hs'].
          destruct Hpb as [-> | ->]; [by exists s' |].
          apply dec_stable in Heq. rewrite lookup_insert_eq in Heq.
          assert (old = cand) as -> by congruence. rewrite insert_id by done.
          by exists s'.
    - split; [by left |]. split; [done | done]. }
  destruct HInv as (Hloc & Htrue & Hfalse). cbn [fst snd] in *.
  split; [| done]. split; [done |].
  intros ->. destruct st; [done |]. destruct (Hfalse eq_refl) as [s Hs]. done.
Qed.

Lemma policy_improvement_stable_witness :
  match initial_solver_state game_0_2 with
  | Ok so =>
      match policy_improvement game_0_2 (so_i so) (so_v so) (so_policy so) with
      | Ok (i', stable, policy') =>
          i' = so_i so - 1
          /\ (stable = true <-> policy' = so_policy so)
          /\ forall s, policy' !! s = so_policy so !! s
                       \/ exists cand,
                            py_index (actions game_0_2) (so_i so - 1) = Ok cand
                            /\ policy' !! s = Some cand
      | Raise _ => False
      end
  | Raise _ => False
  end.
Proof.
  destruct (initial_solver_state game_0_2) as [so | e] eqn:E0;
    [| vm_compute in E0; discriminate E0].
  destruct (policy_improvement game_0_2 (so_i so) (so_v so) (so_policy so))
    as [[[i' stable] policy'] | e] eqn:E1.
  - exact (policy_improvement_stable game_0_2 (so_i so) (so_v so) (so_policy so)
             i' stable policy' E1).
  - vm_compute in E0. injection E0 as E0. subst so.
    vm_compute in E1. discriminate E1.
Defined.

(** X17. For a constructed game over an ascending value domain that
    fits a C [int], the solver looks up no missing key and asks the
    game for no invalid state or action. When the penalty is within
    the range of a [float], an evaluation never raises, and an
    improvement, like the whole of [__policy_iteration], can only raise
    the [IndexError] of [actions[action_index]]. Whatever the penalty,
    the only other exception is the [OverflowError] of adding the
    reward [-1 * penalty] of a re-roll to a [float], and it needs a
    penalty of absolute value [2 ^ 1024 - 2 ^ 970] or more. *)
Theorem policy_iteration_raises_only_index_error g :
  constructed g -> StronglySorted Z.lt (values g) ->
  Forall (in_range 32) (values g) ->
  (Z.abs (penalty g) < 2 ^ 1024 - 2 ^ 970 ->
   (forall fuel v policy e,
      total_on g v -> policy_valid g policy ->
      policy_evaluation g fuel v policy <> Failed e)
   /\ (forall i v policy e,
         total_on g v -> policy_valid g policy ->
         policy_improvement g i v policy = Raise e -> e = IndexError)
   /\ (forall fuel e, policy_iteration g fuel = Failed e -> e = IndexError))
  /\ (forall fuel v policy e,
        total_on g v -> policy_valid g policy ->
        policy_evaluation g fuel v policy = Failed e ->
        e = OverflowError /\ ~ Z.abs (penalty g) < 2 ^ 1024 - 2 ^ 970)
  /\ (forall i v policy e,
        total_on g v -> policy_valid g policy ->
        policy_improvement g i v policy = Raise e ->
        e = IndexError
        \/ (e = OverflowError /\ ~ Z.abs (penalty g) < 2 ^ 1024 - 2 ^ 970))
  /\ (forall fuel e,
        policy_iteration g fuel = Failed e ->
        e = IndexError
        \/ (e = OverflowError /\ ~ Z.abs (penalty g) < 2 ^ 1024 - 2 ^ 970)).
Proof.
  intros Hg Hasc Hr.
  assert (Heval : forall fuel v policy e,
            total_on g v -> policy_valid g policy ->
            policy_evaluation g fuel v policy = Failed e ->
            e = OverflowError /\ ~ Z.abs (penalty g) < 2 ^ 1024 - 2 ^ 970).
  { intros fuel v policy e Hv Hp H.
    pose proof (policy_evaluation_ok g Hg Hasc Hr policy fuel v Hv Hp) as Hok.
    by rewrite H in Hok. }
  assert (Himp : forall i v policy e,
            total_on g v -> policy_valid g policy ->
            policy_improvement g i v policy = Raise e ->
            e = IndexError
            \/ (e = OverflowError /\ ~ Z.abs (penalty g) < 2 ^ 1024 - 2 ^ 970)).
  { intros i v policy e Hv Hp H.
    pose proof (policy_improvement_cases g Hg Hasc Hr i v policy Hv Hp) as Hc.
    by rewrite H in Hc. }
  assert (Hiter : forall fuel e,
            policy_iteration g fuel = Failed e ->
            e = IndexError
            \/ (e = OverflowError /\ ~ Z.abs (penalty g) < 2 ^ 1024 - 2 ^ 970)).
  { intros fuel e H.
    pose proof (policy_iteration_cases g Hg Hasc Hr fuel) as Hc.
    by rewrite H in Hc. }
  split; [| by split].
  intros Hfit. split; [| split].
  - intros fuel v policy e Hv Hp H.
    by destruct (Heval fuel v policy e Hv Hp H) as [_ Hbig].
  - intros i v policy e Hv Hp H.
    by destruct (Himp i v policy e Hv Hp H) as [-> | [_ Hbig]].
  - intros fuel e H. by destruct (Hiter fuel e H) as [-> | [_ Hbig]].
Qed.

Lemma policy_iteration_raises_only_index_error_witness :
  constructed game_0_1 /\ StronglySorted Z.lt (values game_0_1)
  /\ Forall (in_range 32) (values game_0_1)
  /\ Z.abs (penalty game_0_1) < 2 ^ 1024 - 2 ^ 970
  /\ forall fuel e, policy_iteration game_0_1 fuel = Failed e -> e = IndexError.
Proof.
  assert (H1 : constructed game_0_1).
  { exists (Some 1%nat), (Some 2%nat), (Some [0; 1]), (Some [half; half]),
      (Some (-1)), first_face.
    split; [reflexivity | by vm_compute]. }
  assert (H2 : StronglySorted Z.lt (values game_0_1)) by by_computation.
  assert (H3 : Forall (in_range 32) (values game_0_1)) by by_computation.
  assert (H4 : Z.abs (penalty game_0_1) < 2 ^ 1024 - 2 ^ 970) by reflexivity.
  repeat (split; [assumption |]).
  exact (proj2 (proj2 (proj1 (policy_iteration_raises_only_index_error game_0_1
                                H1 H2 H3) H4))).
Defined.

(** With a penalty beyond the range of a [float] the first improvement
    raises: its candidate action re-rolls the die, and the reward
    [-1 * penalty] cannot be added to a [float]. *)
Lemma policy_iteration_overflow :
  policy_iteration game_huge 1 = Failed OverflowError.
Proof. by vm_compute. Qed.

(** The keys of the policy never change. *)
Lemma improve_state_dom g i v acc state acc' :
  improve_state g i v acc state = Ok acc' ->
  forall k, is_Some (acc'.2 !! k) <-> is_Some (acc.2 !! k).
Proof.
  destruct acc as [st p], acc' as [st' p']. intros H k.
  apply improve_state_step in H as (cand & old & _ & Hold & [-> | ->] & _);
    cbn [snd]; [done |].
  destruct (decide (state = k)) as [-> | Hne].
  - rewrite lookup_insert_eq, Hold. split; by eexists.
  - by rewrite lookup_insert_ne.
Qed.

Lemma policy_improvement_dom g i v policy i' stable policy' :
  policy_improvement g i v policy = Ok (i', stable, policy') ->
  forall k, is_Some (policy' !! k) <-> is_Some (policy !! k).
Proof.
  unfold policy_improvement. intros H.
  apply bind_ok in H as ([st p] & Hfold & [= _ _ <-]).
  refine (fold_result_invariant
            (fun a b : bool * policy_map =>
               forall k, is_Some (b.2 !! k) <-> is_Some (a.2 !! k))
            (improve_state g (i - 1) v) _ _ _ (states g) (true, policy) (st, p) Hfold).
  - done.
  - intros a b c Hab Hbc k. by rewrite Hbc.
  - intros a x a'. apply improve_state_dom.
Qed.

Lemma policy_iteration_loop_dom g : forall fuel so so',
  policy_iteration_loop g fuel so = Finished so'
  \/ policy_iteration_loop g fuel so = Running so' ->
  forall k, is_Some (so_policy so' !! k) <-> is_Some (so_policy so !! k).
Proof.
  induction fuel as [|fuel IH]; intros so so' H k.
  - destruct H as [H | H]; [done |]. by injection H as <-.
  - cbn [policy_iteration_loop] in H.
    destruct (policy_evaluation g (S fuel) (so_v so) (so_policy so)) as [v | e | v].
    + destruct (policy_improvement g (so_i so) v (so_policy so))
        as [[[i stable] policy] | e] eqn:E; [| by destruct H].
      pose proof (policy_improvement_dom g _ _ _ _ _ _ E k) as Hd.
      destruct stable.
      * destruct H as [H | H]; [| done]. by injection H as <-.
      * rewrite (IH _ _ H k). done.
    + by destruct H.
    + destruct H as [H | H]; [done |]. by injection H as <-.
Qed.

Lemma policy_iteration_dom g fuel policy :
  policy_iteration g fuel = Finished policy
  \/ policy_iteration g fuel = Running policy ->
  forall k, is_Some (policy !! k) <-> k ∈ states g.
Proof.
  unfold policy_iteration.
  destruct (initial_solver_state_spec g) as (so & -> & _ & Hso).
  intros H k.
  assert (Hinit : is_Some (so_policy so !! k) <-> k ∈ states g).
  { destruct (Hso k) as [_ ->]. destruct (decide (k ∈ states g)).
    - split; [done | by eexists].
    - split; [by intros [? ?] | done]. }
  destruct (policy_iteration_loop g fuel so) as [so' | e | so'] eqn:E.
  - rewrite <- Hinit. destruct H as [[= <-] | H]; [| done].
    apply (policy_iteration_loop_dom g fuel so so'). by left.
  - by destruct H.
  - rewrite <- Hinit. destruct H as [H | [= <-]]; [done |].
    apply (policy_iteration_loop_dom g fuel so so'). by right.
Qed.

(** X18. On the policy the solver returns (or has reached when it is
    stopped), [get_action] answers every state of the game with one of
    the game's actions and raises [KeyError] on anything that is not a
    state of the game. *)
Theorem get_action_total g fuel policy :
  constructed g -> StronglySorted Z.lt (values g) ->
  Forall (in_range 32) (values g) ->
  policy_iteration g fuel = Finished policy
  \/ policy_iteration g fuel = Running policy ->
  forall state,
    (state ∈ states g ->
     exists a, get_action policy state = Ok a /\ a ∈ actions g)
    /\ (state ∉ states g -> get_action policy state = Raise KeyError).
Proof.
  intros Hg Hasc Hr H state.
  pose proof (policy_iteration_cases g Hg Hasc Hr fuel) as Hc.
  pose proof (policy_iteration_dom g fuel policy H state) as Hd.
  assert (Hp : policy_valid g policy) by (by destruct H as [H | H]; rewrite H in Hc).
  unfold get_action. split.
  - intros Hs. destruct (Hp state Hs) as (a & -> & Ha). by exists a.
  - intros Hs. destruct (policy !! state) eqn:E; [| done].
    exfalso. apply Hs, Hd. by eexists.
Qed.

Lemma get_action_total_witness :
  match policy_iteration game_0_2 1 with
  | Finished policy =>
      constructed game_0_2 /\ StronglySorted Z.lt (values game_0_2)
      /\ Forall (in_range 32) (values game_0_2)
      /\ forall state,
           (state ∈ states game_0_2 ->
            exists a, get_action policy state = Ok a /\ a ∈ actions game_0_2)
           /\ (state ∉ states game_0_2 -> get_action policy state = Raise KeyError)
  | _ => False
  end.
Proof.
  destruct (policy_iteration game_0_2 1) as [policy | e | policy] eqn:E.
  - assert (H1 : constructed game_0_2) by exact game_0_2_constructed.
    assert (H2 : StronglySorted Z.lt (values game_0_2)) by by_computation.
    assert (H3 : Forall (in_range 32) (values game_0_2)) by by_computation.
    repeat (split; [assumption |]).
    exact (get_action_total game_0_2 1 policy H1 H2 H3 (or_introl E)).
  - vm_compute in E. discriminate E.
  - vm_compute in E. discriminate E.
Defined.

(** ** Playing a game *)

Lemma penalty_fits n m (p : Z) :
  (n <= m)%nat -> (0 < m)%nat -> Z.of_nat m * Z.abs p < 2 ^ 63 ->
  in_range 64 p /\ in_range 64 (- Z.of_nat n * p).
Proof.
  intros Hn Hm Hb. unfold in_range.
  change (2 ^ (64 - 1)) with 9223372036854775808.
  change (2 ^ 63) with 9223372036854775808 in Hb.
  split; nia.
Qed.

Section PlayLoop.

Variable g : DiceGame.
Hypothesis Hg : constructed g.
Hypothesis Hasc : StronglySorted Z.lt (values g).
Hypothesis Hr : Forall (in_range 32) (values g).
Hypothesis Hd : Z.of_nat (dice g) < 2 ^ 31.
Variable policy : policy_map.
Hypothesis Hp : policy_valid g policy.
Variable rngs : nat -> nat -> nat.

Lemma play_loop_score : forall fuel pl,
  reachable g (pl_game pl) ->
  pl_state pl = current_dice (pl_game pl) ->
  score (pl_game pl) = py_int (- Z.of_nat (pl_roll_count pl) * penalty g) ->
  Z.of_nat (pl_roll_count pl + fuel) * Z.abs (penalty g) < 2 ^ 63 ->
  match play_loop g policy rngs fuel pl with
  | Returned pl' =>
      exists s rerolls,
        s ∈ states g
        /\ policy !! s = Some (seq 0 (dice g))
        /\ flip_duplicates g s = Ok (pl_state pl')
        /\ pl_roll_count pl' = S rerolls
        /\ score (pl_game pl')
           = np_int64 (int64 (final_score_spec g s - Z.of_nat rerolls * penalty g))
  | StillPlaying pl' =>
      pl_roll_count pl' = (pl_roll_count pl + fuel)%nat
      /\ score (pl_game pl') = py_int (- Z.of_nat (pl_roll_count pl') * penalty g)
  | Raised _ | UnpackError => False
  end.
Proof.
  induction fuel as [|fuel IH]; intros pl Hst Hstate Hscore Hbound.
  - cbn [play_loop]. split; [lia | done].
  - cbn [play_loop].
    pose proof (reachable_state g _ Hasc Hr Hst) as Hs.
    destruct (Hp _ Hs) as (action & Hact & Ha).
    unfold get_action. rewrite Hstate, Hact. cbn [lookup_or].
    destruct (penalty_fits (pl_roll_count pl) (pl_roll_count pl + S fuel) (penalty g))
      as [Hpen Hfit]; [lia | lia | done |].
    pose proof (proj2 (roll_valid_action g (rngs (S (pl_roll_count pl))) (pl_game pl)
                         action Hr Hst Ha) Hpen) as Hok.
    rewrite Hscore in Hok. specialize (Hok Hfit).
    destruct (roll g (rngs (S (pl_roll_count pl))) (pl_game pl) action)
      as [[st' r] | e] eqn:Eroll; [| done].
    pose proof (reachable_not_over g _ Hst) as Hno.
    destruct (reachable_shape g _ Hst) as [Hl _].
    destruct (decide (length action = dice g)) as [Hfull | Hne].
    + rewrite (roll_full_hold g _ _ action Hno Ha Hfull) in Eroll.
      apply bind_ok in Eroll as (fl & Hfl & Eroll).
      apply bind_ok in Eroll as (new_score & Hnew & [= <- <-]).
      destruct (constructed_lengths g Hg) as [Hlen _].
      destruct (flip_duplicates_flipped g (current_dice (pl_game pl)) Hlen
                  (StronglySorted_lt_NoDup _ Hasc) Hr Hd Hs)
        as (fl' & Hfl' & _ & Hsum & _).
      assert (fl' = fl) as -> by congruence.
      exists (current_dice (pl_game pl)), (pl_roll_count pl).
      split; [done |]. split.
      { rewrite Hact. f_equal. apply sublist_full; [by apply action_sublist |].
        by rewrite length_seq. }
      cbn [pl_state pl_game pl_roll_count score].
      split; [done |]. split; [done |].
      rewrite Hscore in Hnew. cbn [add_int64] in Hnew.
      rewrite (bool_decide_eq_true_2 _ Hfit), Hsum in Hnew.
      injection Hnew as <-. f_equal. f_equal. lia.
    + destruct (roll_reroll g _ _ action st' r Hno Hl Ha Hne Eroll)
        as (drawn & _ & _ & _ & _ & Hsc & ->).
      set (pl' := {| pl_game := st'; pl_state := current_dice st';
                     pl_roll_count := S (pl_roll_count pl) |}).
      assert (Hst' : reachable g (pl_game pl')).
      { eapply reachable_roll; [exact Hst | exact Eroll]. }
      assert (Hscore' : score (pl_game pl')
                        = py_int (- Z.of_nat (pl_roll_count pl') * penalty g)).
      { cbn [pl' pl_game pl_roll_count]. rewrite Hscore in Hsc.
        cbn [sub_py_int] in Hsc. injection Hsc as <-. f_equal. lia. }
      assert (Hbound' : Z.of_nat (pl_roll_count pl' + fuel) * Z.abs (penalty g)
                        < 2 ^ 63).
      { cbn [pl' pl_roll_count].
        by replace (S (pl_roll_count pl) + fuel)%nat
          with (pl_roll_count pl + S fuel)%nat by lia. }
      pose proof (IH pl' Hst' eq_refl Hscore' Hbound') as H.
      destruct (play_loop g policy rngs fuel pl') as [pl'' | e | | pl'']; try done.
      destruct H as [Hn Hs'']. split; [| done].
      rewrite Hn. cbn [pl' pl_roll_count]. lia.
Qed.

End PlayLoop.

Lemma hold_policy_valid : policy_valid game_1_2 (hold_policy 1 2).
Proof.
  intros s Hs. change (states game_1_2) with [[1]; [2]] in Hs.
  exists [0%nat]. split; [| by_computation].
  apply elem_of_cons in Hs as [-> | Hs]; [reflexivity |].
  apply elem_of_cons in Hs as [-> | Hs]; [reflexivity |].
  by apply not_elem_of_nil in Hs.
Qed.

(** X19. [play] on a constructed game with at least one die, over an
    ascending value domain, with a policy that gives every state one of
    the game's actions and a penalty that stays within an [np.int64]
    when it is paid for every roll of the run, never raises. When it
    returns, the policy held all dice in some state [s] of the game,
    the final dice are those of [s] with the duplicates flipped, and
    the score is the final score of [s] minus the penalty for each of
    the re-rolls before; while it has not returned, every roll so far
    has cost the penalty. *)
Theorem play_score g policy rngs fuel :
  constructed g -> StronglySorted Z.lt (values g) ->
  Forall (in_range 32) (values g) -> Z.of_nat (dice g) < 2 ^ 31 ->
  (0 < dice g)%nat -> policy_valid g policy ->
  Z.of_nat fuel * Z.abs (penalty g) < 2 ^ 63 ->
  exists st state,
    reset g (rngs 0%nat) = Ok (st, state)
    /\ match play_loop g policy rngs fuel
               {| pl_game := st; pl_state := state; pl_roll_count := 0 |} with
       | Returned pl =>
           play g policy rngs fuel = Returned (score (pl_game pl))
           /\ exists s rerolls,
                s ∈ states g
                /\ policy !! s = Some (seq 0 (dice g))
                /\ flip_duplicates g s = Ok (pl_state pl)
                /\ pl_roll_count pl = S rerolls
                /\ score (pl_game pl)
                   = np_int64 (int64 (final_score_spec g s
                                      - Z.of_nat rerolls * penalty g))
       | StillPlaying pl =>
           play g policy rngs fuel
           = StillPlaying (py_int (- Z.of_nat fuel * penalty g))
           /\ pl_roll_count pl = fuel
       | Raised _ | UnpackError => False
       end.
Proof.
  intros Hg Hasc Hr Hd Hpos Hp Hbound.
  destruct (constructed_lengths g Hg) as [Hlv Hlb].
  destruct (constructed_biases g Hg Hpos) as [Hv Hpv].
  pose proof (reset_ok g (rngs 0%nat) Hpos Hv ltac:(congruence) Hpv) as Hok.
  destruct (reset g (rngs 0%nat)) as [[st state] | e] eqn:E; [| done].
  exists st, state. split; [done |].
  pose proof (reset_score g _ st state Hpos E) as Hsc.
  pose proof (reset_state g _ st state E) as Hstate.
  pose proof (reachable_reset g _ st state E) as Hst.
  pose proof (play_loop_score g Hg Hasc Hr Hd policy Hp rngs fuel
                {| pl_game := st; pl_state := state; pl_roll_count := 0 |}
                Hst Hstate) as H.
  cbn [pl_game pl_roll_count] in H. specialize (H Hsc Hbound).
  unfold play. rewrite E.
  destruct (play_loop g policy rngs fuel _) as [pl | e | | pl]; try done.
  destruct H as [Hn Hs]. split; [| done]. by rewrite Hs, Hn.
Qed.

Lemma play_score_witness :
  constructed game_1_2 /\ StronglySorted Z.lt (values game_1_2)
  /\ Forall (in_range 32) (values game_1_2)
  /\ Z.of_nat (dice game_1_2) < 2 ^ 31
  /\ (0 < dice game_1_2)%nat
  /\ policy_valid game_1_2 (hold_policy 1 2)
  /\ Z.of_nat 3 * Z.abs (penalty game_1_2) < 2 ^ 63
  /\ exists st state,
       reset game_1_2 first_face = Ok (st, state)
       /\ match play_loop game_1_2 (hold_policy 1 2) (fun _ => first_face) 3
                  {| pl_game := st; pl_state := state; pl_roll_count := 0 |} with
          | Returned pl =>
              play game_1_2 (hold_policy 1 2) (fun _ => first_face) 3
              = Returned (score (pl_game pl))
              /\ exists s rerolls,
                   s ∈ states game_1_2
                   /\ hold_policy 1 2 !! s = Some (seq 0 (dice game_1_2))
                   /\ flip_duplicates game_1_2 s = Ok (pl_state pl)
                   /\ pl_roll_count pl = S rerolls
                   /\ score (pl_game pl)
                      = np_int64 (int64 (final_score_spec game_1_2 s
                                         - Z.of_nat rerolls * penalty game_1_2))
          | StillPlaying pl =>
              play game_1_2 (hold_policy 1 2) (fun _ => first_face) 3
              = StillPlaying (py_int (- Z.of_nat 3 * penalty game_1_2))
              /\ pl_roll_count pl = 3%nat
          | Raised _ | UnpackError => False
          end.
Proof.
  assert (H1 : constructed game_1_2) by exact game_1_2_constructed.
  assert (H2 : StronglySorted Z.lt (values game_1_2)) by by_computation.
  assert (H3 : Forall (in_range 32) (values game_1_2)) by by_computation.
  assert (H4 : Z.of_nat (dice game_1_2) < 2 ^ 31) by reflexivity.
  assert (H5 : (0 < dice game_1_2)%nat) by (simpl; lia).
  assert (H6 : policy_valid game_1_2 (hold_policy 1 2)) by exact hold_policy_valid.
  assert (H7 : Z.of_nat 3 * Z.abs (penalty game_1_2) < 2 ^ 63) by reflexivity.
  do 7 (split; [assumption |]).
  exact (play_score game_1_2 (hold_policy 1 2) (fun _ => first_face) 3
           H1 H2 H3 H4 H5 H6 H7).
Defined.

(** With a penalty that does not fit an [np.int64], [play] raises as
    soon as the policy holds all dice after a re-roll. *)
Lemma play_overflow :
  play game_dear (<[ [1] := [] ]> (hold_policy 1 2))
    (fun k j => match k with 1%nat => 1%nat | _ => 0%nat end) 2
  = Raised OverflowError.
Proof. by vm_compute. Qed.
